(** * Account-creation bots and the verification-form submitter

    A shallow embedding of the JavaScript sources:
    - [encryptToTargetHex] (all three bots),
    - [normalizeName] / [findCollegeByName] (the verification-form submitter),
    - [regist_sendRequest], [functionGetLink], [verify_sendRequest],
      [saveToFile] and [createAccount] with its confirmation poll loop,
    - the "turbo" orchestrator [runHighThroughput] / [launchNext] and the
      race-based [queueNext] loop, with the run constants derived from the
      prompt answers,
    - [fetchCapcutDomains] / [getEmailRandom] and the country prompt of
      [promptUser],
    - [loadColleges], [loadStudents] and [processStudent] with the requests
      it makes.

    Numbers that the scripts only count with are natural numbers; the run
    constants, which the scripts take unrounded from the prompt and from
    [config.json], are rationals or [Infinity]; UTF-16 code units are [N];
    text that the scripts compare or cut is [string]. *)

From Stdlib Require Import ZArith NArith List String Ascii Lia Bool.
From Stdlib Require Import QArith Qround.
From stdpp Require Import base gmap sets list strings pretty.

Local Open Scope string_scope.

(* ------------------------------------------------------------------ *)
(** ** JavaScript strings and [encryptToTargetHex]                     *)
(* ------------------------------------------------------------------ *)

Module TargetHex.

(** A JavaScript string is a sequence of UTF-16 code units. *)
Definition code_unit := N.
Definition js_string := list code_unit.

Definition is_high_surrogate (u : code_unit) : bool :=
  ((0xD800 <=? u) && (u <=? 0xDBFF))%N.
Definition is_low_surrogate (u : code_unit) : bool :=
  ((0xDC00 <=? u) && (u <=? 0xDFFF))%N.

(** [for (const char of input)] walks the string by code points, so a
    surrogate pair is one [char]; [char.charCodeAt(0)] is the first code
    unit of that [char]. *)
Fixpoint charCodes (input : js_string) : list code_unit :=
  match input with
  | [] => []
  | u :: rest =>
      match rest with
      | v :: rest' =>
          if is_high_surrogate u && is_low_surrogate v
          then u :: charCodes rest'
          else u :: charCodes rest
      | [] => [u]
      end
  end.

Definition hex_digit (d : N) : ascii :=
  match d with
  | 0 => "0" | 1 => "1" | 2 => "2" | 3 => "3" | 4 => "4" | 5 => "5"
  | 6 => "6" | 7 => "7" | 8 => "8" | 9 => "9" | 10 => "a" | 11 => "b"
  | 12 => "c" | 13 => "d" | 14 => "e" | _ => "f"
  end%N%char.

Fixpoint toString16_aux (fuel : nat) (n : N) (acc : string) : string :=
  match fuel with
  | O => acc
  | S fuel' =>
      if (n =? 0)%N then acc
      else toString16_aux fuel' (n / 16)%N (String (hex_digit (n mod 16)%N) acc)
  end.

(** [Number.prototype.toString(16)] on a non-negative integer. *)
Definition toString16 (n : N) : string :=
  if (n =? 0)%N then "0" else toString16_aux (N.size_nat n) n "".

Fixpoint zeros (k : nat) : string :=
  match k with O => "" | S k' => String "0"%char (zeros k') end.

(** [s.padStart(targetLength, "0")]. *)
Definition padStart0 (targetLength : nat) (s : string) : string :=
  zeros (targetLength - String.length s) ++ s.

Definition encryptChar (u : code_unit) : string :=
  let encryptedCharCode := N.lxor u 0x05 in
  padStart0 2 (toString16 encryptedCharCode).

Definition encryptToTargetHex (input : js_string) : string :=
  fold_left (fun hexResult u => hexResult ++ encryptChar u) (charCodes input) "".

(** The code units of a string whose characters are all below 256. *)
Definition units_of_string (s : string) : js_string :=
  map N_of_ascii (list_ascii_of_string s).

Definition encryptString (s : string) : string :=
  encryptToTargetHex (units_of_string s).

(** Reading the output back (the scripts themselves never decode): each
    two-digit chunk is read as a hex number and XOR-ed with 0x05. *)
Definition hex_value (c : ascii) : option N :=
  let n := N_of_ascii c in
  if ((48 <=? n) && (n <=? 57))%N then Some (n - 48)%N
  else if ((97 <=? n) && (n <=? 102))%N then Some (n - 87)%N
  else None.

Fixpoint decodeTargetHex (hex : string) : option js_string :=
  match hex with
  | EmptyString => Some []
  | String a (String b rest) =>
      match hex_value a, hex_value b, decodeTargetHex rest with
      | Some x, Some y, Some tail => Some (N.lxor (16 * x + y) 0x05 :: tail)
      | _, _, _ => None
      end
  | String _ EmptyString => None
  end.

Definition latin1 (input : js_string) : Prop :=
  Forall (fun u => (u <= 0xFF)%N) input.

(** One byte is written as exactly two hex digits that read back. *)
Definition two_digits_ok (u : code_unit) : bool :=
  match encryptChar u with
  | String a (String b EmptyString) =>
      match hex_value a, hex_value b with
      | Some x, Some y => (N.lxor (16 * x + y) 0x05 =? u)%N
      | _, _ => false
      end
  | _ => false
  end.

End TargetHex.

(* ------------------------------------------------------------------ *)
(** ** String methods the scripts rely on                              *)
(* ------------------------------------------------------------------ *)

Module Text.

Definition is_alnum (c : ascii) : bool :=
  let n := N_of_ascii c in
  (((48 <=? n) && (n <=? 57)) || ((65 <=? n) && (n <=? 90))
   || ((97 <=? n) && (n <=? 122)))%N.

Definition is_space (c : ascii) : bool :=
  let n := N_of_ascii c in
  (((9 <=? n) && (n <=? 13)) || (n =? 32) || (n =? 160))%N.

(** [toLowerCase] on one code unit below 256: the letters A to Z, À to Ö
    (192 to 214) and Ø to Þ (216 to 222) have their lower-case form 32
    places up; every other code unit, × (215), ß and ÿ among them, is kept. *)
Definition lower (c : ascii) : ascii :=
  let n := N_of_ascii c in
  if (((65 <=? n) && (n <=? 90)) || ((192 <=? n) && (n <=? 214))
      || ((216 <=? n) && (n <=? 222)))%N
  then ascii_of_N (n + 32) else c.

Fixpoint toLowerCase (s : string) : string :=
  match s with
  | EmptyString => EmptyString
  | String c rest => String (lower c) (toLowerCase rest)
  end.

Fixpoint trimStart (s : string) : string :=
  match s with
  | EmptyString => EmptyString
  | String c rest => if is_space c then trimStart rest else s
  end.

Fixpoint trimEnd (s : string) : string :=
  match s with
  | EmptyString => EmptyString
  | String c rest =>
      match trimEnd rest with
      | EmptyString => if is_space c then EmptyString else String c EmptyString
      | rest' => String c rest'
      end
  end.

Definition trim (s : string) : string := trimEnd (trimStart s).

(** [s.includes(t)]. *)
Fixpoint includes (s t : string) : bool :=
  String.prefix t s
  || match s with
     | EmptyString => false
     | String _ rest => includes rest t
     end.

(** [s.substring(0, n)]. *)
Fixpoint substring0 (n : nat) (s : string) : string :=
  match n, s with
  | S n', String c rest => String c (substring0 n' rest)
  | _, _ => EmptyString
  end.

(** [s.replace(/[^a-z0-9]/g, '')]. *)
Fixpoint keepLowerAlnum (s : string) : string :=
  match s with
  | EmptyString => EmptyString
  | String c rest =>
      let n := N_of_ascii c in
      if (((48 <=? n) && (n <=? 57)) || ((97 <=? n) && (n <=? 122)))%N
      then String c (keepLowerAlnum rest) else keepLowerAlnum rest
  end.

(** [s.split('@')[0]]: the text before the first ["@"]. *)
Fixpoint beforeAt (s : string) : string :=
  match s with
  | EmptyString => EmptyString
  | String c rest => if Ascii.eqb c "@" then EmptyString else String c (beforeAt rest)
  end.

Fixpoint afterAt (s : string) : option string :=
  match s with
  | EmptyString => None
  | String c rest => if Ascii.eqb c "@" then Some rest else afterAt rest
  end.

(** [s.split('@')[1]], printed as the script's template literal prints it
    (["undefined"] when there is no second piece). *)
Definition secondPiece (s : string) : string :=
  match afterAt s with
  | Some rest => beforeAt rest
  | None => "undefined"
  end.

End Text.

(* ------------------------------------------------------------------ *)
(** ** Matching a school name against the colleges map                 *)
(* ------------------------------------------------------------------ *)

Module Colleges.
Import Text.

(** An entry of the colleges file; [college_name] is [None] when the entry
    carries no name (the script then normalizes it to the empty string). *)
Record college := { college_id : Z; college_name : option string }.

(** A JavaScript [Map]: entries in insertion order, one per key. *)
Definition colleges_map := list (Z * college).

Fixpoint map_set (m : colleges_map) (k : Z) (v : college) : colleges_map :=
  match m with
  | [] => [(k, v)]
  | (k', v') :: rest =>
      if (k =? k')%Z then (k, v) :: rest else (k', v') :: map_set rest k v
  end.

Definition map_values (m : colleges_map) : list college := map snd m.

(** [data.forEach(c => map.set(c.id, c))]. *)
Definition loadColleges (data : list college) : colleges_map :=
  fold_left (fun m c => map_set m (college_id c) c) data [].

(** What follows the first [")"] of [s], if there is one. *)
Fixpoint after_close (s : string) : option string :=
  match s with
  | EmptyString => None
  | String c rest => if Ascii.eqb c ")" then Some rest else after_close rest
  end.

(** [.replace(/\([^)]*\)/g, ' ')]: every ["("] that is followed by a [")"]
    is replaced, together with everything up to the first such [")"], by
    one space. *)
Fixpoint dropParentheticals (fuel : nat) (s : string) : string :=
  match fuel with
  | O => s
  | S fuel' =>
      match s with
      | EmptyString => EmptyString
      | String c rest =>
          if Ascii.eqb c "("
          then match after_close rest with
               | Some after => String " " (dropParentheticals fuel' after)
               | None => String c (dropParentheticals fuel' rest)
               end
          else String c (dropParentheticals fuel' rest)
      end
  end.

(** [.replace(/[^a-zA-Z0-9]+/g, ' ')]: [in_run] tells that the previous
    character already belonged to the run being replaced. *)
Fixpoint collapseSeparators (in_run : bool) (s : string) : string :=
  match s with
  | EmptyString => EmptyString
  | String c rest =>
      if is_alnum c then String c (collapseSeparators false rest)
      else if in_run then collapseSeparators true rest
      else String " " (collapseSeparators true rest)
  end.

Definition normalizeName (name : option string) : string :=
  match name with
  | None => ""
  | Some "" => ""
  | Some name =>
      toLowerCase
        (trim (collapseSeparators false
                 (dropParentheticals (String.length name) name)))
  end.

(** The [for ... of collegesMap.values()] loop, with the loop variable
    [partialMatch] threaded through. *)
Fixpoint scanColleges (target : string) (partialMatch : option college)
    (colleges : list college) : option college :=
  match colleges with
  | [] => partialMatch
  | college :: rest =>
      let normalizedCollege := normalizeName (college_name college) in
      if String.eqb normalizedCollege target then Some college
      else
        let partialMatch' :=
          match partialMatch with
          | None =>
              if includes normalizedCollege target
                 || includes target normalizedCollege
              then Some college else None
          | Some _ => partialMatch
          end in
        scanColleges target partialMatch' rest
  end.

Definition findCollegeByName (collegesMap : colleges_map)
    (schoolName : option string) : option college :=
  let target := normalizeName schoolName in
  if String.eqb target "" then None
  else scanColleges target None (map_values collegesMap).

(** A small colleges file in which a partial match for "University of
    Texas" comes before the exact one. *)
Definition texas_colleges : colleges_map :=
  loadColleges
    [ {| college_id := 1; college_name := Some "University of Texas at Austin" |};
      {| college_id := 2; college_name := Some "University of Texas (System)" |} ].

End Colleges.

(* ------------------------------------------------------------------ *)
(** ** One attempt: register, poll for the code, verify                *)
(* ------------------------------------------------------------------ *)

Module Executor.
Import Text TargetHex.

(** A thrown [Error] object; the scripts read nothing of it but
    [error.message]. *)
Record js_error := { error_message : string }.

Inductive completion (A : Type) : Type :=
| Normal (a : A)
| Throw (e : js_error).
Arguments Normal {A} a.
Arguments Throw {A} e.

(** Values that [JSON.parse] can produce, plus [undefined]. *)
Unset Elimination Schemes.
Inductive jsval : Type :=
| JUndefined
| JNull
| JBool (b : bool)
| JNum (z : Z)
| JStr (s : string)
| JArr (items : list jsval)
| JObj (fields : list (string * jsval)).
Set Elimination Schemes.

Definition truthy (v : jsval) : bool :=
  match v with
  | JUndefined | JNull => false
  | JBool b => b
  | JNum z => negb (z =? 0)%Z
  | JStr s => negb (String.eqb s "")
  | JArr _ | JObj _ => true
  end.

Fixpoint assoc (k : string) (fields : list (string * jsval)) : jsval :=
  match fields with
  | [] => JUndefined
  | (k', v) :: rest => if String.eqb k k' then v else assoc k rest
  end.

(** [v.key] for a [v] that is neither [null] nor [undefined]. *)
Definition get_field (v : jsval) (k : string) : jsval :=
  match v with
  | JObj fields => assoc k fields
  | _ => JUndefined
  end.

(** [x && x.message === "success"]. *)
Definition is_success (x : jsval) : bool :=
  truthy x &&
  match get_field x "message" with
  | JStr m => String.eqb m "success"
  | _ => false
  end.

(** [x && x.error]. *)
Definition has_error (x : jsval) : bool :=
  truthy x && truthy (get_field x "error").

(** [{ message: 'error', error: msg }]. *)
Definition error_result (msg : string) : jsval :=
  JObj [("message", JStr "error"); ("error", JStr msg)].

Inductive console_line : Type :=
| LogAttempt (index : nat)
| LogEmail (email : string)
| LogHttpError (status : nat)
| LogEmptyResponse
| LogInvalidJson
| LogRequestError (message : string)
| LogFetchCodeError (message : string)
| LogSaveError (message : string)
| LogRegistrationFailed (domain : string)
| LogErrorField (error : jsval)
| LogNoCodeYet (attempts maxAttempts : nat)
| LogNoCodeAfter (maxAttempts : nat)
| LogCodeReceived (code : string)
| LogAccountCreated (index total : nat)
| LogVerificationFailed
| LogAttemptError (index : nat) (message : string).

(** What one attempt does to the outside world, in order. *)
Inductive effect : Type :=
| SendCode (encryptedEmail encryptedPassword : string)
| GetLink (email domain : string)
| Sleep (ms : N)
| VerifyLogin (encryptedEmail encryptedPassword encryptedCode : string)
| WriteFile (filename data : string)
| Console (line : console_line).

(** An HTTP response as the scripts read it. *)
Record response := {
  resp_ok : bool;
  resp_status : nat;
  resp_text : completion string
}.

(** The collaborators of one attempt.  [inbox_span k] is what the [k]-th
    lookup of the disposable inbox yields: the trimmed text of the selected
    element, or the error thrown on the way. *)
Record world := {
  random_index : nat -> nat;
  faker_username : completion string;
  faker_birthdate : completion string;
  fetch_send_code : string -> string -> completion response;
  inbox_span : nat -> string -> string -> completion string;
  fetch_verify_login : string -> string -> string -> string -> completion response;
  fs_writeFile : string -> string -> completion unit;
  JSON_parse : string -> option jsval
}.

(** Computations: the effects so far go in, the outcome and the effects
    come out; [None] only when a loop was given too little fuel. *)
Definition M (A : Type) : Type :=
  list effect -> option (completion A * list effect).

#[global] Instance M_ret : MRet M := fun A a tr => Some (Normal a, tr).
#[global] Instance M_bind : MBind M := fun A B k m tr =>
  match m tr with
  | Some (Normal a, tr') => k a tr'
  | Some (Throw e, tr') => Some (Throw e, tr')
  | None => None
  end.

Definition throw {A} (e : js_error) : M A := fun tr => Some (Throw e, tr).
Definition out_of_fuel {A} : M A := fun _ => None.
Definition emit (e : effect) : M unit := fun tr => Some (Normal tt, (tr ++ [e])%list).
Definition console (l : console_line) : M unit := emit (Console l).
Definition lift {A} (c : completion A) : M A := fun tr => Some (c, tr).

(** [try { body } catch (error) { handler }]. *)
Definition try_catch {A} (body : M A) (handler : js_error -> M A) : M A :=
  fun tr =>
    match body tr with
    | Some (Throw e, tr') => handler e tr'
    | other => other
    end.

Definition is_GetLink (e : effect) : bool :=
  match e with GetLink _ _ => true | _ => false end.
Definition is_VerifyLogin (e : effect) : bool :=
  match e with VerifyLogin _ _ _ => true | _ => false end.
Definition is_WriteFile (e : effect) : bool :=
  match e with WriteFile _ _ => true | _ => false end.

(** How often the inbox was looked up in a trace. *)
Definition probe_calls (tr : list effect) : nat :=
  List.length (List.filter is_GetLink tr).
Definition verify_calls (tr : list effect) : nat :=
  List.length (List.filter is_VerifyLogin tr).
Definition file_writes (tr : list effect) : nat :=
  List.length (List.filter is_WriteFile tr).

Definition probes_so_far : M nat := fun tr => Some (Normal (probe_calls tr), tr).

(** [!verificationCode]: [null] and the empty string count as no code. *)
Definition no_code (code : option string) : bool :=
  match code with
  | None => true
  | Some s => String.eqb s ""
  end.

Section Attempt.
Variable w : world.

(** The shared tail of [regist_sendRequest] and [verify_sendRequest]. *)
Definition read_response (response : response) : M jsval :=
  if negb (resp_ok response) then
    console (LogHttpError (resp_status response));;
    mret (error_result ("HTTP " ++ pretty (resp_status response)))
  else
    responseText ← lift (resp_text response);
    if String.eqb (trim responseText) "" then
      console LogEmptyResponse;;
      mret (error_result "Empty response")
    else
      match JSON_parse w responseText with
      | Some data => mret data
      | None =>
          console LogInvalidJson;;
          mret (error_result "Invalid JSON response")
      end.

Definition regist_sendRequest (encryptedEmail encryptedPassword : string)
    : M jsval :=
  try_catch
    (emit (SendCode encryptedEmail encryptedPassword);;
     response ← lift (fetch_send_code w encryptedEmail encryptedPassword);
     read_response response)
    (fun error =>
       console (LogRequestError (error_message error));;
       mret (error_result (error_message error))).

Definition verify_sendRequest
    (encryptedEmail encryptedPassword encryptedCode : string) : M jsval :=
  try_catch
    (formattedDate ← lift (faker_birthdate w);
     emit (VerifyLogin encryptedEmail encryptedPassword encryptedCode);;
     response ← lift (fetch_verify_login w encryptedEmail encryptedCode
                        encryptedPassword formattedDate);
     read_response response)
    (fun error =>
       console (LogRequestError (error_message error));;
       mret (error_result (error_message error))).

(** The probe: the text found in the inbox, or [null] after an error. *)
Definition functionGetLink (email domain : string) : M (option string) :=
  try_catch
    (emit (GetLink email domain);;
     k ← probes_so_far;
     src ← lift (inbox_span w k email domain);
     mret (Some src))
    (fun err =>
       console (LogFetchCodeError (error_message err));;
       mret None).

Definition saveToFile (filename data : string) : M unit :=
  try_catch
    (emit (WriteFile filename data);;
     lift (fs_writeFile w filename data))
    (fun error => console (LogSaveError (error_message error))).

(** The two bots differ in the poll constants only: the number of probes,
    the pause, and whether the pause is also taken after the last empty
    probe. *)
Record poll_policy := {
  maxPollAttempts : nat;
  pollIntervalMs : N;
  waitAfterLast : bool
}.

Definition queue_policy : poll_policy :=
  {| maxPollAttempts := 12; pollIntervalMs := 6000%N; waitAfterLast := true |}.
Definition turbo_policy : poll_policy :=
  {| maxPollAttempts := 4; pollIntervalMs := 2000%N; waitAfterLast := false |}.

Variable policy : poll_policy.

(** [do { ... } while (!verificationCode && attempts < maxAttempts)]; the
    result is the pair of the loop variables [verificationCode] and
    [attempts] at exit. *)
Fixpoint pollLoop (fuel : nat) (email domain : string) (attempts : nat)
    : M (option string * nat) :=
  verificationCode ← functionGetLink email domain;
  attempts' ←
    (if no_code verificationCode then
       let attempts' := S attempts in
       console (LogNoCodeYet attempts' (maxPollAttempts policy));;
       (if waitAfterLast policy || (attempts' <? maxPollAttempts policy)%nat
        then emit (Sleep (pollIntervalMs policy)) else mret tt);;
       mret attempts'
     else mret attempts);
  if no_code verificationCode && (attempts' <? maxPollAttempts policy)%nat then
    match fuel with
    | O => out_of_fuel
    | S fuel' => pollLoop fuel' email domain attempts'
    end
  else mret (verificationCode, attempts').

Definition poll (email domain : string) : M (option string * nat) :=
  pollLoop (maxPollAttempts policy) email domain 0.

(** [encryptToTargetHex(password)]: iterating a missing password throws. *)
Definition encryptPassword (password : option string) : M string :=
  match password with
  | Some p => mret (encryptString p)
  | None => throw {| error_message := "password is not iterable" |}
  end.

Definition printed (password : option string) : string :=
  match password with Some p => p | None => "undefined" end.

Definition createAccount (index total : nat) (availableDomains : list string)
    (password : option string) : M bool :=
  try_catch
    (console (LogAttempt index);;
     let domain :=
       nth (random_index w (List.length availableDomains)) availableDomains
           "undefined" in
     raw ← lift (faker_username w);
     let name := substring0 8 (keepLowerAlnum (toLowerCase raw)) in
     let email := name ++ "@" ++ domain in
     console (LogEmail email);;
     let encryptedHexEmail := encryptString email in
     encryptedHexPassword ← encryptPassword password;
     reqnya ← regist_sendRequest encryptedHexEmail encryptedHexPassword;
     if negb (is_success reqnya) then
       console (LogRegistrationFailed domain);;
       (if has_error reqnya
        then console (LogErrorField (get_field reqnya "error")) else mret tt);;
       mret false
     else
       '(verificationCode, attempts) ← poll (beforeAt email) (secondPiece email);
       match verificationCode with
       | Some code =>
           if String.eqb code "" then
             console (LogNoCodeAfter (maxPollAttempts policy));;
             mret false
           else
             console (LogCodeReceived code);;
             verifyResult ← verify_sendRequest (encryptString email)
                              encryptedHexPassword (encryptString code);
             if is_success verifyResult then
               saveToFile "accounts.txt"
                 (email ++ ":" ++ printed password ++ String "010"%char "");;
               console (LogAccountCreated index total);;
               mret true
             else
               console LogVerificationFailed;;
               (if has_error verifyResult
                then console (LogErrorField (get_field verifyResult "error"))
                else mret tt);;
               mret false
       | None =>
           console (LogNoCodeAfter (maxPollAttempts policy));;
           mret false
       end)
    (fun error =>
       console (LogAttemptError index (error_message error));;
       mret false).

End Attempt.

(** What the orchestrator sees of one attempt, from an empty trace. *)
Definition attempt (w : world) (policy : poll_policy) (index total : nat)
    (availableDomains : list string) (password : option string)
    : option (completion bool * list effect) :=
  createAccount w policy index total availableDomains password [].

(** The per-account closure of the batch bot: the same three phases with
    the queue bot's poll constants, resolving to [undefined]. *)
Definition accountTask (w : world) (i loopCount : nat)
    (availableDomains : list string) (password : option string) : M unit :=
  try_catch
    (console (LogAttempt i);;
     let domain :=
       nth (random_index w (List.length availableDomains)) availableDomains
           "undefined" in
     raw ← lift (faker_username w);
     let name := substring0 8 (keepLowerAlnum (toLowerCase raw)) in
     let email := name ++ "@" ++ domain in
     console (LogEmail email);;
     let encryptedHexEmail := encryptString email in
     encryptedHexPassword ← encryptPassword password;
     reqnya ← regist_sendRequest w encryptedHexEmail encryptedHexPassword;
     if is_success reqnya then
       '(verificationCode, attempts) ←
         poll w queue_policy (beforeAt email) (secondPiece email);
       match verificationCode with
       | Some code =>
           if String.eqb code "" then
             console (LogNoCodeAfter (maxPollAttempts queue_policy))
           else
             console (LogCodeReceived code);;
             verifyResult ← verify_sendRequest w encryptedHexEmail
                              encryptedHexPassword (encryptString code);
             if is_success verifyResult then
               saveToFile w "accounts.txt"
                 (email ++ ":" ++ printed password ++ String "010"%char "");;
               console (LogAccountCreated i loopCount)
             else
               console LogVerificationFailed;;
               (if has_error verifyResult
                then console (LogErrorField (get_field verifyResult "error"))
                else mret tt)
       | None => console (LogNoCodeAfter (maxPollAttempts queue_policy))
       end
     else
       console (LogRegistrationFailed domain);;
       (if has_error reqnya
        then console (LogErrorField (get_field reqnya "error")) else mret tt))
    (fun error => console (LogAttemptError i (error_message error))).

(** What the [k]-th call of [functionGetLink] returns: the text found, or
    [null] ([None]) when the lookup threw. *)
Definition probe_result (w : world) (k : nat) (email domain : string)
    : option string :=
  match inbox_span w k email domain with
  | Normal src => Some src
  | Throw _ => None
  end.

(** The address an attempt registers, given the generated user name. *)
Definition address (w : world) (availableDomains : list string) (raw : string)
    : string :=
  substring0 8 (keepLowerAlnum (toLowerCase raw)) ++ "@"
  ++ nth (random_index w (List.length availableDomains)) availableDomains
       "undefined".

(** The ways the register request can signal failure. *)
Inductive register_fails (w : world) (e p : string) : Prop :=
| transport_error err :
    fetch_send_code w e p = Throw err → register_fails w e p
| bad_status r :
    fetch_send_code w e p = Normal r → resp_ok r = false →
    register_fails w e p
| unreadable_body r err :
    fetch_send_code w e p = Normal r → resp_ok r = true →
    resp_text r = Throw err → register_fails w e p
| empty_body r text :
    fetch_send_code w e p = Normal r → resp_ok r = true →
    resp_text r = Normal text → trim text = "" → register_fails w e p
| invalid_json r text :
    fetch_send_code w e p = Normal r → resp_ok r = true →
    resp_text r = Normal text → trim text ≠ "" →
    JSON_parse w text = None → register_fails w e p
| failure_reply r text data :
    fetch_send_code w e p = Normal r → resp_ok r = true →
    resp_text r = Normal text → trim text ≠ "" →
    JSON_parse w text = Some data → is_success data = false →
    register_fails w e p.

(** The register request is answered with a success message. *)
Definition register_succeeds (w : world) (e p : string) : Prop :=
  ∃ r text data,
    fetch_send_code w e p = Normal r ∧ resp_ok r = true
    ∧ resp_text r = Normal text ∧ trim text ≠ ""
    ∧ JSON_parse w text = Some data ∧ is_success data = true.

(** Effects that are neither a verify request nor a file write. *)
Definition quiet (delta : list effect) : Prop :=
  verify_calls delta = 0 ∧ file_writes delta = 0.

(** Sample collaborators: every request is answered with a success
    message; the inbox behaves as [inbox] says. *)
Definition sample_parse (s : string) : option jsval :=
  if String.eqb s "ok" then Some (JObj [("message", JStr "success")]) else None.

Definition sample_response : completion response :=
  Normal {| resp_ok := true; resp_status := 200; resp_text := Normal "ok" |}.

Definition sample_world (inbox : nat -> completion string) : world :=
  {| random_index := fun _ => 0;
     faker_username := Normal "Jane.Doe";
     faker_birthdate := Normal "1990-01-01";
     fetch_send_code := fun _ _ => sample_response;
     inbox_span := fun k _ _ => inbox k;
     fetch_verify_login := fun _ _ _ _ => sample_response;
     fs_writeFile := fun _ _ => Normal tt;
     JSON_parse := sample_parse |}.

(** An inbox that stays empty, one whose lookup always fails, and one that
    shows the code at the third lookup. *)
Definition silent_inbox (k : nat) : completion string := Normal "".
Definition broken_inbox (k : nat) : completion string :=
  Throw {| error_message := "socket hang up" |}.
Definition third_time_inbox (k : nat) : completion string :=
  if (k =? 3)%nat then Normal "123456" else Normal "".

(** A register endpoint that answers with HTTP 403. *)
Definition forbidden_world : world :=
  {| random_index := fun _ => 0;
     faker_username := Normal "Jane.Doe";
     faker_birthdate := Normal "1990-01-01";
     fetch_send_code := fun _ _ =>
       Normal {| resp_ok := false; resp_status := 403; resp_text := Normal "" |};
     inbox_span := fun k _ _ => Normal "123456";
     fetch_verify_login := fun _ _ _ _ => sample_response;
     fs_writeFile := fun _ _ => Normal tt;
     JSON_parse := sample_parse |}.

(** A register endpoint whose reply carries an error field beside the
    message ["success"]. *)
Definition flagged_reply : jsval :=
  JObj [("message", JStr "success"); ("error", JStr "quota exceeded")].

Definition flagged_parse (s : string) : option jsval :=
  if String.eqb s "flagged" then Some flagged_reply else sample_parse s.

Definition flagged_world : world :=
  {| random_index := fun _ => 0;
     faker_username := Normal "Jane.Doe";
     faker_birthdate := Normal "1990-01-01";
     fetch_send_code := fun _ _ =>
       Normal {| resp_ok := true; resp_status := 200;
                 resp_text := Normal "flagged" |};
     inbox_span := fun k _ _ => Normal "123456";
     fetch_verify_login := fun _ _ _ _ => sample_response;
     fs_writeFile := fun _ _ => Normal tt;
     JSON_parse := flagged_parse |}.

End Executor.

(* ------------------------------------------------------------------ *)
(** ** JavaScript numbers as the run constants hold them               *)
(* ------------------------------------------------------------------ *)

Module Numbers.
Local Open Scope nat_scope.

(** A JavaScript number as a prompt answer or a field of [config.json]
    parses to, rounding apart: [NaN], a rational, or an infinity. *)
Inductive number :=
| NaN
| Finite (q : Q)
| Infinity
| MinusInfinity.

(** A run constant.  The checks of the main functions replace what is
    [NaN] or not positive by a default, so that a constant is a rational or
    [Infinity]; it need not be a whole number. *)
Inductive limit :=
| Bounded (q : Q)
| Unbounded.

(** The whole number [n] as a constant. *)
Definition whole (n : nat) : limit := Bounded (inject_Z (Z.of_nat n)).

(** [x > 0 ? x : fallback], which is also
    [if (isNaN(x) || x <= 0) x = fallback] and
    [if (!isNaN(x) && x > 0) ... else fallback]. *)
Definition positive_or (parsed : number) (fallback : limit) : limit :=
  match parsed with
  | Finite q => if Qle_bool q 0 then fallback else Bounded q
  | Infinity => Unbounded
  | NaN | MinusInfinity => fallback
  end.

(** [n < x], for a counter [n]. *)
Definition below (n : nat) (x : limit) : bool :=
  match x with
  | Bounded q => negb (Qle_bool q (inject_Z (Z.of_nat n)))
  | Unbounded => true
  end.

(** [n >= x], for a counter [n]. *)
Definition reaches (n : nat) (x : limit) : bool :=
  match x with
  | Bounded q => Qle_bool q (inject_Z (Z.of_nat n))
  | Unbounded => false
  end.

(** [n > x], for a counter [n]. *)
Definition exceeds (n : nat) (x : limit) : bool :=
  match x with
  | Bounded q => negb (Qle_bool (inject_Z (Z.of_nat n)) q)
  | Unbounded => false
  end.

(** [x * 3], [x + y] and [Math.max(x, y)]. *)
Definition triple (x : limit) : limit :=
  match x with
  | Bounded q => Bounded (q * 3)
  | Unbounded => Unbounded
  end.

Definition plus (x y : limit) : limit :=
  match x, y with
  | Bounded a, Bounded b => Bounded (a + b)
  | _, _ => Unbounded
  end.

Definition Math_max (x y : limit) : limit :=
  match x, y with
  | Bounded a, Bounded b => if Qle_bool a b then Bounded b else Bounded a
  | _, _ => Unbounded
  end.



(** The number of counters below [x]: the least whole number that is not
    below [x], when [x] is finite. *)
Definition roof (x : limit) : option nat :=
  match x with
  | Bounded q => Some (Z.to_nat (Qceiling q))
  | Unbounded => None
  end.

(** [n < x + 1]: every counter before [n] is below [x]. *)
Definition upto (n : nat) (x : limit) : Prop :=
  match roof x with
  | Some c => n <= c
  | None => True
  end.

End Numbers.

(* ------------------------------------------------------------------ *)
(** ** The turbo orchestrator: [runHighThroughput] / [launchNext]      *)
(* ------------------------------------------------------------------ *)

Module Turbo.
Import Numbers.
Local Open Scope nat_scope.

(** The constants of one run. *)
Record config := {
  loopCount : limit;
  MAX_CONCURRENT_REQUESTS : limit;
  maxAttempts : limit
}.

Definition DEFAULT_BATCH_SIZE : limit := whole 50.

(** The run constants as the main function derives them from the prompt
    answers, parsed ([parseInt(count)], [parseInt(concurrencyInput, 10)],
    [parseInt(batchInput, 10)]), and from [Number(config.batchSize)]. *)
Definition configure (count concurrencyInput batchInput configBatchSize : number)
    : config :=
  let loopCount := positive_or count (whole 1) in
  let BATCH_SIZE :=
    positive_or batchInput (positive_or configBatchSize DEFAULT_BATCH_SIZE) in
  let MAX_CONCURRENT_REQUESTS := positive_or concurrencyInput BATCH_SIZE in
  {| loopCount := loopCount;
     MAX_CONCURRENT_REQUESTS := MAX_CONCURRENT_REQUESTS;
     maxAttempts :=
       Math_max (triple loopCount) (plus loopCount MAX_CONCURRENT_REQUESTS) |}.

(** The variables the closures share.  An attempt is named by its index.
    [inFlight] holds the attempts whose chained promise is in the set;
    [counted] those among them whose [then] callback has already run while
    their [finally] callback is still queued; [resolved] tells that
    [resolve()] has been called. *)
Record state := {
  successCount : nat;
  attemptNumber : nat;
  inFlight : gset nat;
  counted : gset nat;
  resolved : bool
}.

#[global] Instance state_eq_dec : EqDecision state.
Proof. solve_decision. Defined.

Definition idle : state :=
  {| successCount := 0; attemptNumber := 0; inFlight := ∅; counted := ∅;
     resolved := false |}.

Section Run.
Variable cfg : config.
(** [outcome i] is the boolean that attempt [i] resolves to. *)
Variable outcome : nat -> bool.

(** One turn of the [while] loop: [attemptNumber++] and [inFlight.add]. *)
Definition launch (s : state) : state :=
  {| successCount := successCount s;
     attemptNumber := S (attemptNumber s);
     inFlight := {[ S (attemptNumber s) ]} ∪ inFlight s;
     counted := counted s;
     resolved := resolved s |}.

Definition may_launch (s : state) : bool :=
  below (size (inFlight s)) (MAX_CONCURRENT_REQUESTS cfg)
  && below (attemptNumber s) (maxAttempts cfg)
  && below (successCount s) (loopCount cfg).

(** The [while] loop; the result lists the state after each launch, and is
    [None] when the loop has not ended within [fuel] turns. *)
Fixpoint launchLoop (fuel : nat) (s : state) : option (list state) :=
  if may_launch s then
    match fuel with
    | O => None
    | S fuel' => cons (launch s) <$> launchLoop fuel' (launch s)
    end
  else Some [].

Definition finished (s : state) : bool :=
  reaches (successCount s) (loopCount cfg)
  || (reaches (attemptNumber s) (maxAttempts cfg) && (size (inFlight s) =? 0)).

Definition resolve (s : state) : state :=
  {| successCount := successCount s;
     attemptNumber := attemptNumber s;
     inFlight := inFlight s;
     counted := counted s;
     resolved := true |}.

(** The turns the loop can take from [s]: each turn takes one attempt of
    the budget and one free slot.  With neither a finite budget nor a
    finite concurrency there is no bound, and the loop, once entered, never
    ends. *)
Definition turns (s : state) : nat :=
  match roof (maxAttempts cfg), roof (MAX_CONCURRENT_REQUESTS cfg) with
  | Some budget, _ => budget - attemptNumber s
  | None, Some slots => slots - size (inFlight s)
  | None, None => 0
  end.

(** [launchNext()]: the states it passes through, in order; [None] when
    its loop never ends. *)
Definition launchNext (s : state) : option (list state) :=
  if finished s then Some [resolve s]
  else launchLoop (turns s) s.

(** The callbacks of attempt [i]: [Settle i] is its [then] callback, which
    runs once [createAccount] has resolved to [outcome i]; [Finalize i] is
    its [finally] callback, which runs in a later turn of the job queue. *)
Inductive event := Settle (i : nat) | Finalize (i : nat).

#[global] Instance event_eq_dec : EqDecision event.
Proof. solve_decision. Defined.

Definition count_success (i : nat) (s : state) : state :=
  {| successCount := if outcome i then S (successCount s) else successCount s;
     attemptNumber := attemptNumber s;
     inFlight := inFlight s;
     counted := {[ i ]} ∪ counted s;
     resolved := resolved s |}.

Definition delete (i : nat) (s : state) : state :=
  {| successCount := successCount s;
     attemptNumber := attemptNumber s;
     inFlight := inFlight s ∖ {[ i ]};
     counted := counted s ∖ {[ i ]};
     resolved := resolved s |}.

(** Running one callback from [s]: the states passed through, or [None]
    when that callback is not queued in [s] (or never returns). *)
Definition step (s : state) (e : event) : option (list state) :=
  match e with
  | Settle i =>
      if decide (i ∈ inFlight s ∧ i ∉ counted s)
      then Some [count_success i s] else None
  | Finalize i =>
      if decide (i ∈ counted s)
      then cons (delete i s) <$> launchNext (delete i s) else None
  end.

(** The state a sequence of states ends in, starting from [s]. *)
Definition final (s : state) (path : list state) : state :=
  fold_left (fun _ s' => s') path s.

Fixpoint run (s : state) (tr : list event) : option (list state) :=
  match tr with
  | [] => Some []
  | e :: tr' =>
      path ← step s e;
      rest ← run (final s path) tr';
      Some (path ++ rest)%list
  end.

(** [runHighThroughput] under a schedule of callbacks: every state the
    run passes through, starting with the idle one. *)
Definition exec (tr : list event) : option (list state) :=
  path ← launchNext idle;
  rest ← run (final idle path) tr;
  Some (idle :: path ++ rest)%list.

(** The callbacks that are queued or can still be queued in [s]. *)
Definition enabled (s : state) : list event :=
  (Settle <$> elements (inFlight s ∖ counted s))
  ++ (Finalize <$> elements (counted s)).

(** Nothing is left to happen. *)
Definition quiescent (s : state) : Prop := inFlight s = ∅.

(** The terminal state of the design: the promise of the run is resolved,
    nothing is in flight, and the target or the budget is reached. *)
Definition Done (s : state) : Prop :=
  resolved s = true ∧ inFlight s = ∅
  ∧ (reaches (successCount s) (loopCount cfg) = true
     ∨ reaches (attemptNumber s) (maxAttempts cfg) = true).

(** The bounds on the counters: [attemptNumber <= maxAttempts] and
    [inFlight.size <= MAX_CONCURRENT_REQUESTS]. *)
Definition within_bounds (s : state) : Prop :=
  exceeds (attemptNumber s) (maxAttempts cfg) = false
  ∧ exceeds (size (inFlight s)) (MAX_CONCURRENT_REQUESTS cfg) = false.

(** The bounds the loop test keeps: [attemptNumber < maxAttempts + 1] and
    [inFlight.size < MAX_CONCURRENT_REQUESTS + 1]. *)
Definition within_reach (s : state) : Prop :=
  upto (attemptNumber s) (maxAttempts cfg)
  ∧ upto (size (inFlight s)) (MAX_CONCURRENT_REQUESTS cfg).

(** What every state of a run satisfies. *)
Definition consistent (s : state) : Prop :=
  within_reach s
  ∧ counted s ⊆ inFlight s
  ∧ (∀ i, i ∈ inFlight s → 1 <= i <= attemptNumber s)
  ∧ (resolved s = true →
     reaches (successCount s) (loopCount cfg) = true
     ∨ reaches (attemptNumber s) (maxAttempts cfg) = true).

(** The loop of [launchNext] is bounded: the budget or the concurrency is
    finite. *)
Definition bounded : Prop :=
  is_Some (roof (maxAttempts cfg))
  ∨ is_Some (roof (MAX_CONCURRENT_REQUESTS cfg)).

(** With room for an attempt, an unresolved run is waiting for
    something. *)
Definition waits (s : state) : Prop :=
  below 0 (MAX_CONCURRENT_REQUESTS cfg) = true →
  resolved s = false → inFlight s ≠ ∅.

(** A bound on the number of callbacks that can still run under a finite
    budget: two for each attempt that is in flight or can still be
    launched, less the [then] callbacks that have run already. *)
Definition potential (s : state) : nat :=
  match roof (maxAttempts cfg) with
  | Some budget =>
      2 * (budget - attemptNumber s) + 2 * size (inFlight s)
      - size (counted s)
  | None => 0
  end.

End Run.

(** The scenario of the specification: target 3, two at a time, at most
    ten attempts. *)
Definition scenario : config :=
  {| loopCount := whole 3; MAX_CONCURRENT_REQUESTS := whole 2;
     maxAttempts := whole 10 |}.

(** A scripted executor: attempts 3, 4 and 5 succeed, all others fail. *)
Definition script (i : nat) : bool := (3 <=? i) && (i <=? 5).

(** An executor all of whose attempts fail. *)
Definition fails : nat -> bool := fun _ => false.

(** The state reached by a schedule, if the schedule is one of the run. *)
Definition outcome_of (cfg : config) (outcome : nat -> bool) (tr : list event)
    : option state :=
  final idle <$> exec cfg outcome tr.

(** [config.batchSize] is 2.5, the prompt asks for one account and the
    other two answers are left empty. *)
Definition fractional : config := configure (Finite 1) NaN NaN (Finite (5 # 2)).

(** *** Exploring the scenario

    A [finally] callback that runs while five attempts are launched and
    fewer than three successes are counted finds a free slot, budget left
    and the target not reached. *)
Definition rushed (s : state) (e : event) : bool :=
  match e with
  | Settle _ => false
  | Finalize _ => (attemptNumber s =? 5) && (successCount s <? 3)
  end.

(** No callback of the schedule [tr], run from [s], is rushed. *)
Fixpoint calm_from (s : state) (tr : list event) : bool :=
  match tr with
  | [] => true
  | e :: tr' =>
      negb (rushed s e)
      && match step scenario script s e with
         | Some path => calm_from (final s path) tr'
         | None => true
         end
  end.

Definition first_fill : state :=
  default idle (final idle <$> launchNext scenario idle).

Definition calm (tr : list event) : bool := calm_from first_fill tr.

(** The states the scenario can reach through callbacks that are not
    rushed. *)
Definition successors (s : state) : list state :=
  omap (fun e => if rushed s e then None
                 else final s <$> step scenario script s e)
       (enabled s).

Fixpoint explore (depth : nat) (front seen : list state) : list state :=
  match depth with
  | O => seen
  | S depth' =>
      let fresh :=
        List.filter (fun s => bool_decide (s ∉ seen))
          (remove_dups (front ≫= successors)) in
      explore depth' fresh (seen ++ fresh)
  end.

Definition reachable_states : list state :=
  explore 12 [first_fill] [first_fill].

(** What the scenario promises, as a check on one state. *)
Definition scenario_ok (s : state) : bool :=
  (attemptNumber s <=? 5) && (successCount s <=? 3)
  && implb (resolved s) ((successCount s =? 3) && (attemptNumber s =? 5))
  && implb (size (inFlight s) =? 0) (resolved s)
  && forallb (fun i => (1 <=? i) && (i <=? 5)) (elements (inFlight s)).

(** Every callback leads from a state of [listed], when it is not rushed,
    to a state of [listed] through states with at most five attempts
    launched and, when it is rushed, to the launch of a sixth attempt. *)
Definition closed (listed : list state) : bool :=
  forallb
    (fun s =>
       forallb
         (fun e =>
            match step scenario script s e with
            | Some path =>
                if rushed s e
                then existsb (fun s' => attemptNumber s' =? 6) path
                else forallb (fun s' => attemptNumber s' <=? 5) path
                     && bool_decide (final s path ∈ listed)
            | None => true
            end)
         (enabled s))
    listed.

(** A completion order of the scenario: attempt 2 completes last. *)
Definition second_last : list event :=
  [Settle 1; Finalize 1; Settle 3; Finalize 3; Settle 4; Finalize 4;
   Settle 5; Finalize 5; Settle 2; Finalize 2].

(** Winding the run down: the first callback that can run next without
    being rushed, again and again. *)
Definition next_calm (s : state) : option event :=
  head (List.filter (fun e => negb (rushed s e)) (enabled s)).

Fixpoint wind_down (fuel : nat) (s : state) : list event :=
  match fuel with
  | O => []
  | S fuel' =>
      match next_calm s with
      | Some e =>
          match step scenario script s e with
          | Some path => e :: wind_down fuel' (final s path)
          | None => []
          end
      | None => []
      end
  end.

(** From every state of [listed] the run can be wound down to rest. *)
Definition winds_down (listed : list state) : bool :=
  forallb
    (fun s =>
       calm_from s (wind_down 10 s)
       && match run scenario script s (wind_down 10 s) with
          | Some path => size (inFlight (final s path)) =? 0
          | None => false
          end)
    listed.

End Turbo.

(* ------------------------------------------------------------------ *)
(** ** The race-based queue: [queueNext] and the [Promise.race] loop   *)
(* ------------------------------------------------------------------ *)

Module RaceQueue.
Import Numbers.
Local Open Scope nat_scope.

(** This bot has a target and a concurrency limit, and no attempt budget. *)
Record config := {
  loopCount : limit;
  MAX_CONCURRENT_REQUESTS : limit
}.

(** Where the main function stands: running, suspended at
    [await Promise.race(activePromises)] on the promises [raced], suspended
    at [await Promise.all(activePromises)], or returned. *)
Inductive control :=
| Running
| Racing (raced : gset nat)
| Draining
| Finished.

#[global] Instance control_eq_dec : EqDecision control.
Proof. solve_decision. Defined.

Record state := {
  successCount : nat;
  attemptNumber : nat;
  activePromises : gset nat;
  counted : gset nat;
  pc : control
}.

Definition idle : state :=
  {| successCount := 0; attemptNumber := 0; activePromises := ∅;
     counted := ∅; pc := Running |}.

Definition final (s : state) (path : list state) : state :=
  fold_left (fun _ s' => s') path s.

Section Run.
Variable cfg : config.
Variable outcome : nat -> bool.

Definition launch (s : state) : state :=
  {| successCount := successCount s;
     attemptNumber := S (attemptNumber s);
     activePromises := {[ S (attemptNumber s) ]} ∪ activePromises s;
     counted := counted s;
     pc := pc s |}.

Definition may_launch (s : state) : bool :=
  below (size (activePromises s)) (MAX_CONCURRENT_REQUESTS cfg)
  && below (successCount s) (loopCount cfg).

(** The [while] loop of [queueNext]; the result lists the state after each
    launch, and is [None] when the loop has not ended within [fuel]
    turns. *)
Fixpoint queueLoop (fuel : nat) (s : state) : option (list state) :=
  if may_launch s then
    match fuel with
    | O => None
    | S fuel' => cons (launch s) <$> queueLoop fuel' (launch s)
    end
  else Some [].

(** The turns the loop can take from [s]: each turn fills one free slot.
    With an infinite concurrency there is no bound, and the loop, once
    entered, never ends. *)
Definition free_slots (s : state) : nat :=
  match roof (MAX_CONCURRENT_REQUESTS cfg) with
  | Some slots => slots - size (activePromises s)
  | None => 0
  end.

(** [queueNext()]; [None] when its loop never ends. *)
Definition queueNext (s : state) : option (list state) :=
  queueLoop (free_slots s) s.

Definition goto (c : control) (s : state) : state :=
  {| successCount := successCount s;
     attemptNumber := attemptNumber s;
     activePromises := activePromises s;
     counted := counted s;
     pc := c |}.

(** From the test of the [while] loop of the main function to its next
    [await]. *)
Definition loop_head (s : state) : option (list state) :=
  if below (successCount s) (loopCount cfg) then
    path ← (if size (activePromises s) =? 0 then queueNext s else Some []);
    let s' := final s path in
    if size (activePromises s') =? 0
    then Some (path ++ [goto Draining s'])%list
    else Some (path ++ [goto (Racing (activePromises s')) s'])%list
  else Some [goto Draining s].

(** The callbacks of attempt [i], and the main function resuming after an
    [await]. *)
Inductive event := Settle (i : nat) | Finalize (i : nat) | Resume.

Definition count_success (i : nat) (s : state) : state :=
  {| successCount := if outcome i then S (successCount s) else successCount s;
     attemptNumber := attemptNumber s;
     activePromises := activePromises s;
     counted := {[ i ]} ∪ counted s;
     pc := pc s |}.

Definition delete (i : nat) (s : state) : state :=
  {| successCount := successCount s;
     attemptNumber := attemptNumber s;
     activePromises := activePromises s ∖ {[ i ]};
     counted := counted s ∖ {[ i ]};
     pc := pc s |}.

Definition step (s : state) (e : event) : option (list state) :=
  match e with
  | Settle i =>
      if decide (i ∈ activePromises s ∧ i ∉ counted s)
      then Some [count_success i s] else None
  | Finalize i =>
      if decide (i ∈ counted s) then Some [delete i s] else None
  | Resume =>
      match pc s with
      | Racing raced =>
          if decide (raced ⊆ activePromises s) then None
          else
            path ← queueNext (goto Running s);
            rest ← loop_head (final (goto Running s) path);
            Some (goto Running s :: path ++ rest)%list
      | Draining =>
          if decide (activePromises s = ∅) then Some [goto Finished s]
          else None
      | Running | Finished => None
      end
  end.

Fixpoint run (s : state) (tr : list event) : option (list state) :=
  match tr with
  | [] => Some []
  | e :: tr' =>
      path ← step s e;
      rest ← run (final s path) tr';
      Some (path ++ rest)%list
  end.

(** The main function from its first [queueNext()] on, under a schedule. *)
Definition exec (tr : list event) : option (list state) :=
  path ← queueNext idle;
  head ← loop_head (final idle path);
  rest ← run (final idle (path ++ head)) tr;
  Some (idle :: path ++ head ++ rest)%list.

(** What every state of a run satisfies: [activePromises.size] is below
    [MAX_CONCURRENT_REQUESTS + 1], and the promises are those of attempts
    launched. *)
Definition consistent (s : state) : Prop :=
  upto (size (activePromises s)) (MAX_CONCURRENT_REQUESTS cfg)
  ∧ ∀ i, i ∈ activePromises s → 1 <= i <= attemptNumber s.

End Run.

(** An executor all of whose attempts fail. *)
Definition fails : nat -> bool := fun _ => false.

(** Between two callbacks of a run in which nothing has succeeded: the main
    function is suspended at the race. *)
Definition waiting (cfg : config) (s : state) : Prop :=
  consistent cfg s ∧ successCount s = 0 ∧ ∃ raced, pc s = Racing raced.

(** A run in which nothing has succeeded, suspended at the race with the
    latest attempt in flight and every slot taken. *)
Definition racing_full (cfg : config) (s : state) : Prop :=
  successCount s = 0 ∧ counted s = ∅
  ∧ pc s = Racing (activePromises s)
  ∧ attemptNumber s ∈ activePromises s
  ∧ roof (MAX_CONCURRENT_REQUESTS cfg) = Some (size (activePromises s))
  ∧ ∀ i, i ∈ activePromises s → 1 <= i <= attemptNumber s.

End RaceQueue.

(* ------------------------------------------------------------------ *)
(** ** Matches and the shape of a normalized name *)
(* ------------------------------------------------------------------ *)

Module Matching.
Import Text Colleges.

(** The two tests of the loop of [findCollegeByName]. *)
Definition is_exact (target : string) (c : college) : bool :=
  String.eqb (normalizeName (college_name c)) target.

Definition is_partial (target : string) (c : college) : bool :=
  includes (normalizeName (college_name c)) target
  || includes target (normalizeName (college_name c)).

Definition is_lower_alnum (c : ascii) : bool :=
  let n := N_of_ascii c in
  (((48 <=? n) && (n <=? 57)) || ((97 <=? n) && (n <=? 122)))%N.

(** Words of [ok] characters separated by single spaces.  [after_space]
    tells that the previous character was a space (or that the text
    starts here, where no space may stand); with [strict] the text may not
    end in a space either. *)
Fixpoint shaped (ok : ascii -> bool) (strict after_space : bool) (s : string)
    : bool :=
  match s with
  | EmptyString => negb (strict && after_space)
  | String c rest =>
      if ok c then shaped ok strict false rest
      else Ascii.eqb c " " && negb after_space && shaped ok strict true rest
  end.

(** Empty, or lower-case words separated by single spaces. *)
Definition tidy (s : string) : bool :=
  String.eqb s "" || shaped is_lower_alnum true true s.

(** A colleges file whose first entry carries no name. *)
Definition nameless_colleges : colleges_map :=
  loadColleges
    [ {| college_id := 7; college_name := None |};
      {| college_id := 8; college_name := Some "Harvard University" |} ].

End Matching.

(* ------------------------------------------------------------------ *)
(** ** Pauses, the verify reply and the pieces of the address *)
(* ------------------------------------------------------------------ *)

Module Ledger.
Import Text TargetHex Executor.

(** The time spent in the pauses of a trace, in milliseconds. *)
Definition slept (tr : list effect) : N :=
  fold_right (fun e ms => match e with Sleep d => (d + ms)%N | _ => ms end)
    0%N tr.

(** The number of pauses of a poll loop that never sees a code. *)
Definition timeout_pauses (policy : poll_policy) : nat :=
  if waitAfterLast policy then maxPollAttempts policy
  else (maxPollAttempts policy - 1)%nat.

(** The verify request is answered with a success message. *)
Definition verify_succeeds (w : world) (e p c : string) : Prop :=
  ∃ date r text data,
    faker_birthdate w = Normal date
    ∧ fetch_verify_login w e c p date = Normal r ∧ resp_ok r = true
    ∧ resp_text r = Normal text ∧ trim text ≠ ""
    ∧ JSON_parse w text = Some data ∧ is_success data = true.

(** The line [createAccount] appends to [accounts.txt]. *)
Definition account_line (email password : string) : string :=
  email ++ ":" ++ password ++ String "010"%char "".

(** Collaborators that answer every request with a success message and
    show the code at the third lookup, on a disk that cannot be written. *)
Definition full_disk_world : world :=
  {| random_index := fun _ => 0;
     faker_username := Normal "Jane.Doe";
     faker_birthdate := Normal "1990-01-01";
     fetch_send_code := fun _ _ => sample_response;
     inbox_span := fun k _ _ => third_time_inbox k;
     fetch_verify_login := fun _ _ _ _ => sample_response;
     fs_writeFile := fun _ _ => Throw {| error_message := "ENOSPC" |};
     JSON_parse := sample_parse |}.

(** The pause taken after the empty probe that brings the counter to
    [attempts']. *)
Definition pause_after (policy : poll_policy) (attempts' : nat) : N :=
  if waitAfterLast policy || ((attempts' <? maxPollAttempts policy)%nat)
  then pollIntervalMs policy else 0%N.

(** The characters of a string, one by one. *)
Definition chars (s : string) : list ascii := list_ascii_of_string s.

End Ledger.

(* ------------------------------------------------------------------ *)
(** ** Counting the successes of a turbo run *)
(* ------------------------------------------------------------------ *)

Module Tally.
Import Numbers Turbo.
Local Open Scope nat_scope.

(** The number of [then] callbacks of a schedule that received [true]. *)
Definition successes (outcome : nat -> bool) (tr : list event) : nat :=
  length (List.filter (fun e => match e with
                                | Settle i => outcome i
                                | Finalize _ => false
                                end) tr).

(** The attempts in flight whose result has not been counted yet. *)
Definition uncounted (s : state) : gset nat := inFlight s ∖ counted s.

(** A state of a run in which the property [P] holds. *)
Definition kept (cfg : config) (P : state -> Prop) (s : state) : Prop :=
  consistent cfg s ∧ P s.

(** Target 1, two at a time. *)
Definition pair : config :=
  {| loopCount := whole 1; MAX_CONCURRENT_REQUESTS := whole 2;
     maxAttempts := whole 3 |}.

End Tally.

(* ------------------------------------------------------------------ *)
(** ** The constants and the ending of the race-based run *)
(* ------------------------------------------------------------------ *)

Module RaceSetup.
Import Numbers RaceQueue.
Local Open Scope nat_scope.

Definition DEFAULT_CONCURRENCY : limit := whole 10.

(** The run constants of the race-based bot: the target from the prompt
    answer ([parseInt(count)]), the concurrency from
    [Number(config.maxConcurrent)]. *)
Definition configure (count maxConcurrent : number) : config :=
  {| loopCount := positive_or count (whole 1);
     MAX_CONCURRENT_REQUESTS :=
       positive_or maxConcurrent DEFAULT_CONCURRENCY |}.

(** Target 2, two at a time. *)
Definition two_by_two : config :=
  {| loopCount := whole 2; MAX_CONCURRENT_REQUESTS := whole 2 |}.

(** [config.maxConcurrent] is 2.5 and the prompt asks for one account. *)
Definition two_and_a_half : config := configure (Finite 1) (Finite (5 # 2)).

(** The main function has reached the report after [Promise.all] and
    prints the shortfall warning. *)
Definition warns_of_shortfall (cfg : config) (s : state) : Prop :=
  pc s = Finished ∧ below (successCount s) (loopCount cfg) = true.

(** What holds between two callbacks: the main function leaves its loop
    only with the target reached, and returns only with nothing active. *)
Definition settled (cfg : config) (s : state) : Prop :=
  consistent cfg s
  ∧ (pc s = Draining ∨ pc s = Finished →
     reaches (successCount s) (loopCount cfg) = true)
  ∧ (pc s = Finished → activePromises s = ∅).

End RaceSetup.

(* ------------------------------------------------------------------ *)
(** ** The signup domains: [fetchCapcutDomains] and [getEmailRandom] *)
(* ------------------------------------------------------------------ *)

Module Domains.
Import Text Executor.

(** [Set.prototype.add] on a set kept in insertion order. *)
Definition set_add (x : string) (s : list string) : list string :=
  if existsb (String.eqb x) s then s else (s ++ [x])%list.

(** [dom && dom.includes('.')]. *)
Definition keeps (dom : string) : bool :=
  negb (String.eqb dom "") && includes dom ".".

(** [fetchCapcutDomains]: [page] is what the request for the generator
    page yields, [suggestions html] the texts of the elements that the
    selector [.e7m.tt-suggestions p] finds in [html].  The error message
    printed in the [catch] branch is left out. *)
Definition fetchCapcutDomains (page : completion response)
    (suggestions : string -> list string) : list string :=
  match page with
  | Throw _ => []
  | Normal response =>
      if negb (resp_ok response) then []
      else
        match resp_text response with
        | Throw _ => []
        | Normal html =>
            fold_left
              (fun domains text =>
                 let dom := trim text in
                 if keeps dom then set_add dom domains else domains)
              (suggestions html) []
        end
  end.

(** [getEmailRandom]: the [throw] on an empty list is caught at once and
    turned into the empty list again. *)
Definition getEmailRandom (page : completion response)
    (suggestions : string -> list string) : list string :=
  let scrapedDomains := fetchCapcutDomains page suggestions in
  if (List.length scrapedDomains =? 0)%nat then [] else scrapedDomains.

(** A page with five suggestions, two of them the same and two unusable. *)
Definition sample_page : completion response :=
  Normal {| resp_ok := true; resp_status := 200; resp_text := Normal "page" |}.
Definition sample_suggestions (html : string) : list string :=
  [" mail.com "; "localhost"; "box.org"; "mail.com"; "  "].

End Domains.

(* ------------------------------------------------------------------ *)
(** ** The country prompt of [promptUser] *)
(* ------------------------------------------------------------------ *)

Module Prompt.
Import Text.

(** [choices.includes(cleanInput)]. *)
Definition listed (choices : list string) (cleanInput : string) : bool :=
  existsb (String.eqb cleanInput) choices.

(** [object[key]]; [None] stands for [undefined]. *)
Fixpoint lookup (key : string) (object : list (string * string))
    : option string :=
  match object with
  | [] => None
  | (k, v) :: rest => if String.eqb key k then Some v else lookup key rest
  end.

(** The turbo bot and the race-based bot.  Of each proxy URL only the
    region field is kept; the rest is the same for all. *)
Module Codes.

Definition proxies : list (string * string) :=
  [("fr", "fr"); ("de", "de"); ("kr", "kr,de,fr"); ("hr", "hr"); ("ch", "ch");
   ("sg", "sg"); ("us", "us"); ("ca", "ca"); ("br", "br"); ("th", "th");
   ("id", "id"); ("jp", "jp"); ("au", "au"); ("it", "it"); ("es", "es")].

Definition countryNames : list (string * string) :=
  [("fr", "France"); ("de", "Germany"); ("kr", "South Korea");
   ("hr", "Croatia"); ("ch", "Switzerland"); ("sg", "Singapore");
   ("us", "USA"); ("ca", "Canada"); ("br", "Brazil"); ("th", "Thailand");
   ("id", "Indonesia"); ("jp", "Japan"); ("au", "Australia"); ("it", "Italy");
   ("es", "Spain")].

(** The chain of tests in [promptUser]. *)
Definition country (cleanInput : string) : string :=
  if listed ["1"; "fr"; "france"] cleanInput then "fr"
  else if listed ["2"; "de"; "germany"] cleanInput then "de"
  else if listed ["3"; "kr"; "korea"; "south korea"] cleanInput then "kr"
  else if listed ["4"; "hr"; "croatia"] cleanInput then "hr"
  else if listed ["5"; "ch"; "switzerland"] cleanInput then "ch"
  else if listed ["6"; "sg"; "singapore"] cleanInput then "sg"
  else if listed ["7"; "us"; "usa"; "united states"] cleanInput then "us"
  else if listed ["8"; "ca"; "canada"] cleanInput then "ca"
  else if listed ["9"; "br"; "brazil"] cleanInput then "br"
  else if listed ["10"; "th"; "thai"; "thailand"] cleanInput then "th"
  else if listed ["11"; "id"; "indo"; "indonesia"] cleanInput then "id"
  else if listed ["12"; "jp"; "japan"] cleanInput then "jp"
  else if listed ["13"; "au"; "australia"] cleanInput then "au"
  else if listed ["14"; "it"; "italy"] cleanInput then "it"
  else if listed ["15"; "es"; "spain"] cleanInput then "es"
  else "fr".

Definition promptCountry (countryInput : string) : string :=
  country (toLowerCase (trim countryInput)).

End Codes.

(** The batch bot. *)
Module Names.

Definition proxies : list (string * string) :=
  [("france", "fr"); ("germany", "tw"); ("korea", "kr,de,fr");
   ("croatia", "hr"); ("switzerland", "ch"); ("singapore", "sg");
   ("usa", "us"); ("canada", "ca"); ("brazil", "br"); ("th", "th");
   ("india", "in"); ("japan", "jp"); ("australia", "au"); ("italy", "it");
   ("spain", "es")].

Definition countryNames : list (string * string) :=
  [("france", "France"); ("germany", "Germany"); ("korea", "South Korea");
   ("croatia", "Croatia"); ("switzerland", "Switzerland");
   ("singapore", "Singapore"); ("usa", "USA"); ("canada", "Canada");
   ("brazil", "Brazil"); ("thailand", "Thailand"); ("india", "India");
   ("japan", "Japan"); ("australia", "Australia"); ("italy", "Italy");
   ("spain", "Spain")].

Definition country (cleanInput : string) : string :=
  if listed ["1"; "fr"; "france"] cleanInput then "france"
  else if listed ["2"; "de"; "germany"] cleanInput then "germany"
  else if listed ["3"; "kr"; "korea"; "south korea"] cleanInput then "korea"
  else if listed ["4"; "hr"; "croatia"] cleanInput then "croatia"
  else if listed ["5"; "ch"; "switzerland"] cleanInput then "switzerland"
  else if listed ["6"; "sg"; "singapore"] cleanInput then "singapore"
  else if listed ["7"; "us"; "usa"; "united states"] cleanInput then "usa"
  else if listed ["8"; "ca"; "canada"] cleanInput then "canada"
  else if listed ["9"; "br"; "brazil"] cleanInput then "brazil"
  else if listed ["10"; "th"; "thai"; "thailand"] cleanInput then "th"
  else if listed ["11"; "in"; "india"] cleanInput then "india"
  else if listed ["12"; "jp"; "japan"] cleanInput then "japan"
  else if listed ["13"; "au"; "australia"] cleanInput then "australia"
  else if listed ["14"; "it"; "italy"] cleanInput then "italy"
  else if listed ["15"; "es"; "spain"] cleanInput then "spain"
  else "france".

Definition promptCountry (countryInput : string) : string :=
  country (toLowerCase (trim countryInput)).

End Names.

End Prompt.

(* ------------------------------------------------------------------ *)
(** ** The students file: [loadStudents] *)
(* ------------------------------------------------------------------ *)

Module Students.
Import Text Executor.

(** The environment variables behind [CONFIG]; [None] when unset. *)
Record env := {
  DEFAULT_BIRTHDATE : option string;
  DEFAULT_STATUS : option string;
  DEFAULT_MAJOR : option string
}.

(** [x || fallback] on a string that may be [undefined]: the empty string
    is falsy. *)
Definition or_else (x : option string) (fallback : string) : string :=
  match x with
  | Some s => if String.eqb s "" then fallback else s
  | None => fallback
  end.

Record config := {
  defaultBirthDate : string;
  defaultStatus : string;
  defaultMajor : string
}.

Definition CONFIG (e : env) : config :=
  {| defaultBirthDate := or_else (DEFAULT_BIRTHDATE e) "1991-01-01";
     defaultStatus := or_else (DEFAULT_STATUS e) "fulltime";
     defaultMajor := or_else (DEFAULT_MAJOR e) "accounting" |}.

(** [s.split(sep)] for a one-character separator. *)
Fixpoint split (sep : ascii) (s : string) : list string :=
  match s with
  | EmptyString => [""]
  | String c rest =>
      if Ascii.eqb c sep then "" :: split sep rest
      else
        match split sep rest with
        | piece :: pieces => String c piece :: pieces
        | [] => [String c ""]
        end
  end.

Record student := {
  school : string;
  firstName : string;
  lastName : string;
  email : string;
  birthDate : string;
  metadata : jsval
}.

Section Load.
Variable cfg : config.
(** [JSON.parse]; [None] when it throws. *)
Variable JSON_parse : string -> option jsval.

(** The callback of [.map] in [loadStudents]; [None] stands for [null]. *)
Definition parseLine (line : string) : option student :=
  let parts := map trim (split "|" line) in
  if (List.length parts <? 4)%nat then None
  else
    let school := nth 0 parts "" in
    let firstNameRaw := nth_error parts 1 in
    let lastNameRaw := nth_error parts 2 in
    let emailRaw := nth_error parts 3 in
    let birthDateRaw := nth_error parts 4 in
    let metadataRaw := nth_error parts 5 in
    let rest := skipn 6 parts in
    let firstName := or_else firstNameRaw "TEST" in
    let lastName := or_else lastNameRaw "USER" in
    let email :=
      toLowerCase
        (or_else emailRaw
           (toLowerCase firstName ++ "." ++ toLowerCase lastName
            ++ "@example.com")) in
    let birthDate := or_else birthDateRaw (defaultBirthDate cfg) in
    let defaults :=
      JObj [("status", JStr (defaultStatus cfg));
            ("major", JStr (defaultMajor cfg))] in
    let metadata :=
      match metadataRaw with
      | Some raw =>
          if String.eqb raw "" then defaults
          else
            match JSON_parse raw with
            | Some parsed => parsed
            | None =>
                JObj [("status", JStr (or_else metadataRaw (defaultStatus cfg)));
                      ("major",
                       JStr (or_else (nth_error rest 0) (defaultMajor cfg)))]
            end
      | None => defaults
      end in
    Some {| school := school; firstName := firstName; lastName := lastName;
            email := email; birthDate := birthDate; metadata := metadata |}.

(** [line.trim()] as a test. *)
Definition nonblank (line : string) : bool := negb (String.eqb (trim line) "").

(** [loadStudents]: [content] is what reading the students file yields. *)
Definition loadStudents (content : completion string) : list student :=
  match content with
  | Throw _ => []
  | Normal content =>
      omap parseLine (List.filter nonblank (split "010"%char content))
  end.

End Load.

(** A students file: a full line, a line with defaults, a short line and a
    blank one. *)
Definition sample_students : string :=
  "MIT | Ada | Lovelace | ADA@MIT.EDU | 1990-12-10 | parttime | physics"
  ++ String "010"%char "Yale|||"
  ++ String "010"%char "Yale|Bob|Stone"
  ++ String "010"%char "   ".

(** A line whose e-mail address is written in capitals, the first of them
    É (code unit 201). *)
Definition emile_line : string :=
  "Sorbonne|Emile|Zola|" ++ String (ascii_of_nat 201) "MILE@X.COM".

End Students.

(* ------------------------------------------------------------------ *)
(** ** One student: [processStudent] and its requests *)
(* ------------------------------------------------------------------ *)

Module Verification.
Import Text Colleges Executor Students.

(** What [processStudent] and [main] do to the outside world, printing
    apart. *)
Inductive action : Type :=
| GetVerification
| PostPersonalInfo (s : student) (organization : college)
| DeleteSso
| PostDocument (filePath : string)
| GetRedirect
| AppendFile (data : string)
| Wait (ms : N).

(** The answer to the redirect request: the [location] header of the
    response, or of the response attached to the error. *)
Inductive redirect_reply : Type :=
| Answered (location : option string)
| Refused (location : option string).

(** The collaborators.  [verification k] is what the [k]-th request for
    the verification yields: the [currentStep] of its data, or an error;
    likewise for the other requests. *)
Record service := {
  verification : nat -> completion (option string);
  personal_info : student -> college -> completion (option string);
  sso : completion (option string);
  document : string -> completion unit;
  redirect : redirect_reply;
  appendFileSync : string -> completion unit
}.

(** Computations over the actions so far. *)
Definition V (A : Type) : Type := list action -> A * list action.

#[global] Instance V_ret : MRet V := fun A a tr => (a, tr).
#[global] Instance V_bind : MBind V := fun A B k m tr =>
  let '(a, tr') := m tr in k a tr'.

Definition act (a : action) : V unit := fun tr => (tt, (tr ++ [a])%list).

Definition is_GetVerification (a : action) : bool :=
  match a with GetVerification => true | _ => false end.
Definition is_PostPersonalInfo (a : action) : bool :=
  match a with PostPersonalInfo _ _ => true | _ => false end.
Definition is_DeleteSso (a : action) : bool :=
  match a with DeleteSso => true | _ => false end.
Definition is_PostDocument (a : action) : bool :=
  match a with PostDocument _ => true | _ => false end.
Definition is_GetRedirect (a : action) : bool :=
  match a with GetRedirect => true | _ => false end.
Definition is_AppendFile (a : action) : bool :=
  match a with AppendFile _ => true | _ => false end.

Definition count (p : action -> bool) (tr : list action) : nat :=
  List.length (List.filter p tr).

Definition waited (tr : list action) : N :=
  fold_right (fun a ms => match a with Wait d => (d + ms)%N | _ => ms end)
    0%N tr.

(** [{ success, currentStep }]. *)
Record outcome := { success : bool; currentStep : option string }.

Definition failure : outcome := {| success := false; currentStep := None |}.

(** [step === name]. *)
Definition at_step (step : option string) (name : string) : bool :=
  match step with Some s => String.eqb s name | None => false end.

Section Process.
Variable svc : service.

Definition request_verification : V (completion (option string)) :=
  fun tr =>
    (verification svc (S (count is_GetVerification tr)),
     (tr ++ [GetVerification])%list).

(** [getVerificationDetails]: the data is only printed. *)
Definition getVerificationDetails : V unit :=
  request_verification;; mret tt.

Definition checkStatus : V outcome :=
  reply ← request_verification;
  match reply with
  | Normal step => mret {| success := true; currentStep := step |}
  | Throw _ => mret failure
  end.

Definition submitPersonalInfo (s : student) (c : college) : V outcome :=
  act (PostPersonalInfo s c);;
  match personal_info svc s c with
  | Normal step => mret {| success := true; currentStep := step |}
  | Throw _ => mret failure
  end.

Definition cancelSso : V outcome :=
  act DeleteSso;;
  match sso svc with
  | Normal step => mret {| success := true; currentStep := step |}
  | Throw _ => mret failure
  end.

Definition uploadDocument (filePath : string) : V bool :=
  act (PostDocument filePath);;
  match document svc filePath with
  | Normal _ => mret true
  | Throw _ => mret false
  end.

(** The [location] header, when it is there and not empty. *)
Definition located (location : option string) : option string :=
  match location with
  | Some url => if String.eqb url "" then None else Some url
  | None => None
  end.

(** [getgoogleUrl]: [Some url] stands for [{ success: true, url }]. *)
Definition getgoogleUrl : V (option string) :=
  act GetRedirect;;
  match redirect svc with
  | Answered location => mret (located location)
  | Refused location => mret (located location)
  end.

(** [saveResult]: a failed write is caught and only reported. *)
Definition saveResult (url : string) : V unit :=
  let data := url ++ String "010"%char "" in
  act (AppendFile data);;
  match appendFileSync svc data with
  | Normal _ => mret tt
  | Throw _ => mret tt
  end.

(** [processStudent]; [None] stands for [null].  The three early
    [return null] of the function body are the [None] branches. *)
Definition processStudent (s : student) (collegesMap : colleges_map)
    : V (option string) :=
  getVerificationDetails;;
  match findCollegeByName collegesMap (Some (school s)) with
  | None => mret None
  | Some college =>
      check ← checkStatus;
      if negb (success check) then mret None
      else
        submitted ←
          (if at_step (currentStep check) "collectStudentPersonalInfo" then
             submitResult ← submitPersonalInfo s college;
             if negb (success submitResult) then mret false
             else act (Wait 3000);; checkStatus;; mret true
           else mret true);
        if negb submitted then mret None
        else
          status ← checkStatus;
          if negb (success status) then mret None
          else
            step ←
              (if at_step (currentStep status) "sso" then
                 ssoResult ← cancelSso;
                 if success ssoResult then
                   act (Wait 2000);;
                   newStatus ← checkStatus;
                   mret (if success newStatus then currentStep newStatus
                         else currentStep ssoResult)
                 else mret (currentStep status)
               else mret (currentStep status));
            if at_step step "docUpload" then mret None
            else if at_step step "success" then
              googleResult ← getgoogleUrl;
              match googleResult with
              | Some url => saveResult url;; mret (Some url)
              | None => mret None
              end
            else mret None
  end.

(** The loop of [main] over the students; the result lists what
    [processStudent] returned for each.  The pause is skipped after the
    last student: [loadStudents] builds one object per line, so
    [students.indexOf(student)] is the position of [student]. *)
Fixpoint processEach (collegesMap : colleges_map) (students : list student)
    : V (list (option string)) :=
  match students with
  | [] => mret []
  | s :: rest =>
      result ← processStudent s collegesMap;
      (match rest with
       | [] => mret tt
       | _ :: _ => act (Wait 2000)
       end);;
      results ← processEach collegesMap rest;
      mret (result :: results)
  end.

(** The actions of a run of the loop, given those of each student: a pause
    of two seconds between two students, none after the last. *)
Fixpoint joined (segments : list (list action)) : list action :=
  match segments with
  | [] => []
  | segment :: rest =>
      match rest with
      | [] => segment
      | _ :: _ => (segment ++ [Wait 2000] ++ joined rest)%list
      end
  end.

(** The actions of the loop before it turns to the student at position
    [i]. *)
Definition before (i : nat) (segments : list (list action)) : list action :=
  (joined (take i segments)
   ++ match i with O => [] | S _ => [Wait 2000] end)%list.

(** [main], given the answer to the prompt (trimmed) and what
    [loadColleges] and [loadStudents] returned. *)
Definition main (verificationId : string) (collegesMap : colleges_map)
    (students : list student) : V (list (option string)) :=
  if String.eqb verificationId "" then mret []
  else if (List.length collegesMap =? 0)%nat then mret []
  else if (List.length students =? 0)%nat then mret []
  else processEach collegesMap students.

End Process.

(** The URLs among the results. *)
Definition urls (results : list (option string)) : list string :=
  omap (fun r => r) results.

(** A service on which the verification is at its first step, then (after
    the form is submitted) behind single sign-on, and verified once that is
    cancelled. *)
Definition sample_service : service :=
  {| verification := fun k =>
       if (k <=? 2)%nat then Normal (Some "collectStudentPersonalInfo")
       else if (k <=? 4)%nat then Normal (Some "sso")
       else Normal (Some "success");
     personal_info := fun _ _ => Normal (Some "sso");
     sso := Normal (Some "pending");
     document := fun _ => Normal tt;
     redirect := Refused (Some "https://example.com/offer");
     appendFileSync := fun _ => Normal tt |}.

Definition ada : student :=
  {| school := "University of Texas"; firstName := "Ada";
     lastName := "Lovelace"; email := "ada@example.com";
     birthDate := "1990-12-10"; metadata := JNull |}.

End Verification.

(* ================================================================== *)
(** * Properties                                                       *)
(* ================================================================== *)

Module TargetHexFacts.
Import TargetHex.

Lemma latin1_not_surrogate (u : code_unit) :
  (u <= 0xFF)%N → is_high_surrogate u = false.
Proof.
  intros Hu. unfold is_high_surrogate.
  apply andb_false_intro1. apply N.leb_gt. lia.
Qed.

Lemma charCodes_latin1 (input : js_string) :
  latin1 input → charCodes input = input.
Proof.
  induction 1 as [|u rest Hu Hrest IH]; [reflexivity|].
  destruct rest as [|v rest']; [reflexivity|].
  change (charCodes (u :: v :: rest'))
    with (if is_high_surrogate u && is_low_surrogate v
          then u :: charCodes rest' else u :: charCodes (v :: rest')).
  rewrite (latin1_not_surrogate u Hu). cbn [andb].
  now rewrite IH.
Qed.

Lemma append_String (c : ascii) (s t : string) :
  String c s ++ t = String c (s ++ t).
Proof. reflexivity. Qed.

Lemma append_empty_l (s : string) : "" ++ s = s.
Proof. reflexivity. Qed.

Lemma append_empty_r (s : string) : s ++ "" = s.
Proof.
  induction s as [|c s IH]; [reflexivity|].
  now rewrite append_String, IH.
Qed.

Lemma append_assoc (s1 s2 s3 : string) : (s1 ++ s2) ++ s3 = s1 ++ (s2 ++ s3).
Proof.
  induction s1 as [|c s1 IH]; [reflexivity|].
  now rewrite !append_String, IH.
Qed.

Lemma fold_encrypt_app (units : list code_unit) (acc : string) :
  fold_left (fun hexResult u => hexResult ++ encryptChar u) units acc
  = acc ++ fold_left (fun hexResult u => hexResult ++ encryptChar u) units "".
Proof.
  revert acc. induction units as [|u units IH]; intros acc; simpl.
  - symmetry. apply append_empty_r.
  - rewrite IH. rewrite (IH ("" ++ encryptChar u)).
    now rewrite append_empty_l, append_assoc.
Qed.

Lemma encrypt_cons_latin1 (u : code_unit) (rest : js_string) :
  latin1 (u :: rest) →
  encryptToTargetHex (u :: rest) = encryptChar u ++ encryptToTargetHex rest.
Proof.
  intros H. unfold encryptToTargetHex.
  rewrite (charCodes_latin1 _ H).
  inversion H as [|? ? _ Hrest]; subst.
  rewrite (charCodes_latin1 _ Hrest). simpl.
  apply fold_encrypt_app.
Qed.

Lemma two_digits_all :
  forallb two_digits_ok (List.map N.of_nat (seq 0 256)) = true.
Proof. vm_compute. reflexivity. Qed.

Lemma two_digits (u : code_unit) :
  (u <= 0xFF)%N →
  ∃ a b x y, encryptChar u = String a (String b EmptyString)
             ∧ hex_value a = Some x ∧ hex_value b = Some y
             ∧ N.lxor (16 * x + y) 0x05 = u.
Proof.
  intros Hu.
  assert (Hin : In u (List.map N.of_nat (seq 0 256))).
  { apply in_map_iff. exists (N.to_nat u). split; [lia|].
    apply in_seq. lia. }
  pose proof (proj1 (forallb_forall _ _) two_digits_all u Hin) as Hok.
  unfold two_digits_ok in Hok.
  destruct (encryptChar u) as [|a [|b [|? ?]]]; try discriminate.
  destruct (hex_value a) as [x|] eqn:Ha; try discriminate.
  destruct (hex_value b) as [y|] eqn:Hb; try discriminate.
  exists a, b, x, y.
  split; [reflexivity|]. split; [exact Ha|]. split; [exact Hb|].
  now apply N.eqb_eq.
Qed.

Lemma encrypt_length (input : js_string) :
  latin1 input → String.length (encryptToTargetHex input) = 2 * List.length input.
Proof.
  induction input as [|u rest IH]; intros H; [reflexivity|].
  rewrite (encrypt_cons_latin1 _ _ H).
  inversion H as [|? ? Hu Hrest]; subst.
  destruct (two_digits u Hu) as (a & b & x & y & -> & _).
  rewrite !append_String, append_empty_l. cbn [String.length].
  rewrite (IH Hrest). cbn [List.length]. lia.
Qed.

Lemma decode_encrypt (input : js_string) :
  latin1 input → decodeTargetHex (encryptToTargetHex input) = Some input.
Proof.
  induction input as [|u rest IH]; intros H; [reflexivity|].
  rewrite (encrypt_cons_latin1 _ _ H).
  inversion H as [|? ? Hu Hrest]; subst.
  destruct (two_digits u Hu) as (a & b & x & y & -> & Ha & Hb & Hx).
  rewrite !append_String, append_empty_l. cbn [decodeTargetHex].
  rewrite Ha, Hb, (IH Hrest). now rewrite Hx.
Qed.

(** C9. On a string whose code units are all at most 0xFF,
    [encryptToTargetHex] yields exactly two hex digits per character,
    reading the digits back two by two and XOR-ing with 0x05 gives the
    string again, and so two such strings with the same output are equal. *)
Theorem encryptToTargetHex_latin1 (input : js_string) :
  latin1 input →
  String.length (encryptToTargetHex input) = 2 * List.length input
  ∧ decodeTargetHex (encryptToTargetHex input) = Some input
  ∧ ∀ other, latin1 other →
      encryptToTargetHex other = encryptToTargetHex input → other = input.
Proof.
  intros H. split; [now apply encrypt_length|].
  split; [now apply decode_encrypt|].
  intros other Hother Heq.
  pose proof (decode_encrypt other Hother) as Ho.
  rewrite Heq, (decode_encrypt input H) in Ho. congruence.
Qed.

Lemma encryptToTargetHex_latin1_witness :
  latin1 [97; 64; 98]%N
  ∧ String.length (encryptToTargetHex [97; 64; 98]%N) = 6
  ∧ decodeTargetHex (encryptToTargetHex [97; 64; 98]%N) = Some [97; 64; 98]%N.
Proof.
  assert (H : latin1 [97; 64; 98]%N).
  { unfold latin1. repeat constructor; lia. }
  split; [exact H|].
  split; [exact (proj1 (encryptToTargetHex_latin1 _ H))|].
  exact (proj1 (proj2 (encryptToTargetHex_latin1 _ H))).
Defined.

(** Above 0xFF the two-digit shape is lost: the hypothesis is needed. *)
Lemma encryptToTargetHex_wide :
  encryptToTargetHex [0x100]%N = "105".
Proof. reflexivity. Qed.

End TargetHexFacts.

Module CollegesFacts.
Import Text Colleges.

Lemma scan_finds_exact (target : string) (colleges : list college) :
  ∀ partialMatch,
    (∃ c, c ∈ colleges ∧ normalizeName (college_name c) = target) →
    ∃ c, scanColleges target partialMatch colleges = Some c
         ∧ c ∈ colleges ∧ normalizeName (college_name c) = target.
Proof.
  induction colleges as [|college rest IH]; intros partialMatch (c & Hin & Hc).
  - inversion Hin.
  - simpl.
    destruct (String.eqb (normalizeName (college_name college)) target) eqn:E.
    + apply String.eqb_eq in E. exists college.
      split; [reflexivity|]. split; [left|exact E].
    + apply elem_of_cons in Hin as [->|Hin].
      * apply String.eqb_neq in E. contradiction.
      * edestruct IH as (c' & Hscan & Hin' & Hc'); [now exists c|].
        exists c'. split; [exact Hscan|]. split; [now right|exact Hc'].
Qed.

(** C10. With an empty normalized school name the result is [null];
    otherwise, as soon as some college of the map has exactly that
    normalized name, the result is a college with exactly that normalized
    name, wherever a partial match stands in the iteration order. *)
Theorem findCollegeByName_prefers_exact (collegesMap : colleges_map)
    (schoolName : option string) :
  (normalizeName schoolName = "" →
   findCollegeByName collegesMap schoolName = None)
  ∧ (normalizeName schoolName ≠ "" →
     (∃ c, c ∈ map_values collegesMap
           ∧ normalizeName (college_name c) = normalizeName schoolName) →
     ∃ c, findCollegeByName collegesMap schoolName = Some c
          ∧ c ∈ map_values collegesMap
          ∧ normalizeName (college_name c) = normalizeName schoolName).
Proof.
  unfold findCollegeByName. split.
  - intros ->. reflexivity.
  - intros Hne Hex.
    destruct (String.eqb (normalizeName schoolName) "") eqn:E.
    + apply String.eqb_eq in E. contradiction.
    + now apply scan_finds_exact.
Qed.

Lemma findCollegeByName_prefers_exact_witness :
  ∃ c, findCollegeByName texas_colleges (Some "university of TEXAS") = Some c
       ∧ c ∈ map_values texas_colleges
       ∧ normalizeName (college_name c)
         = normalizeName (Some "university of TEXAS").
Proof.
  apply (proj2 (findCollegeByName_prefers_exact texas_colleges
                  (Some "university of TEXAS"))).
  - vm_compute. discriminate.
  - exists {| college_id := 2;
              college_name := Some "University of Texas (System)" |}.
    split; [|vm_compute; reflexivity].
    vm_compute. right. left.
Defined.

(** The partial match that comes first in the map is passed over. *)
Lemma findCollegeByName_texas :
  findCollegeByName texas_colleges (Some "university of TEXAS")
  = Some {| college_id := 2;
            college_name := Some "University of Texas (System)" |}.
Proof. vm_compute. reflexivity. Qed.

End CollegesFacts.

Module ExecutorFacts.
Import Text TargetHex Executor.
Local Open Scope nat_scope.
Local Open Scope list_scope.

Create HintDb quiet.

Ltac run_monad :=
  unfold mbind, M_bind, mret, M_ret, console, emit, lift, throw, try_catch,
    probes_so_far in *.

(** *** Counting effects *)

Lemma probe_calls_app (tr tr' : list effect) :
  probe_calls (tr ++ tr') = probe_calls tr + probe_calls tr'.
Proof. unfold probe_calls. now rewrite List.filter_app, List.length_app. Qed.

Lemma verify_calls_app (tr tr' : list effect) :
  verify_calls (tr ++ tr') = verify_calls tr + verify_calls tr'.
Proof. unfold verify_calls. now rewrite List.filter_app, List.length_app. Qed.

Lemma file_writes_app (tr tr' : list effect) :
  file_writes (tr ++ tr') = file_writes tr + file_writes tr'.
Proof. unfold file_writes. now rewrite List.filter_app, List.length_app. Qed.

Lemma quiet_nil : quiet [].
Proof. split; reflexivity. Qed.

Lemma quiet_app (d d' : list effect) : quiet d → quiet d' → quiet (d ++ d').
Proof.
  intros [Hv Hf] [Hv' Hf']. split.
  - rewrite verify_calls_app. lia.
  - rewrite file_writes_app. lia.
Qed.

Lemma quiet_console (l : console_line) : quiet [Console l].
Proof. split; reflexivity. Qed.

Lemma quiet_sleep (ms : N) : quiet [Sleep ms].
Proof. split; reflexivity. Qed.

Lemma quiet_getlink (email domain : string) : quiet [GetLink email domain].
Proof. split; reflexivity. Qed.

#[local] Hint Resolve quiet_nil quiet_app quiet_console quiet_sleep
  quiet_getlink : quiet.

Section Facts.
Variable w : world.
Variable policy : poll_policy.

(** *** The probe *)

(** One call of [functionGetLink] is one lookup; it never throws. *)
Lemma functionGetLink_run (email domain : string) (tr : list effect) :
  ∃ delta,
    functionGetLink w email domain tr
    = Some (Normal (probe_result w (S (probe_calls tr)) email domain),
            tr ++ delta)
    ∧ probe_calls delta = 1 ∧ quiet delta.
Proof.
  unfold functionGetLink, probe_result. run_monad.
  rewrite probe_calls_app. cbn [probe_calls List.filter is_GetLink List.length].
  replace (probe_calls tr + 1) with (S (probe_calls tr)) by lia.
  destruct (inbox_span w (S (probe_calls tr)) email domain) as [src|err].
  - exists [GetLink email domain].
    split; [reflexivity|]. split; [reflexivity|auto with quiet].
  - exists [GetLink email domain; Console (LogFetchCodeError (error_message err))].
    rewrite <- app_assoc.
    split; [reflexivity|]. split; [reflexivity|split; reflexivity].
Qed.

(** *** One turn of the poll loop *)

Lemma pollLoop_found (fuel : nat) (email domain code : string) (attempts : nat)
    (tr : list effect) :
  probe_result w (S (probe_calls tr)) email domain = Some code →
  code ≠ "" →
  ∃ delta,
    pollLoop w policy fuel email domain attempts tr
    = Some (Normal (Some code, attempts), tr ++ delta)
    ∧ probe_calls delta = 1 ∧ quiet delta.
Proof.
  intros Hres Hcode.
  destruct (functionGetLink_run email domain tr) as (delta & Hrun & Hn & Hq).
  rewrite Hres in Hrun.
  assert (Hnc : no_code (Some code) = false).
  { cbn. now apply String.eqb_neq. }
  exists delta. split; [|now split].
  destruct fuel; cbn [pollLoop]; unfold mbind at 1, M_bind;
    rewrite Hrun; rewrite Hnc; reflexivity.
Qed.

Lemma pollLoop_empty (fuel : nat) (email domain : string) (attempts : nat)
    (tr : list effect) :
  no_code (probe_result w (S (probe_calls tr)) email domain) = true →
  ∃ delta,
    probe_calls delta = 1 ∧ quiet delta
    ∧ pollLoop w policy fuel email domain attempts tr
      = if S attempts <? maxPollAttempts policy
        then match fuel with
             | O => None
             | S fuel' => pollLoop w policy fuel' email domain (S attempts)
                            (tr ++ delta)
             end
        else Some (Normal (probe_result w (S (probe_calls tr)) email domain,
                           S attempts), tr ++ delta).
Proof.
  intros Hnc.
  destruct (functionGetLink_run email domain tr) as (delta & Hrun & Hn & Hq).
  set (pause := if waitAfterLast policy || (S attempts <? maxPollAttempts policy)
                then [Sleep (pollIntervalMs policy)] else []).
  exists (delta ++ Console (LogNoCodeYet (S attempts) (maxPollAttempts policy))
                :: pause).
  assert (Hpq : quiet pause ∧ probe_calls pause = 0).
  { unfold pause. destruct (_ || _); split; auto with quiet. }
  destruct Hpq as [Hpq Hpn].
  split.
  { rewrite probe_calls_app, Hn.
    change (Console ?l :: pause) with ([Console l] ++ pause).
    rewrite probe_calls_app, Hpn. reflexivity. }
  split.
  { apply quiet_app; [exact Hq|].
    change (Console ?l :: pause) with ([Console l] ++ pause).
    auto with quiet. }
  assert (Hstep : ∀ (k : option string * nat → M (option string * nat)),
    (verificationCode ← functionGetLink w email domain;
     attempts' ←
       (if no_code verificationCode then
          let attempts' := S attempts in
          console (LogNoCodeYet attempts' (maxPollAttempts policy));;
          (if waitAfterLast policy || (attempts' <? maxPollAttempts policy)
           then emit (Sleep (pollIntervalMs policy)) else mret tt);;
          mret attempts'
        else mret attempts);
     k (verificationCode, attempts')) tr
    = k (probe_result w (S (probe_calls tr)) email domain, S attempts)
        (tr ++ delta ++ Console (LogNoCodeYet (S attempts) (maxPollAttempts policy))
            :: pause)).
  { intros k. unfold mbind at 1, M_bind. rewrite Hrun, Hnc.
    unfold pause. run_monad.
    destruct (waitAfterLast policy || (S attempts <? maxPollAttempts policy));
      rewrite <- ?app_assoc; reflexivity. }
  destruct fuel; cbn [pollLoop].
  - rewrite (Hstep (fun '(verificationCode, attempts') =>
      if no_code verificationCode && (attempts' <? maxPollAttempts policy)
      then out_of_fuel else mret (verificationCode, attempts'))).
    rewrite Hnc. cbn [andb]. destruct (S attempts <? _); reflexivity.
  - rewrite (Hstep (fun '(verificationCode, attempts') =>
      if no_code verificationCode && (attempts' <? maxPollAttempts policy)
      then pollLoop w policy fuel email domain attempts'
      else mret (verificationCode, attempts'))).
    rewrite Hnc. cbn [andb]. destruct (S attempts <? _); reflexivity.
Qed.

(** *** The whole poll loop *)

Lemma pollLoop_success (email domain code : string) (j : nat) :
  ∀ fuel attempts tr,
    (∀ k, probe_calls tr < k <= probe_calls tr + j →
          no_code (probe_result w k email domain) = true) →
    probe_result w (probe_calls tr + j + 1) email domain = Some code →
    code ≠ "" →
    attempts + j < maxPollAttempts policy → j <= fuel →
    ∃ delta,
      pollLoop w policy fuel email domain attempts tr
      = Some (Normal (Some code, attempts + j), tr ++ delta)
      ∧ probe_calls delta = j + 1 ∧ quiet delta.
Proof.
  induction j as [|j IH]; intros fuel attempts tr Hempty Hcode Hne Hlt Hfuel.
  - replace (probe_calls tr + 0 + 1) with (S (probe_calls tr)) in Hcode by lia.
    destruct (pollLoop_found fuel email domain code attempts tr Hcode Hne)
      as (delta & Hrun & Hn & Hq).
    exists delta. rewrite Nat.add_0_r. auto.
  - destruct (pollLoop_empty fuel email domain attempts tr)
      as (delta & Hn & Hq & Hrun).
    { apply Hempty. lia. }
    destruct fuel as [|fuel]; [lia|].
    assert (Hcont : (S attempts <? maxPollAttempts policy) = true)
      by (apply Nat.ltb_lt; lia).
    rewrite Hcont in Hrun.
    destruct (IH fuel (S attempts) (tr ++ delta)) as (delta' & Hrun' & Hn' & Hq').
    + intros k Hk. rewrite probe_calls_app, Hn in Hk. apply Hempty. lia.
    + rewrite probe_calls_app, Hn.
      replace (probe_calls tr + 1 + j + 1) with (probe_calls tr + S j + 1) by lia.
      exact Hcode.
    + exact Hne.
    + lia.
    + lia.
    + exists (delta ++ delta'). rewrite Hrun, Hrun', app_assoc.
      replace (S attempts + j) with (attempts + S j) by lia.
      split; [reflexivity|]. split; [|auto with quiet].
      rewrite probe_calls_app. lia.
Qed.

Lemma pollLoop_timeout (email domain : string) (r : nat) :
  ∀ fuel attempts tr,
    (∀ k, probe_calls tr < k <= probe_calls tr + S r →
          no_code (probe_result w k email domain) = true) →
    attempts + S r = maxPollAttempts policy → r <= fuel →
    ∃ code delta,
      pollLoop w policy fuel email domain attempts tr
      = Some (Normal (code, maxPollAttempts policy), tr ++ delta)
      ∧ no_code code = true ∧ probe_calls delta = S r ∧ quiet delta.
Proof.
  induction r as [|r IH]; intros fuel attempts tr Hempty Hmax Hfuel.
  - destruct (pollLoop_empty fuel email domain attempts tr)
      as (delta & Hn & Hq & Hrun).
    { apply Hempty. lia. }
    assert (Hstop : (S attempts <? maxPollAttempts policy) = false)
      by (apply Nat.ltb_ge; lia).
    rewrite Hstop in Hrun.
    exists (probe_result w (S (probe_calls tr)) email domain), delta.
    replace (maxPollAttempts policy) with (S attempts) by lia.
    split; [exact Hrun|]. split; [apply Hempty; lia|auto].
  - destruct (pollLoop_empty fuel email domain attempts tr)
      as (delta & Hn & Hq & Hrun).
    { apply Hempty. lia. }
    destruct fuel as [|fuel]; [lia|].
    assert (Hcont : (S attempts <? maxPollAttempts policy) = true)
      by (apply Nat.ltb_lt; lia).
    rewrite Hcont in Hrun.
    destruct (IH fuel (S attempts) (tr ++ delta))
      as (code & delta' & Hrun' & Hnc & Hn' & Hq').
    + intros k Hk. rewrite probe_calls_app, Hn in Hk. apply Hempty. lia.
    + lia.
    + lia.
    + exists code, (delta ++ delta'). rewrite Hrun, Hrun', app_assoc.
      split; [reflexivity|]. split; [exact Hnc|].
      split; [|auto with quiet]. rewrite probe_calls_app. lia.
Qed.

(** The loop ends normally on the fuel [poll] gives it. *)
Lemma pollLoop_total (email domain : string) (fuel : nat) :
  ∀ attempts tr,
    maxPollAttempts policy - attempts <= S fuel →
    ∃ code attempts' delta,
      pollLoop w policy fuel email domain attempts tr
      = Some (Normal (code, attempts'), tr ++ delta) ∧ quiet delta.
Proof.
  induction fuel as [|fuel IH]; intros attempts tr Hfuel.
  - destruct (no_code (probe_result w (S (probe_calls tr)) email domain)) eqn:E.
    + destruct (pollLoop_empty 0 email domain attempts tr E)
        as (delta & Hn & Hq & Hrun).
      assert (Hstop : (S attempts <? maxPollAttempts policy) = false)
        by (apply Nat.ltb_ge; lia).
      rewrite Hstop in Hrun. eauto 6.
    + destruct (probe_result w (S (probe_calls tr)) email domain)
        as [code|] eqn:Hres; [|discriminate].
      apply String.eqb_neq in E.
      destruct (pollLoop_found 0 email domain code attempts tr Hres E)
        as (delta & Hrun & Hn & Hq). eauto 6.
  - destruct (no_code (probe_result w (S (probe_calls tr)) email domain)) eqn:E.
    + destruct (pollLoop_empty (S fuel) email domain attempts tr E)
        as (delta & Hn & Hq & Hrun).
      destruct (S attempts <? maxPollAttempts policy) eqn:Hcont.
      * destruct (IH (S attempts) (tr ++ delta))
          as (code & attempts' & delta' & Hrun' & Hq'); [lia|].
        exists code, attempts', (delta ++ delta').
        rewrite Hrun, Hrun', app_assoc. auto with quiet.
      * eauto 6.
    + destruct (probe_result w (S (probe_calls tr)) email domain)
        as [code|] eqn:Hres; [|discriminate].
      apply String.eqb_neq in E.
      destruct (pollLoop_found (S fuel) email domain code attempts tr Hres E)
        as (delta & Hrun & Hn & Hq). eauto 6.
Qed.

Lemma poll_total (email domain : string) (tr : list effect) :
  ∃ code attempts delta,
    poll w policy email domain tr = Some (Normal (code, attempts), tr ++ delta)
    ∧ quiet delta.
Proof. apply pollLoop_total. lia. Qed.

(** *** The requests *)

Ltac close_run :=
  rewrite <- ?app_assoc;
  do 2 eexists; split; [reflexivity|]; repeat split; reflexivity.

Lemma regist_sendRequest_total (e p : string) (tr : list effect) :
  ∃ v delta,
    regist_sendRequest w e p tr = Some (Normal v, tr ++ delta)
    ∧ probe_calls delta = 0 ∧ quiet delta.
Proof.
  unfold regist_sendRequest, read_response. run_monad.
  destruct (fetch_send_code w e p) as [r|err]; [|close_run].
  destruct (resp_ok r); cbn [negb]; [|close_run].
  destruct (resp_text r) as [text|err]; [|close_run].
  destruct (String.eqb (trim text) ""); [close_run|].
  destruct (JSON_parse w text); close_run.
Qed.

Lemma regist_sendRequest_fails (e p : string) (tr : list effect) :
  register_fails w e p →
  ∃ v delta,
    regist_sendRequest w e p tr = Some (Normal v, tr ++ delta)
    ∧ is_success v = false ∧ probe_calls delta = 0 ∧ quiet delta.
Proof.
  unfold regist_sendRequest, read_response. run_monad.
  intros [err Hf|r Hf Hok|r err Hf Hok Ht|r text Hf Hok Ht Hb
         |r text Hf Hok Ht Hb Hp|r text data Hf Hok Ht Hb Hp Hs];
    rewrite Hf; try rewrite Hok; cbn [negb]; try rewrite Ht.
  - close_run.
  - close_run.
  - close_run.
  - rewrite Hb. cbn. close_run.
  - apply String.eqb_neq in Hb. rewrite Hb, Hp. close_run.
  - apply String.eqb_neq in Hb. rewrite Hb, Hp.
    exists data, [SendCode e p]. repeat split; try reflexivity; exact Hs.
Qed.

(** The error objects the requests build never count as a success. *)
Lemma error_result_is_failure (msg : string) :
  is_success (error_result msg) = false.
Proof. reflexivity. Qed.

Lemma regist_sendRequest_succeeds (e p : string) (tr : list effect) :
  register_succeeds w e p →
  ∃ v,
    regist_sendRequest w e p tr = Some (Normal v, tr ++ [SendCode e p])
    ∧ is_success v = true.
Proof.
  unfold regist_sendRequest, read_response. run_monad.
  intros (r & text & data & Hf & Hok & Ht & Hb & Hp & Hs).
  apply String.eqb_neq in Hb.
  rewrite Hf, Hok. cbn [negb]. rewrite Ht, Hb, Hp.
  exists data. split; [reflexivity|exact Hs].
Qed.

Lemma verify_sendRequest_total (e p c : string) (tr : list effect) :
  ∃ v tr', verify_sendRequest w e p c tr = Some (Normal v, tr').
Proof.
  unfold verify_sendRequest, read_response. run_monad.
  destruct (faker_birthdate w) as [date|err]; [|eauto].
  destruct (fetch_verify_login w e c p date) as [r|err]; [|eauto].
  destruct (resp_ok r); cbn [negb]; [|eauto].
  destruct (resp_text r) as [text|err]; [|eauto].
  destruct (String.eqb (trim text) ""); [eauto|].
  destruct (JSON_parse w text); eauto.
Qed.

Lemma saveToFile_total (filename data : string) (tr : list effect) :
  ∃ tr', saveToFile w filename data tr = Some (Normal tt, tr').
Proof.
  unfold saveToFile. run_monad.
  destruct (fs_writeFile w filename data) as [[]|err]; eauto.
Qed.

(** *** The whole attempt *)

Lemma createAccount_total (index total : nat) (availableDomains : list string)
    (password : option string) (tr0 : list effect) :
  ∃ b tr,
    createAccount w policy index total availableDomains password tr0
    = Some (Normal b, tr).
Proof.
  unfold createAccount, encryptPassword. run_monad.
  destruct (faker_username w) as [raw|err]; [|eauto].
  destruct password as [p|]; [|eauto].
  match goal with |- context [regist_sendRequest w ?e ?q ?t] =>
    destruct (regist_sendRequest_total e q t) as (v & delta & -> & _) end.
  destruct (is_success v); cbn [negb].
  2:{ destruct (has_error v); eauto. }
  match goal with |- context [poll w policy ?e ?d ?t] =>
    destruct (poll_total e d t) as (code & attempts & delta' & -> & _) end.
  destruct code as [code|]; [|eauto].
  destruct (String.eqb code ""); [eauto|].
  match goal with |- context [verify_sendRequest w ?e ?q ?c ?t] =>
    destruct (verify_sendRequest_total e q c t) as (v' & tr' & ->) end.
  destruct (is_success v').
  - match goal with |- context [saveToFile w ?f ?d ?t] =>
      destruct (saveToFile_total f d t) as (tr'' & ->) end.
    eauto.
  - destruct (has_error v'); eauto.
Qed.

(** A failed registration ends the attempt before any lookup. *)
Lemma createAccount_register_fails (index total : nat)
    (availableDomains : list string) (raw p : string) (tr0 : list effect) :
  faker_username w = Normal raw →
  register_fails w (encryptString (address w availableDomains raw))
    (encryptString p) →
  ∃ delta,
    createAccount w policy index total availableDomains (Some p) tr0
    = Some (Normal false, tr0 ++ delta)
    ∧ probe_calls delta = 0 ∧ quiet delta.
Proof.
  intros Hraw Hfail.
  unfold createAccount, encryptPassword, address in *. run_monad.
  rewrite Hraw.
  match goal with |- context [regist_sendRequest w ?e ?q ?t] =>
    destruct (regist_sendRequest_fails e q t Hfail)
      as (v & delta & -> & -> & Hn & Hq) end.
  cbn [negb].
  destruct (has_error v); rewrite <- !app_assoc; eexists;
    (split; [reflexivity|]);
    (split; [rewrite !probe_calls_app, Hn; reflexivity|]);
    repeat apply quiet_app; auto with quiet.
Qed.

(** After a successful registration, a poll loop that never sees a code
    ends the attempt with [false]. *)
Lemma createAccount_poll_exhausted (index total : nat)
    (availableDomains : list string) (raw p : string) :
  1 <= maxPollAttempts policy →
  faker_username w = Normal raw →
  register_succeeds w (encryptString (address w availableDomains raw))
    (encryptString p) →
  (∀ k, 1 <= k <= maxPollAttempts policy →
        no_code (probe_result w k (beforeAt (address w availableDomains raw))
                   (secondPiece (address w availableDomains raw))) = true) →
  ∃ tr,
    createAccount w policy index total availableDomains (Some p) []
    = Some (Normal false,
            tr ++ [Console (LogNoCodeAfter (maxPollAttempts policy))])
    ∧ probe_calls tr = maxPollAttempts policy ∧ quiet tr.
Proof.
  intros Hmax Hraw Hreg Hempty.
  unfold createAccount, encryptPassword, address in *. run_monad.
  rewrite Hraw.
  match goal with |- context [regist_sendRequest w ?e ?q ?t] =>
    destruct (regist_sendRequest_succeeds e q t Hreg) as (v & -> & ->) end.
  cbn [negb].
  match goal with |- context [poll w policy ?e ?d ?t] =>
    destruct (pollLoop_timeout e d (maxPollAttempts policy - 1)
                (maxPollAttempts policy) 0 t)
      as (code & delta & Hrun & Hnc & Hn & Hq) end.
  { intros k Hk. apply Hempty. cbn in Hk. lia. }
  { lia. }
  { lia. }
  unfold poll. rewrite Hrun.
  assert (Hcount : ∀ d, probe_calls d = 0 →
            probe_calls (d ++ delta) = maxPollAttempts policy).
  { intros d Hd. rewrite probe_calls_app, Hd, Hn. lia. }
  destruct code as [code|]; [cbn in Hnc; rewrite Hnc|];
    eexists; (split; [reflexivity|]);
    (split; [apply Hcount; reflexivity|]);
    repeat apply quiet_app; auto with quiet; split; reflexivity.
Qed.

(** The per-account closure of the batch bot skips the poll in the same
    way. *)
Lemma accountTask_register_fails (i loopCount : nat)
    (availableDomains : list string) (raw p : string) (tr0 : list effect) :
  faker_username w = Normal raw →
  register_fails w (encryptString (address w availableDomains raw))
    (encryptString p) →
  ∃ delta,
    accountTask w i loopCount availableDomains (Some p) tr0
    = Some (Normal tt, tr0 ++ delta)
    ∧ probe_calls delta = 0 ∧ quiet delta.
Proof.
  intros Hraw Hfail.
  unfold accountTask, encryptPassword, address in *. run_monad.
  rewrite Hraw.
  match goal with |- context [regist_sendRequest w ?e ?q ?t] =>
    destruct (regist_sendRequest_fails e q t Hfail)
      as (v & delta & -> & -> & Hn & Hq) end.
  destruct (has_error v); rewrite <- !app_assoc; eexists;
    (split; [reflexivity|]);
    (split; [rewrite !probe_calls_app, Hn; reflexivity|]);
    repeat apply quiet_app; auto with quiet.
Qed.

End Facts.

(** C4. With at least one probe allowed: when the first [N - 1] lookups
    find nothing and lookup [N] (within the limit) finds a code, the poll
    loop makes exactly [N] lookups and yields that code; when all
    [maxPollAttempts] lookups find nothing, it makes exactly
    [maxPollAttempts] lookups and ends without a code, the attempt counter
    standing at [maxPollAttempts]. *)
Theorem poll_contract (w : world) (policy : poll_policy)
    (email domain : string) (tr0 : list effect) :
  1 <= maxPollAttempts policy →
  probe_calls tr0 = 0 →
  (∀ N code,
     1 <= N <= maxPollAttempts policy →
     (∀ k, 1 <= k < N → no_code (probe_result w k email domain) = true) →
     probe_result w N email domain = Some code → code ≠ "" →
     ∃ tr, poll w policy email domain tr0
           = Some (Normal (Some code, N - 1), tr)
           ∧ probe_calls tr = N)
  ∧ ((∀ k, 1 <= k <= maxPollAttempts policy →
           no_code (probe_result w k email domain) = true) →
     ∃ code tr, poll w policy email domain tr0
                = Some (Normal (code, maxPollAttempts policy), tr)
                ∧ no_code code = true
                ∧ probe_calls tr = maxPollAttempts policy).
Proof.
  intros Hmax Hzero. split.
  - intros N code HN Hempty Hcode Hne.
    destruct (pollLoop_success w policy email domain code (N - 1)
                (maxPollAttempts policy) 0 tr0)
      as (delta & Hrun & Hn & _).
    + intros k Hk. apply Hempty. lia.
    + rewrite Hzero. replace (0 + (N - 1) + 1) with N by lia. exact Hcode.
    + exact Hne.
    + lia.
    + lia.
    + exists (tr0 ++ delta). split; [exact Hrun|].
      rewrite probe_calls_app. lia.
  - intros Hempty.
    destruct (pollLoop_timeout w policy email domain
                (maxPollAttempts policy - 1) (maxPollAttempts policy) 0 tr0)
      as (code & delta & Hrun & Hnc & Hn & _).
    + intros k Hk. apply Hempty. lia.
    + lia.
    + lia.
    + exists code, (tr0 ++ delta). split; [exact Hrun|]. split; [exact Hnc|].
      rewrite probe_calls_app. lia.
Qed.

Lemma poll_contract_witness :
  ∃ tr, poll (sample_world third_time_inbox) queue_policy "jane" "mail.com" []
        = Some (Normal (Some "123456", 3 - 1), tr)
        ∧ probe_calls tr = 3.
Proof.
  apply (proj1 (poll_contract (sample_world third_time_inbox) queue_policy
                  "jane" "mail.com" [] ltac:(cbn; lia) eq_refl)).
  - cbn. lia.
  - intros k Hk. assert (k = 1 ∨ k = 2) as [-> | ->] by lia; reflexivity.
  - reflexivity.
  - discriminate.
Defined.

(** The boundary of a single probe, and the twelve probes of the queue bot. *)
Example poll_single_probe_timeout :
  let policy := {| maxPollAttempts := 1; pollIntervalMs := 0;
                   waitAfterLast := false |} in
  (λ '(r, tr), (r, probe_calls tr))
    <$> poll (sample_world silent_inbox) policy "jane" "mail.com" []
  = Some (Normal (Some "", 1), 1).
Proof. reflexivity. Qed.

Example poll_twelve_probes_timeout :
  (λ '(r, tr), (r, probe_calls tr))
    <$> poll (sample_world silent_inbox) queue_policy "jane" "mail.com" []
  = Some (Normal (Some "", 12), 12).
Proof. reflexivity. Qed.

(** C5, as the scripts have it.  When the register request signals failure
    (a transport error, a non-success status, an unreadable, empty or
    unparseable body, or a reply whose message is not ["success"], with or
    without an error field) the attempt resolves to [false] at once: no
    inbox lookup, no verify request, no file write. *)
Theorem register_failure_short_circuits (w : world) (policy : poll_policy)
    (index total : nat) (availableDomains : list string) (raw p : string) :
  faker_username w = Normal raw →
  register_fails w (encryptString (address w availableDomains raw))
    (encryptString p) →
  ∃ tr,
    attempt w policy index total availableDomains (Some p)
    = Some (Normal false, tr)
    ∧ probe_calls tr = 0 ∧ verify_calls tr = 0 ∧ file_writes tr = 0.
Proof.
  intros Hraw Hfail.
  destruct (createAccount_register_fails w policy index total availableDomains
              raw p [] Hraw Hfail) as (delta & Hrun & Hn & Hv & Hf).
  exists delta. unfold attempt. rewrite Hrun. auto.
Qed.

Lemma register_failure_short_circuits_witness :
  ∃ tr,
    attempt forbidden_world turbo_policy 1 1 ["mail.com"] (Some "secret")
    = Some (Normal false, tr)
    ∧ probe_calls tr = 0 ∧ verify_calls tr = 0 ∧ file_writes tr = 0.
Proof.
  apply (register_failure_short_circuits forbidden_world turbo_policy 1 1
           ["mail.com"] "Jane.Doe" "secret" eq_refl).
  eapply bad_status; reflexivity.
Defined.

(** An error field alone does not stop the attempt: when the reply of the
    register request carries one beside the message ["success"], the field
    is not even logged, and the attempt looks the inbox up, verifies, writes
    the account and resolves to [true]. *)
Lemma error_field_beside_success_goes_on :
  let e := encryptString (address flagged_world ["mail.com"] "Jane.Doe") in
  fst <$> regist_sendRequest flagged_world e (encryptString "secret") []
  = Some (Normal flagged_reply)
  ∧ has_error flagged_reply = true
  ∧ (λ '(r, tr), (r, probe_calls tr, verify_calls tr, file_writes tr))
      <$> attempt flagged_world turbo_policy 1 1 ["mail.com"] (Some "secret")
    = Some (Normal true, 1, 1, 1).
Proof. repeat split; vm_compute; reflexivity. Qed.

(** C6. Whatever the collaborators do, including throwing at any point,
    [createAccount] resolves to a boolean: it neither throws nor fails to
    return. *)
Theorem createAccount_never_throws (w : world) (policy : poll_policy)
    (index total : nat) (availableDomains : list string)
    (password : option string) :
  ∃ succeeded tr,
    attempt w policy index total availableDomains password
    = Some (Normal succeeded, tr).
Proof. unfold attempt. apply createAccount_total. Qed.

(** C7, as the scripts have it.  When none of the [maxPollAttempts] lookups
    yields a code, be it because the inbox shows none or because the lookup
    itself failed ([functionGetLink] catches the error and returns [null]),
    the attempt makes exactly [maxPollAttempts] lookups, logs that number
    and resolves to [false], without a verify request or a file write. *)
Theorem exhausted_poll_reports_false (w : world) (policy : poll_policy)
    (index total : nat) (availableDomains : list string) (raw p : string) :
  1 <= maxPollAttempts policy →
  faker_username w = Normal raw →
  register_succeeds w (encryptString (address w availableDomains raw))
    (encryptString p) →
  (∀ k, 1 <= k <= maxPollAttempts policy →
        inbox_span w k (beforeAt (address w availableDomains raw))
          (secondPiece (address w availableDomains raw)) = Normal ""
        ∨ ∃ err,
            inbox_span w k (beforeAt (address w availableDomains raw))
              (secondPiece (address w availableDomains raw)) = Throw err) →
  ∃ tr,
    attempt w policy index total availableDomains (Some p)
    = Some (Normal false,
            tr ++ [Console (LogNoCodeAfter (maxPollAttempts policy))])
    ∧ probe_calls tr = maxPollAttempts policy
    ∧ verify_calls tr = 0 ∧ file_writes tr = 0.
Proof.
  intros Hmax Hraw Hreg Hnone.
  destruct (createAccount_poll_exhausted w policy index total availableDomains
              raw p Hmax Hraw Hreg) as (tr & Hrun & Hn & Hv & Hf).
  - intros k Hk. unfold probe_result.
    destruct (Hnone k Hk) as [-> | [err ->]]; reflexivity.
  - exists tr. unfold attempt. rewrite Hrun. auto.
Qed.

Lemma exhausted_poll_reports_false_witness :
  ∃ tr,
    attempt (sample_world broken_inbox) turbo_policy 1 1 ["mail.com"]
      (Some "secret")
    = Some (Normal false, tr ++ [Console (LogNoCodeAfter 4)])
    ∧ probe_calls tr = 4 ∧ verify_calls tr = 0 ∧ file_writes tr = 0.
Proof.
  apply (exhausted_poll_reports_false (sample_world broken_inbox) turbo_policy
           1 1 ["mail.com"] "Jane.Doe" "secret" ltac:(cbn; lia) eq_refl).
  - exists {| resp_ok := true; resp_status := 200; resp_text := Normal "ok" |},
      "ok", (JObj [("message", JStr "success")]).
    repeat split; try reflexivity. vm_compute. discriminate.
  - intros k _. right. eexists. reflexivity.
Defined.

(** A lookup that always fails and an inbox that stays empty end the
    attempt with the same value, the same number of lookups and the same
    final log line: the failed lookup is no failure kind of its own. *)
Lemma probe_error_not_distinguished :
  let result inbox :=
    (λ '(r, tr), (r, probe_calls tr, List.last tr (Console LogEmptyResponse)))
      <$> attempt (sample_world inbox) turbo_policy 1 1 ["mail.com"]
            (Some "secret") in
  result broken_inbox = Some (Normal false, 4, Console (LogNoCodeAfter 4))
  ∧ result silent_inbox = Some (Normal false, 4, Console (LogNoCodeAfter 4)).
Proof. split; vm_compute; reflexivity. Qed.

End ExecutorFacts.

Module NumbersFacts.
Import Numbers.
Local Open Scope nat_scope.

(** A counter is below a finite constant exactly when it is below the
    constant rounded up. *)
Lemma Qle_roof (q : Q) (n : nat) :
  (q <= inject_Z (Z.of_nat n))%Q ↔ Z.to_nat (Qceiling q) <= n.
Proof.
  split.
  - intros H. apply Qceiling_resp_le in H. rewrite Qceiling_Z in H. lia.
  - intros H. apply Qle_trans with (inject_Z (Qceiling q)).
    + apply Qle_ceiling.
    + rewrite <- Zle_Qle. lia.
Qed.

Lemma reaches_spec (n : nat) (x : limit) :
  reaches n x = true ↔ match roof x with Some c => c <= n | None => False end.
Proof.
  destruct x as [q|]; cbn; [|split; [discriminate|tauto]].
  rewrite Qle_bool_iff. apply Qle_roof.
Qed.

Lemma reaches_spec_false (n : nat) (x : limit) :
  reaches n x = false ↔ match roof x with Some c => n < c | None => True end.
Proof.
  pose proof (reaches_spec n x) as H.
  destruct (reaches n x), (roof x); split; intros; try lia; try tauto;
    try discriminate.
Qed.

Lemma below_reaches (n : nat) (x : limit) : below n x = negb (reaches n x).
Proof. now destruct x. Qed.

Lemma below_spec (n : nat) (x : limit) :
  below n x = true ↔ match roof x with Some c => n < c | None => True end.
Proof. rewrite below_reaches, negb_true_iff. apply reaches_spec_false. Qed.

Lemma below_spec_false (n : nat) (x : limit) :
  below n x = false ↔ match roof x with Some c => c <= n | None => False end.
Proof. rewrite below_reaches, negb_false_iff. apply reaches_spec. Qed.

Lemma roof_whole (n : nat) : roof (whole n) = Some n.
Proof. unfold whole, roof. rewrite Qceiling_Z. now rewrite Nat2Z.id. Qed.

(** Against a whole number the comparisons are those of the naturals. *)
Lemma below_whole (n m : nat) : below n (whole m) = (n <? m).
Proof.
  apply eq_true_iff_eq. rewrite below_spec, roof_whole. symmetry.
  apply Nat.ltb_lt.
Qed.

Lemma reaches_whole (n m : nat) : reaches n (whole m) = (m <=? n).
Proof.
  apply eq_true_iff_eq. rewrite reaches_spec, roof_whole. symmetry.
  apply Nat.leb_le.
Qed.

Lemma exceeds_whole (n m : nat) : exceeds n (whole m) = (m <? n).
Proof.
  apply eq_true_iff_eq. unfold exceeds, whole.
  rewrite negb_true_iff, Nat.ltb_lt, <- not_true_iff_false, Qle_bool_iff.
  rewrite <- Zle_Qle. lia.
Qed.

Lemma upto_whole (n m : nat) : upto n (whole m) ↔ n <= m.
Proof. unfold upto. now rewrite roof_whole. Qed.

(** What the checks let through is positive. *)
Lemma positive_or_positive (parsed : number) (fallback : limit) :
  below 0 fallback = true → below 0 (positive_or parsed fallback) = true.
Proof.
  intros Hf. destruct parsed as [|q| |]; cbn; try exact Hf; [|reflexivity].
  destruct (Qle_bool q 0) eqn:Hq; [exact Hf|]. cbn.
  change (inject_Z (Z.of_nat 0)) with 0%Q. now rewrite Hq.
Qed.


End NumbersFacts.

(** Turning the comparisons with a run constant into comparisons with its
    roof. *)
Ltac limits :=
  rewrite ?NumbersFacts.below_spec, ?NumbersFacts.below_spec_false,
    ?NumbersFacts.reaches_spec, ?NumbersFacts.reaches_spec_false in *;
  unfold Numbers.upto in *;
  repeat match goal with
         | H : Numbers.roof ?x = _ |- _ => rewrite H in *; clear H
         end;
  repeat match goal with
         | |- context [Numbers.roof ?x] => destruct (Numbers.roof x)
         | H : context [Numbers.roof ?x] |- _ => destruct (Numbers.roof x)
         end.

Module TurboFacts.
Import Numbers NumbersFacts Turbo.
Local Open Scope nat_scope.
Local Open Scope list_scope.

(** *** Paths *)

Lemma final_app (s : state) (p q : list state) :
  final s (p ++ q) = final (final s p) q.
Proof. unfold final. apply fold_left_app. Qed.

Lemma final_cons (s a : state) (p : list state) : final s (a :: p) = final a p.
Proof. reflexivity. Qed.

Lemma final_nil (s : state) : final s [] = s.
Proof. reflexivity. Qed.

Lemma final_snoc (s a : state) (p : list state) : final s (p ++ [a]) = a.
Proof. now rewrite final_app. Qed.

#[local] Arguments final : simpl never.

Lemma final_Forall (P : state -> Prop) (s : state) (path : list state) :
  P s → Forall P path → P (final s path).
Proof.
  intros Hs Hall. destruct path as [|a path _] using rev_ind; [exact Hs|].
  rewrite final_snoc. apply Forall_app in Hall as [_ Ha]. now inversion Ha.
Qed.

Section Facts.
Variable cfg : config.
Variable outcome : nat -> bool.

(** *** One launch *)

Lemma launch_fresh (s : state) :
  consistent cfg s → S (attemptNumber s) ∉ inFlight s.
Proof.
  intros (_ & _ & Hids & _) Hin. apply Hids in Hin. lia.
Qed.

Lemma size_launch (s : state) :
  consistent cfg s → size (inFlight (launch s)) = S (size (inFlight s)).
Proof.
  intros Hs. cbn. rewrite size_union.
  - now rewrite size_singleton.
  - apply disjoint_singleton_l. now apply launch_fresh.
Qed.

Lemma may_launch_true (s : state) :
  may_launch cfg s = true →
  below (size (inFlight s)) (MAX_CONCURRENT_REQUESTS cfg) = true
  ∧ below (attemptNumber s) (maxAttempts cfg) = true
  ∧ below (successCount s) (loopCount cfg) = true.
Proof.
  unfold may_launch. rewrite !andb_true_iff. tauto.
Qed.

Lemma may_launch_false (s : state) :
  may_launch cfg s = false →
  below (size (inFlight s)) (MAX_CONCURRENT_REQUESTS cfg) = false
  ∨ below (attemptNumber s) (maxAttempts cfg) = false
  ∨ below (successCount s) (loopCount cfg) = false.
Proof.
  unfold may_launch. rewrite !andb_false_iff. tauto.
Qed.

Lemma launch_consistent (s : state) :
  consistent cfg s → may_launch cfg s = true → consistent cfg (launch s).
Proof.
  intros Hs Hmay. pose proof (size_launch s Hs) as Hsize.
  destruct (may_launch_true s Hmay) as (Hroom & Hbudget & _).
  destruct Hs as ((Hn & Hf) & Hsub & Hids & Hres).
  split; [split|split; [|split]].
  - cbn. limits; lia.
  - rewrite Hsize. limits; lia.
  - cbn. etrans; [exact Hsub|apply union_subseteq_r].
  - cbn. intros i [Hi|Hi]%elem_of_union.
    + apply elem_of_singleton in Hi. lia.
    + apply Hids in Hi. lia.
  - cbn. intros Hr. specialize (Hres Hr). clear - Hres Hbudget.
    limits; lia.
Qed.

Lemma size_counted (s : state) :
  consistent cfg s → size (counted s) <= size (inFlight s).
Proof. intros (_ & Hsub & _). now apply subseteq_size. Qed.

Lemma launch_potential (s : state) :
  consistent cfg s → may_launch cfg s = true →
  potential cfg (launch s) = potential cfg s.
Proof.
  intros Hs Hmay. unfold potential. rewrite (size_launch s Hs).
  destruct (may_launch_true s Hmay) as (_ & Hbudget & _).
  pose proof (size_counted s Hs). cbn. clear - Hbudget H. limits; lia.
Qed.

(** *** The launch loop *)

(** What the loop does when it ends. *)
Lemma launchLoop_sound (fuel : nat) :
  ∀ s path, consistent cfg s →
    launchLoop cfg fuel s = Some path →
    Forall (consistent cfg) path
    ∧ may_launch cfg (final s path) = false
    ∧ potential cfg (final s path) = potential cfg s
    ∧ successCount (final s path) = successCount s
    ∧ resolved (final s path) = resolved s
    ∧ (path = [] ∨ inFlight (final s path) ≠ ∅).
Proof.
  induction fuel as [|fuel IH]; intros s path Hs Hrun; cbn [launchLoop] in Hrun;
    destruct (may_launch cfg s) eqn:Hmay; try discriminate Hrun.
  - injection Hrun as <-. rewrite final_nil. auto 10.
  - destruct (launchLoop cfg fuel (launch s)) as [rest|] eqn:Hrest;
      [|discriminate Hrun].
    cbn in Hrun. injection Hrun as <-.
    pose proof (launch_consistent s Hs Hmay) as Hs'.
    destruct (IH (launch s) rest Hs' Hrest)
      as (Hall & Hstop & Hpot & Hsc & Hres & Hne).
    rewrite final_cons, Hstop, Hpot, Hsc, Hres.
    rewrite (launch_potential s Hs Hmay).
    repeat split; auto. right.
    destruct Hne as [-> | Hne]; [|exact Hne].
    rewrite final_nil. cbn. intros He.
    apply (not_elem_of_empty (C := gset nat) (S (attemptNumber s))).
    rewrite <- He. apply elem_of_union_l, elem_of_singleton. reflexivity.
  - injection Hrun as <-. rewrite final_nil. auto 10.
Qed.

Lemma turns_launch (s : state) :
  consistent cfg s → bounded cfg → may_launch cfg s = true →
  S (turns cfg (launch s)) = turns cfg s.
Proof.
  intros Hs Hb Hmay. unfold turns. rewrite (size_launch s Hs).
  destruct (may_launch_true s Hmay) as (Hroom & Hbudget & _).
  destruct Hb as [[b Hb]|[c Hc]]; cbn; clear - Hroom Hbudget Hb || clear - Hroom Hbudget Hc;
    limits; lia.
Qed.

(** The loop ends when the budget or the concurrency is finite. *)
Lemma launchLoop_total (fuel : nat) :
  ∀ s, consistent cfg s → bounded cfg → turns cfg s <= fuel →
    is_Some (launchLoop cfg fuel s).
Proof.
  induction fuel as [|fuel IH]; intros s Hs Hb Hfuel; cbn [launchLoop];
    destruct (may_launch cfg s) eqn:Hmay; eauto.
  - pose proof (turns_launch s Hs Hb Hmay). lia.
  - destruct (IH (launch s)) as [rest ->]; [| |..]; eauto.
    + now apply launch_consistent.
    + pose proof (turns_launch s Hs Hb Hmay). lia.
Qed.

(** With neither of them finite it never ends, once it is entered. *)
Lemma launchLoop_diverges (fuel : nat) :
  MAX_CONCURRENT_REQUESTS cfg = Unbounded → maxAttempts cfg = Unbounded →
  ∀ s, may_launch cfg s = true → launchLoop cfg fuel s = None.
Proof.
  intros Hc Hb. induction fuel as [|fuel IH]; intros s Hmay; cbn [launchLoop];
    rewrite Hmay; [reflexivity|].
  rewrite IH; [reflexivity|].
  unfold may_launch in *. rewrite Hc, Hb in *. cbn in *. exact Hmay.
Qed.

(** *** [launchNext] *)

Lemma finished_true (s : state) :
  finished cfg s = true →
  reaches (successCount s) (loopCount cfg) = true
  ∨ (reaches (attemptNumber s) (maxAttempts cfg) = true ∧ inFlight s = ∅).
Proof.
  unfold finished. rewrite orb_true_iff, andb_true_iff, Nat.eqb_eq.
  intros [H | [H1 H2]]; [now left|right]. split; [exact H1|].
  now apply size_empty_inv, leibniz_equiv in H2.
Qed.

Lemma finished_false (s : state) :
  finished cfg s = false →
  below (successCount s) (loopCount cfg) = true
  ∧ (below (attemptNumber s) (maxAttempts cfg) = true ∨ inFlight s ≠ ∅).
Proof.
  unfold finished. rewrite !below_reaches, !negb_true_iff.
  rewrite orb_false_iff, andb_false_iff, Nat.eqb_neq.
  intros [H [H1 | H2]]; (split; [exact H|]); [left; exact H1|right].
  intros He. apply H2. rewrite He. apply size_empty.
Qed.

Lemma launchNext_sound (s : state) (path : list state) :
  consistent cfg s →
  launchNext cfg s = Some path →
  Forall (consistent cfg) path
  ∧ potential cfg (final s path) = potential cfg s
  ∧ successCount (final s path) = successCount s
  ∧ waits cfg (final s path).
Proof.
  intros Hs. unfold launchNext.
  destruct (finished cfg s) eqn:Hfin; intros Hrun.
  - injection Hrun as <-. split; [|split; [|split]].
    + constructor; [|constructor].
      destruct Hs as (Hb & Hsub & Hids & Hres).
      split; [exact Hb|]. split; [exact Hsub|]. split; [exact Hids|].
      intros _.
      destruct (finished_true s Hfin) as [H | [H _]]; auto.
    + reflexivity.
    + reflexivity.
    + intros _. cbn. discriminate.
  - destruct (launchLoop_sound _ s path Hs Hrun)
      as (Hall & Hstop & Hpot & Hsc & Hres & Hne).
    split; [exact Hall|]. split; [exact Hpot|]. split; [exact Hsc|].
    intros Hmax _.
    destruct Hne as [-> | Hne]; [|exact Hne]. rewrite final_nil in *.
    destruct (finished_false s Hfin) as (Hlt & [Hbudget | Hbusy]); [|exact Hbusy].
    intros He. destruct (may_launch_false s Hstop) as [H | [H | H]];
      try congruence.
    rewrite He, size_empty in H. congruence.
Qed.

Lemma launchNext_total (s : state) :
  consistent cfg s → bounded cfg → is_Some (launchNext cfg s).
Proof.
  intros Hs Hb. unfold launchNext. destruct (finished cfg s); [eauto|].
  now apply launchLoop_total.
Qed.

(** *** One callback *)

Lemma count_success_consistent (i : nat) (s : state) :
  consistent cfg s → i ∈ inFlight s → consistent cfg (count_success outcome i s).
Proof.
  intros (Hb & Hsub & Hids & Hres) Hi.
  split; [exact Hb|]. split; [|split; [exact Hids|]].
  - cbn. apply union_subseteq. split; [|exact Hsub].
    now apply singleton_subseteq_l.
  - cbn. intros Hr. destruct (Hres Hr) as [H|H]; [left|right; assumption].
    destruct (outcome i); [|exact H]. clear - H. limits; lia.
Qed.

Lemma size_delete (i : nat) (X : gset nat) :
  i ∈ X → S (size (X ∖ {[ i ]})) = size X.
Proof.
  intros Hi. rewrite size_difference by (now apply singleton_subseteq_l).
  rewrite size_singleton.
  assert (0 < size X); [|lia].
  apply Nat.neq_0_lt_0. intros H0.
  apply size_empty_inv, leibniz_equiv in H0.
  rewrite H0 in Hi. now apply not_elem_of_empty in Hi.
Qed.

Lemma delete_consistent (i : nat) (s : state) :
  consistent cfg s → consistent cfg (delete i s).
Proof.
  intros ((Hn & Hf) & Hsub & Hids & Hres).
  assert (Hle : size (inFlight s ∖ {[ i ]}) <= size (inFlight s))
    by (apply subseteq_size, subseteq_difference_l; reflexivity).
  split; [split|split; [|split]]; cbn.
  - exact Hn.
  - clear - Hf Hle. limits; lia.
  - apply difference_mono_r, Hsub.
  - intros j Hj. apply Hids. now apply elem_of_difference in Hj as [Hj _].
  - exact Hres.
Qed.

(** A callback that runs keeps every state it passes through consistent
    and leaves an unresolved run waiting for something. *)
Lemma step_sound (s : state) (e : event) (path : list state) :
  consistent cfg s → waits cfg s →
  step cfg outcome s e = Some path →
  Forall (consistent cfg) path
  ∧ consistent cfg (final s path)
  ∧ waits cfg (final s path).
Proof.
  intros Hs Hwait Hstep. destruct e as [i|i]; cbn in Hstep.
  - destruct (decide _) as [[Hi Hni]|]; [|discriminate].
    injection Hstep as <-.
    pose proof (count_success_consistent i s Hs Hi) as Hs'.
    split; [constructor; [exact Hs'|constructor]|]. split; [exact Hs'|].
    exact Hwait.
  - destruct (decide _) as [Hi|]; [|discriminate].
    pose proof (delete_consistent i s Hs) as Hs'.
    destruct (launchNext cfg (delete i s)) as [rest|] eqn:Hrun;
      [|discriminate Hstep].
    cbn in Hstep. injection Hstep as <-.
    destruct (launchNext_sound (delete i s) rest Hs' Hrun)
      as (Hall & _ & _ & Hwait').
    rewrite final_cons.
    split; [now constructor|]. split; [|exact Hwait'].
    now apply final_Forall.
Qed.

(** An enabled callback does run. *)
Lemma step_enabled (s : state) (e : event) :
  consistent cfg s → bounded cfg → e ∈ enabled s →
  is_Some (step cfg outcome s e).
Proof.
  intros Hs Hb He. unfold enabled in He.
  apply elem_of_app in He as [He|He];
    apply list_elem_of_fmap in He as (i & -> & Hi);
    apply elem_of_elements in Hi; cbn.
  - apply elem_of_difference in Hi.
    destruct (decide _); [eauto|contradiction].
  - destruct (decide _); [|contradiction].
    destruct (launchNext_total (delete i s) (delete_consistent i s Hs) Hb)
      as (rest & ->). eauto.
Qed.

Lemma step_is_enabled (s : state) (e : event) (path : list state) :
  step cfg outcome s e = Some path → e ∈ enabled s.
Proof.
  unfold enabled. destruct e as [i|i]; cbn; intros Hstep;
    destruct (decide _) as [H|]; try discriminate; apply elem_of_app.
  - left. apply list_elem_of_fmap. exists i. split; [reflexivity|].
    apply elem_of_elements, elem_of_difference. exact H.
  - right. apply list_elem_of_fmap. exists i. split; [reflexivity|].
    now apply elem_of_elements.
Qed.

(** Something is enabled as long as something is in flight. *)
Lemma enabled_nonempty (s : state) :
  counted s ⊆ inFlight s → inFlight s ≠ ∅ → ∃ e, e ∈ enabled s.
Proof.
  intros Hsub Hne. apply set_choose_L in Hne as [i Hi].
  destruct (decide (i ∈ counted s)) as [Hc|Hc].
  - exists (Finalize i). unfold enabled. apply elem_of_app. right.
    apply list_elem_of_fmap. exists i. split; [reflexivity|].
    now apply elem_of_elements.
  - exists (Settle i). unfold enabled. apply elem_of_app. left.
    apply list_elem_of_fmap. exists i. split; [reflexivity|].
    apply elem_of_elements, elem_of_difference. now split.
Qed.

(** *** Schedules *)

Lemma run_sound (tr : list event) :
  ∀ s path,
    consistent cfg s → waits cfg s →
    run cfg outcome s tr = Some path →
    Forall (consistent cfg) path
    ∧ consistent cfg (final s path)
    ∧ waits cfg (final s path).
Proof.
  induction tr as [|e tr IH]; intros s path Hs Hwait Hrun; cbn in Hrun.
  - injection Hrun as <-. rewrite final_nil. auto.
  - destruct (step cfg outcome s e) as [p|] eqn:Hstep; [|discriminate].
    cbn in Hrun.
    destruct (run cfg outcome (final s p) tr) as [rest|] eqn:Hrest;
      [|discriminate].
    cbn in Hrun. injection Hrun as <-.
    destruct (step_sound s e p Hs Hwait Hstep) as (Hall & Hs' & Hwait').
    destruct (IH _ _ Hs' Hwait' Hrest) as (Hall' & Hs'' & Hwait'').
    rewrite final_app. split; [now apply Forall_app|]. auto.
Qed.

Lemma run_app (tr tr' : list event) :
  ∀ s path rest,
    run cfg outcome s tr = Some path →
    run cfg outcome (final s path) tr' = Some rest →
    run cfg outcome s (tr ++ tr') = Some (path ++ rest).
Proof.
  induction tr as [|e tr IH]; intros s path rest Hrun Hrest; cbn in *.
  - injection Hrun as <-. exact Hrest.
  - destruct (step cfg outcome s e) as [p|]; [|discriminate]. cbn in *.
    destruct (run cfg outcome (final s p) tr) as [q|] eqn:Hq; [|discriminate].
    cbn in Hrun. injection Hrun as <-.
    rewrite final_app in Hrest.
    rewrite (IH _ _ _ Hq Hrest). cbn. now rewrite app_assoc.
Qed.

Lemma idle_consistent : consistent cfg idle.
Proof.
  split; [split|split; [|split]]; cbn.
  - limits; lia.
  - rewrite size_empty. limits; lia.
  - reflexivity.
  - intros i Hi. now apply not_elem_of_empty in Hi.
  - discriminate.
Qed.

(** A run unfolds into its first fill and the callbacks of its schedule. *)
Lemma exec_inv (tr : list event) (h : list state) :
  exec cfg outcome tr = Some h →
  ∃ path rest,
    launchNext cfg idle = Some path
    ∧ run cfg outcome (final idle path) tr = Some rest
    ∧ h = idle :: path ++ rest
    ∧ final idle h = final (final idle path) rest.
Proof.
  unfold exec. intros Hexec.
  destruct (launchNext cfg idle) as [path|]; [|discriminate]. cbn in Hexec.
  destruct (run cfg outcome (final idle path) tr) as [rest|] eqn:Hrest;
    [|discriminate].
  cbn in Hexec. injection Hexec as <-.
  exists path, rest. rewrite final_cons, final_app. auto.
Qed.

Lemma exec_sound (tr : list event) (h : list state) :
  exec cfg outcome tr = Some h →
  Forall (consistent cfg) h
  ∧ consistent cfg (final idle h)
  ∧ waits cfg (final idle h).
Proof.
  intros Hexec.
  destruct (exec_inv tr h Hexec) as (path & rest & Hfill & Hrest & -> & ->).
  destruct (launchNext_sound idle path idle_consistent Hfill)
    as (Hall & _ & _ & Hwait).
  assert (Hs : consistent cfg (final idle path))
    by (apply final_Forall; [apply idle_consistent|exact Hall]).
  destruct (run_sound tr _ _ Hs Hwait Hrest) as (Hall' & Hs' & Hwait').
  split; [constructor; [apply idle_consistent|now apply Forall_app]|].
  auto.
Qed.

Lemma exec_nil : bounded cfg → is_Some (exec cfg outcome []).
Proof.
  intros Hb. unfold exec.
  destruct (launchNext_total idle idle_consistent Hb) as (path & ->).
  cbn. eauto.
Qed.

Lemma exec_snoc (tr : list event) (h : list state) (e : event) (p : list state) :
  exec cfg outcome tr = Some h →
  step cfg outcome (final idle h) e = Some p →
  exec cfg outcome (tr ++ [e]) = Some (h ++ p)
  ∧ final idle (h ++ p) = final (final idle h) p.
Proof.
  unfold exec. intros Hexec Hstep.
  destruct (launchNext cfg idle) as [path|]; [|discriminate]. cbn in *.
  destruct (run cfg outcome (final idle path) tr) as [rest|] eqn:Hrest;
    [|discriminate].
  cbn in Hexec. injection Hexec as <-.
  rewrite final_cons, final_app in Hstep.
  rewrite (run_app tr [e] _ rest p Hrest).
  - cbn. rewrite app_assoc. split; [reflexivity|].
    now rewrite !final_cons, !final_app.
  - cbn. rewrite Hstep. cbn. now rewrite app_nil_r.
Qed.

(** With nothing in flight between two callbacks, the run is over. *)
Lemma quiescent_Done (s : state) :
  consistent cfg s →
  (resolved s = false → inFlight s ≠ ∅) →
  quiescent s → Done cfg s.
Proof.
  intros (_ & _ & _ & Hres) Hwait He.
  destruct (resolved s) eqn:Hr.
  - split; [exact Hr|]. split; [exact He|]. now apply Hres.
  - exfalso. exact (Hwait eq_refl He).
Qed.

(** The callbacks only look at the outcome of attempts in flight. *)
Lemma step_ext (outcome' : nat -> bool) (s : state) (e : event) :
  (∀ i, i ∈ inFlight s → outcome i = outcome' i) →
  step cfg outcome s e = step cfg outcome' s e.
Proof.
  intros Hext. destruct e as [i|i]; cbn; [|reflexivity].
  destruct (decide _) as [[Hi _]|]; [|reflexivity].
  unfold count_success. now rewrite (Hext i Hi).
Qed.

(** *** The potential under a finite budget *)

Section Budget.
Variable budget : nat.
Hypothesis Hbudget : roof (maxAttempts cfg) = Some budget.

Lemma count_success_potential (i : nat) (s : state) :
  consistent cfg s → i ∈ inFlight s → i ∉ counted s →
  potential cfg (count_success outcome i s) + 1 = potential cfg s.
Proof.
  intros Hs Hi Hni.
  pose proof (size_counted _ (count_success_consistent i s Hs Hi)) as Hle.
  unfold potential in *. rewrite Hbudget. cbn in *.
  rewrite size_union in * by (now apply disjoint_singleton_l).
  rewrite size_singleton in *. lia.
Qed.

Lemma delete_potential (i : nat) (s : state) :
  consistent cfg s → i ∈ counted s →
  potential cfg (delete i s) + 1 = potential cfg s.
Proof.
  intros Hs Hi.
  assert (Hin : i ∈ inFlight s) by (destruct Hs as (_ & Hsub & _); now apply Hsub).
  pose proof (size_counted _ (delete_consistent i s Hs)) as Hle.
  pose proof (size_delete i _ Hi) as Hc.
  pose proof (size_delete i _ Hin) as Hf.
  unfold potential in *. rewrite Hbudget. cbn in *. lia.
Qed.

(** A callback that runs uses up one unit of the potential. *)
Lemma step_potential (s : state) (e : event) (path : list state) :
  consistent cfg s →
  step cfg outcome s e = Some path →
  potential cfg (final s path) + 1 = potential cfg s.
Proof.
  intros Hs Hstep. destruct e as [i|i]; cbn in Hstep.
  - destruct (decide _) as [[Hi Hni]|]; [|discriminate].
    injection Hstep as <-. now apply count_success_potential.
  - destruct (decide _) as [Hi|]; [|discriminate].
    destruct (launchNext cfg (delete i s)) as [rest|] eqn:Hrun;
      [|discriminate Hstep].
    cbn in Hstep. injection Hstep as <-.
    destruct (launchNext_sound (delete i s) rest (delete_consistent i s Hs) Hrun)
      as (_ & Hpot & _).
    rewrite final_cons, Hpot. now apply delete_potential.
Qed.

Lemma run_potential (tr : list event) :
  ∀ s path,
    consistent cfg s → waits cfg s →
    run cfg outcome s tr = Some path →
    potential cfg (final s path) + length tr = potential cfg s.
Proof.
  induction tr as [|e tr IH]; intros s path Hs Hwait Hrun; cbn in Hrun.
  - injection Hrun as <-. rewrite final_nil. cbn. lia.
  - destruct (step cfg outcome s e) as [p|] eqn:Hstep; [|discriminate].
    cbn in Hrun.
    destruct (run cfg outcome (final s p) tr) as [rest|] eqn:Hrest;
      [|discriminate].
    cbn in Hrun. injection Hrun as <-.
    destruct (step_sound s e p Hs Hwait Hstep) as (_ & Hs' & Hwait').
    pose proof (step_potential s e p Hs Hstep) as Hpot.
    pose proof (IH _ _ Hs' Hwait' Hrest) as Hpot'.
    rewrite final_app. cbn [length]. lia.
Qed.

Lemma idle_potential : potential cfg idle = 2 * budget.
Proof. unfold potential. rewrite Hbudget. cbn. rewrite size_empty. lia. Qed.

Lemma exec_potential (tr : list event) (h : list state) :
  exec cfg outcome tr = Some h →
  potential cfg (final idle h) + length tr = 2 * budget.
Proof.
  intros Hexec.
  destruct (exec_inv tr h Hexec) as (path & rest & Hfill & Hrest & -> & ->).
  destruct (launchNext_sound idle path idle_consistent Hfill)
    as (Hall & Hpot & _ & Hwait).
  assert (Hs : consistent cfg (final idle path))
    by (apply final_Forall; [apply idle_consistent|exact Hall]).
  rewrite (run_potential tr _ _ Hs Hwait Hrest), Hpot. apply idle_potential.
Qed.

Lemma budget_bounded : bounded cfg.
Proof. left. rewrite Hbudget. eauto. Qed.

(** From any point of a run the remaining callbacks can be run, and they
    lead to the terminal state. *)
Lemma exec_completes (k : nat) :
  below 0 (MAX_CONCURRENT_REQUESTS cfg) = true →
  ∀ tr h,
    exec cfg outcome tr = Some h →
    potential cfg (final idle h) <= k →
    ∃ tr' h', exec cfg outcome (tr ++ tr') = Some h'
              ∧ Done cfg (final idle h').
Proof.
  intros Hmax. induction k as [|k IH]; intros tr h Hexec Hk;
    destruct (exec_sound tr h Hexec) as (_ & Hs & Hwait);
    destruct (decide (inFlight (final idle h) = ∅)) as [He|Hne].
  - exists [], h. rewrite app_nil_r. split; [exact Hexec|].
    apply quiescent_Done; auto.
  - pose proof Hs as (Hb & Hsub & Hids & Hres).
    destruct (enabled_nonempty _ Hsub Hne) as [e He].
    destruct (step_enabled _ e Hs budget_bounded He) as [p Hp].
    pose proof (step_potential _ e p Hs Hp) as Hdec.
    lia.
  - exists [], h. rewrite app_nil_r. split; [exact Hexec|].
    apply quiescent_Done; auto.
  - pose proof Hs as (Hb & Hsub & Hids & Hres).
    destruct (enabled_nonempty _ Hsub Hne) as [e He].
    destruct (step_enabled _ e Hs budget_bounded He) as [p Hp].
    pose proof (step_potential _ e p Hs Hp) as Hdec.
    destruct (exec_snoc tr h e p Hexec Hp) as [Hexec' Hfin].
    destruct (IH (tr ++ [e]) (h ++ p) Hexec') as (tr' & h' & Hrun & Hdone).
    { rewrite Hfin. lia. }
    exists (e :: tr'), h'. split; [|exact Hdone].
    now rewrite <- app_assoc in Hrun.
Qed.

End Budget.

End Facts.

(** In every run, under every schedule of the callbacks, each state has
    fewer than [maxAttempts + 1] attempts launched and fewer than
    [MAX_CONCURRENT_REQUESTS + 1] in flight. *)
Lemma reach_holds_throughout (cfg : config) (outcome : nat -> bool)
    (tr : list event) (h : list state) :
  exec cfg outcome tr = Some h → Forall (within_reach cfg) h.
Proof.
  intros Hexec. destruct (exec_sound cfg outcome tr h Hexec) as (Hall & _).
  eapply Forall_impl; [exact Hall|]. now intros s (Hb & _).
Qed.

(** When the budget and the concurrency are whole numbers, that is: at
    most [maxAttempts] attempts launched and at most
    [MAX_CONCURRENT_REQUESTS] in flight. *)
Lemma bounds_hold_for_whole_limits (cfg : config) (outcome : nat -> bool)
    (tr : list event) (h : list state) (budget slots : nat) :
  maxAttempts cfg = whole budget →
  MAX_CONCURRENT_REQUESTS cfg = whole slots →
  exec cfg outcome tr = Some h → Forall (within_bounds cfg) h.
Proof.
  intros Hb Hc Hexec.
  eapply Forall_impl; [exact (reach_holds_throughout cfg outcome tr h Hexec)|].
  unfold within_reach, within_bounds. rewrite Hb, Hc.
  intros s [Hn Hf].
  apply (proj1 (upto_whole _ _)) in Hn. apply (proj1 (upto_whole _ _)) in Hf.
  rewrite !exceeds_whole. split; apply Nat.ltb_ge; assumption.
Qed.

(** C1. A fractional [batchSize] in [config.json] is used unrounded.  With
    [batchSize] 2.5, one account asked for and the other answers left
    empty, the concurrency is 2.5 and the budget 3.5; the first fill puts
    three attempts in flight, and when every attempt fails a fourth one is
    launched after the first has completed: both bounds are exceeded. *)
Theorem fractional_batch_size_exceeds_the_bounds :
  MAX_CONCURRENT_REQUESTS fractional = Bounded (5 # 2)
  ∧ maxAttempts fractional = Bounded (7 # 2)
  ∧ (fun s => size (inFlight s)) <$> outcome_of fractional fails [] = Some 3
  ∧ attemptNumber <$> outcome_of fractional fails [Settle 1; Finalize 1]
    = Some 4
  ∧ exceeds 3 (MAX_CONCURRENT_REQUESTS fractional) = true
  ∧ exceeds 4 (maxAttempts fractional) = true
  ∧ ∀ h, exec fractional fails [Settle 1; Finalize 1] = Some h →
         ¬ Forall (within_bounds fractional) h.
Proof.
  repeat (split; [vm_compute; reflexivity|]).
  intros h Hexec Hall.
  assert (Hlast : within_bounds fractional (final idle h)).
  { apply final_Forall; [|exact Hall]. split; reflexivity. }
  revert Hlast. unfold within_bounds.
  replace (final idle h) with
    (default idle (outcome_of fractional fails [Settle 1; Finalize 1]))
    by (unfold outcome_of; now rewrite Hexec).
  vm_compute. intros [H _]. discriminate H.
Qed.

(** C2. With a positive concurrency and a finite budget, the run starts,
    every schedule of callbacks is at most twice the budget (rounded up)
    long, a run with nothing left in flight is in the terminal state, and
    from any point the callbacks that remain can be run and end in the
    terminal state, whatever the attempts resolve to. *)
Theorem run_reaches_Done (cfg : config) (outcome : nat -> bool) (budget : nat) :
  below 0 (MAX_CONCURRENT_REQUESTS cfg) = true →
  roof (maxAttempts cfg) = Some budget →
  is_Some (exec cfg outcome [])
  ∧ ∀ tr h,
      exec cfg outcome tr = Some h →
      length tr <= 2 * budget
      ∧ (quiescent (final idle h) → Done cfg (final idle h))
      ∧ ∃ tr' h', exec cfg outcome (tr ++ tr') = Some h'
                  ∧ Done cfg (final idle h').
Proof.
  intros Hmax Hbudget.
  split; [apply exec_nil, (budget_bounded cfg budget Hbudget)|].
  intros tr h Hexec.
  destruct (exec_sound cfg outcome tr h Hexec) as (_ & Hs & Hwait).
  pose proof (exec_potential cfg outcome budget Hbudget tr h Hexec) as Hpot.
  split; [lia|]. split.
  - apply quiescent_Done; auto.
  - apply (exec_completes cfg outcome budget Hbudget
             (potential cfg (final idle h)) Hmax tr h Hexec).
    lia.
Qed.

Lemma run_reaches_Done_witness :
  is_Some (exec scenario (fun _ => false) [])
  ∧ ∀ tr h,
      exec scenario (fun _ => false) tr = Some h →
      length tr <= 2 * 10
      ∧ (quiescent (final idle h) → Done scenario (final idle h))
      ∧ ∃ tr' h', exec scenario (fun _ => false) (tr ++ tr') = Some h'
                  ∧ Done scenario (final idle h').
Proof.
  apply (run_reaches_Done scenario (fun _ => false) 10); reflexivity.
Defined.

(** All ten attempts of the scenario failing, one after the other. *)
Example all_failures_end :
  (fun s => (successCount s, attemptNumber s, size (inFlight s), resolved s))
    <$> outcome_of scenario (fun _ => false)
          (flat_map (fun i => [Settle i; Finalize i]) (seq 1 10))
  = Some (0, 10, 0, true).
Proof. vm_compute. reflexivity. Qed.






(** *** The scenario *)

Section Scenario.
Variable listed : list state.
Hypothesis Hstart : first_fill ∈ listed.
Hypothesis Hclosed : closed listed = true.
Hypothesis Hok : forallb scenario_ok listed = true.
Hypothesis Hwinds : winds_down listed = true.
Variable outcome : nat -> bool.
Hypothesis Hscript : ∀ i, 1 <= i <= 5 → outcome i = script i.

Lemma listed_ok (s : state) :
  s ∈ listed →
  attemptNumber s <= 5 ∧ successCount s <= 3
  ∧ (resolved s = true → successCount s = 3 ∧ attemptNumber s = 5)
  ∧ (inFlight s = ∅ → resolved s = true)
  ∧ (∀ i, i ∈ inFlight s → 1 <= i <= 5).
Proof.
  intros Hin. apply list_elem_of_In in Hin.
  pose proof (proj1 (forallb_forall _ _) Hok s Hin) as H.
  unfold scenario_ok in H.
  apply andb_true_iff in H as [H Hids].
  apply andb_true_iff in H as [H Hdone].
  apply andb_true_iff in H as [H Hres].
  apply andb_true_iff in H as [Hn Hsc].
  apply Nat.leb_le in Hn, Hsc.
  split; [exact Hn|]. split; [exact Hsc|]. split; [|split].
  - intros Hr. rewrite Hr in Hres. cbn [implb] in Hres.
    apply andb_true_iff in Hres as [H1 H2].
    apply Nat.eqb_eq in H1, H2. split; assumption.
  - intros He. rewrite He, size_empty in Hdone. exact Hdone.
  - intros i Hi.
    assert (Hi' : In i (elements (inFlight s))).
    { apply list_elem_of_In, elem_of_elements. exact Hi. }
    pose proof (proj1 (forallb_forall _ _) Hids i Hi') as Hb.
    apply andb_true_iff in Hb as [H1 H2].
    apply Nat.leb_le in H1, H2. lia.
Qed.

Lemma listed_closed (s : state) (e : event) (path : list state) :
  s ∈ listed →
  step scenario script s e = Some path →
  if rushed s e
  then Exists (fun s' => attemptNumber s' = 6) path
  else Forall (fun s' => attemptNumber s' <= 5) path ∧ final s path ∈ listed.
Proof.
  intros Hin Hstep. apply list_elem_of_In in Hin.
  pose proof (proj1 (forallb_forall _ _) Hclosed s Hin) as H.
  pose proof (step_is_enabled scenario script s e path Hstep) as He.
  apply list_elem_of_In in He.
  pose proof (proj1 (forallb_forall _ _) H e He) as Hb. cbv beta in Hb.
  rewrite Hstep in Hb. destruct (rushed s e).
  - apply existsb_exists in Hb as (s' & Hs' & H6).
    apply Exists_exists. exists s'. split.
    + apply list_elem_of_In. exact Hs'.
    + now apply Nat.eqb_eq.
  - apply andb_true_iff in Hb as [Hpath Hfin].
    split.
    + apply Forall_forall. intros s' Hs'.
      apply Nat.leb_le. apply (proj1 (forallb_forall _ _) Hpath s').
      apply list_elem_of_In. exact Hs'.
    + apply bool_decide_eq_true in Hfin. exact Hfin.
Qed.

Lemma listed_step (s : state) (e : event) :
  s ∈ listed → step scenario outcome s e = step scenario script s e.
Proof.
  intros Hin. apply step_ext. intros i Hi. apply Hscript.
  apply (listed_ok s Hin). exact Hi.
Qed.

Lemma listed_run (tr : list event) :
  ∀ s path,
    s ∈ listed →
    run scenario outcome s tr = Some path →
    if calm_from s tr
    then Forall (fun s' => attemptNumber s' <= 5) path ∧ final s path ∈ listed
    else Exists (fun s' => attemptNumber s' = 6) path.
Proof.
  induction tr as [|e tr IH]; intros s path Hin Hrun; cbn in Hrun.
  - injection Hrun as <-. rewrite final_nil. cbn. split; [constructor|exact Hin].
  - rewrite (listed_step s e Hin) in Hrun.
    destruct (step scenario script s e) as [p|] eqn:Hstep;
      [|discriminate Hrun].
    cbn in Hrun.
    destruct (run scenario outcome (final s p) tr) as [rest|] eqn:Hrest;
      [|discriminate Hrun].
    cbn in Hrun. injection Hrun as <-.
    pose proof (listed_closed s e p Hin Hstep) as Hp.
    cbn [calm_from]. rewrite Hstep.
    destruct (rushed s e); cbn [negb andb].
    + apply Exists_app. left. exact Hp.
    + destruct Hp as [Hp Hin'].
      pose proof (IH (final s p) rest Hin' Hrest) as Hr.
      rewrite final_app.
      destruct (calm_from (final s p) tr).
      * destruct Hr as [Hr Hin'']. split; [|exact Hin''].
        apply Forall_app. split; assumption.
      * apply Exists_app. right. exact Hr.
Qed.

(** Along a schedule without a rushed callback the attempts resolve as in
    the script. *)
Lemma listed_run_script (tr : list event) :
  ∀ s, s ∈ listed → calm_from s tr = true →
    run scenario outcome s tr = run scenario script s tr.
Proof.
  induction tr as [|e tr IH]; intros s Hin Hcalm; [reflexivity|].
  cbn [run]. rewrite (listed_step s e Hin).
  destruct (step scenario script s e) as [p|] eqn:Hstep; [|reflexivity].
  cbn [mbind option_bind].
  pose proof (listed_closed s e p Hin Hstep) as Hp.
  cbn [calm_from] in Hcalm. rewrite Hstep in Hcalm.
  destruct (rushed s e); [discriminate Hcalm|]. cbn [negb andb] in Hcalm.
  destruct Hp as [_ Hin']. now rewrite (IH (final s p) Hin' Hcalm).
Qed.

Lemma calm_from_app (tr tr' : list event) :
  ∀ s path,
    run scenario script s tr = Some path →
    calm_from s (tr ++ tr') = calm_from s tr && calm_from (final s path) tr'.
Proof.
  induction tr as [|e tr IH]; intros s path Hrun; cbn in Hrun.
  - injection Hrun as <-. reflexivity.
  - destruct (step scenario script s e) as [p|] eqn:Hstep;
      [|discriminate Hrun].
    cbn in Hrun.
    destruct (run scenario script (final s p) tr) as [rest|] eqn:Hrest;
      [|discriminate Hrun].
    cbn in Hrun. injection Hrun as <-.
    cbn [app calm_from]. rewrite Hstep, final_app, (IH _ _ Hrest).
    now rewrite andb_assoc.
Qed.

Lemma listed_winds_down (s : state) :
  s ∈ listed →
  calm_from s (wind_down 10 s) = true
  ∧ ∃ path, run scenario script s (wind_down 10 s) = Some path
            ∧ inFlight (final s path) = ∅.
Proof.
  intros Hin. apply list_elem_of_In in Hin.
  pose proof (proj1 (forallb_forall _ _) Hwinds s Hin) as H. cbn beta in H.
  apply andb_true_iff in H as [Hcalm Hrun]. split; [exact Hcalm|].
  destruct (run scenario script s (wind_down 10 s)) as [path|];
    [|discriminate Hrun].
  exists path. split; [reflexivity|].
  apply Nat.eqb_eq in Hrun. now apply size_empty_inv, leibniz_equiv in Hrun.
Qed.

Lemma listed_exec (tr : list event) (h : list state) :
  exec scenario outcome tr = Some h →
  (calm tr = true →
   Forall (fun s => attemptNumber s <= 5) h
   ∧ (quiescent (final idle h) →
      successCount (final idle h) = 3 ∧ attemptNumber (final idle h) = 5
      ∧ resolved (final idle h) = true)
   ∧ ∃ tr' h', calm (tr ++ tr') = true
               ∧ exec scenario outcome (tr ++ tr') = Some h'
               ∧ quiescent (final idle h'))
  ∧ (calm tr = false → Exists (fun s => attemptNumber s = 6) h).
Proof.
  intros Hexec.
  destruct (exec_inv scenario outcome tr h Hexec)
    as (fill & rest & Hfill & Hrest & -> & Hfin).
  change (launchNext scenario idle)
    with (Some [launch idle; launch (launch idle)]) in Hfill.
  injection Hfill as <-.
  change (final idle [launch idle; launch (launch idle)])
    with first_fill in *.
  pose proof (listed_run tr first_fill rest Hstart Hrest) as Hrun.
  fold (calm tr) in Hrun. rewrite Hfin.
  split; intros Hcalm; rewrite Hcalm in Hrun.
  - destruct Hrun as [Hall Hin].
    destruct (listed_ok _ Hin) as (_ & _ & Hres & Hdone & _).
    split; [|split].
    + repeat (constructor; [cbn; lia|]). exact Hall.
    + intros Hq. specialize (Hres (Hdone Hq)). tauto.
    + destruct (listed_winds_down _ Hin) as (Hcalm' & path & Hpath & Hq).
      exists (wind_down 10 (final first_fill rest)).
      exists (idle :: [launch idle; launch (launch idle)] ++ rest ++ path).
      assert (Hscr : run scenario script first_fill tr = Some rest)
        by (now rewrite <- (listed_run_script tr first_fill Hstart Hcalm)).
      split; [|split].
      * unfold calm. rewrite (calm_from_app tr _ first_fill rest Hscr).
        fold (calm tr). now rewrite Hcalm, Hcalm'.
      * unfold exec.
        change (launchNext scenario idle)
          with (Some [launch idle; launch (launch idle)]).
        cbn [mbind option_bind].
        change (final idle [launch idle; launch (launch idle)])
          with first_fill.
        rewrite (run_app scenario outcome tr _ first_fill rest path Hrest).
        -- reflexivity.
        -- now rewrite (listed_run_script _ _ Hin Hcalm').
      * unfold quiescent. rewrite final_cons, !final_app.
        change (final idle [launch idle; launch (launch idle)])
          with first_fill.
        rewrite <- Hq. f_equal.
  - repeat (apply Exists_cons; right). exact Hrun.
Qed.

End Scenario.

Lemma first_fill_listed : first_fill ∈ reachable_states.
Proof. apply (proj1 (bool_decide_eq_true _)). vm_compute. reflexivity. Qed.

Lemma reachable_closed : closed reachable_states = true.
Proof. vm_compute. reflexivity. Qed.

Lemma reachable_ok : forallb scenario_ok reachable_states = true.
Proof. vm_compute. reflexivity. Qed.

Lemma reachable_winds_down : winds_down reachable_states = true.
Proof. vm_compute. reflexivity. Qed.

(** C3, as the orchestrator has it.  Target 3, two at a time, at most ten
    attempts, attempts 1 and 2 failing and 3, 4, 5 succeeding.  Call a
    [finally] callback rushed when it runs while five attempts are launched
    and fewer than three successes are counted.  Under every schedule
    without a rushed callback no attempt beyond the fifth is ever launched,
    the run at rest is resolved with [successCount = 3] and
    [attemptNumber = 5], and the schedule can be continued to rest without
    a rushed callback; under every schedule with a rushed callback a sixth
    attempt is launched. *)
Theorem scenario_without_a_rushed_callback (outcome : nat -> bool)
    (tr : list event) (h : list state) :
  outcome 1 = false → outcome 2 = false →
  outcome 3 = true → outcome 4 = true → outcome 5 = true →
  exec scenario outcome tr = Some h →
  (calm tr = true →
   Forall (fun s => attemptNumber s <= 5) h
   ∧ (quiescent (final idle h) →
      successCount (final idle h) = 3 ∧ attemptNumber (final idle h) = 5
      ∧ resolved (final idle h) = true)
   ∧ ∃ tr' h', calm (tr ++ tr') = true
               ∧ exec scenario outcome (tr ++ tr') = Some h'
               ∧ quiescent (final idle h'))
  ∧ (calm tr = false → Exists (fun s => attemptNumber s = 6) h).
Proof.
  intros H1 H2 H3 H4 H5 Hexec.
  assert (Hscript : ∀ i, 1 <= i <= 5 → outcome i = script i).
  { intros i Hi.
    assert (i = 1 ∨ i = 2 ∨ i = 3 ∨ i = 4 ∨ i = 5)
      as [-> | [-> | [-> | [-> | ->]]]] by lia; assumption. }
  exact (listed_exec reachable_states first_fill_listed reachable_closed
           reachable_ok reachable_winds_down outcome Hscript tr h Hexec).
Qed.

Lemma scenario_without_a_rushed_callback_witness :
  calm second_last = true
  ∧ ∃ h, exec scenario script second_last = Some h
         ∧ Forall (fun s => attemptNumber s <= 5) h
         ∧ quiescent (final idle h)
         ∧ successCount (final idle h) = 3 ∧ attemptNumber (final idle h) = 5
         ∧ resolved (final idle h) = true.
Proof.
  assert (Hcalm : calm second_last = true) by (vm_compute; reflexivity).
  split; [exact Hcalm|].
  destruct (exec scenario script second_last) as [h|] eqn:Hexec;
    [|vm_compute in Hexec; discriminate Hexec].
  exists h. split; [reflexivity|].
  destruct (proj1 (scenario_without_a_rushed_callback script second_last h
                     eq_refl eq_refl eq_refl eq_refl eq_refl Hexec) Hcalm)
    as (Hall & Hrest & _).
  assert (Hq : quiescent (final idle h)).
  { replace h with (default [] (exec scenario script second_last))
      by (now rewrite Hexec).
    vm_compute. reflexivity. }
  split; [exact Hall|]. split; [exact Hq|]. exact (Hrest Hq).
Defined.

(** The same scenario with the attempts completing in launch order: when
    the [finally] callback of attempt 4 runs, five attempts are launched
    and two successes are counted, so attempt 6 is launched; the run ends
    with six attempts launched. *)
Lemma scenario_in_launch_order_launches_sixth :
  let view s := (successCount s, attemptNumber s, elements (inFlight s),
                 resolved s) in
  view <$> outcome_of scenario script
             [Settle 1; Finalize 1; Settle 2; Finalize 2; Settle 3; Finalize 3;
              Settle 4; Finalize 4]
  = Some (2, 6, [6; 5], false)
  ∧ view <$> outcome_of scenario script
               [Settle 1; Finalize 1; Settle 2; Finalize 2; Settle 3;
                Finalize 3; Settle 4; Finalize 4; Settle 5; Finalize 5;
                Settle 6; Finalize 6]
    = Some (3, 6, [], true).
Proof. split; vm_compute; reflexivity. Qed.

End TurboFacts.

Module RaceQueueFacts.
Import Numbers NumbersFacts RaceQueue.
Local Open Scope nat_scope.
Local Open Scope list_scope.

Lemma rq_final_app (s : state) (p q : list state) :
  final s (p ++ q) = final (final s p) q.
Proof. unfold final. apply fold_left_app. Qed.

Lemma rq_final_cons (s a : state) (p : list state) :
  final s (a :: p) = final a p.
Proof. reflexivity. Qed.

Lemma rq_final_nil (s : state) : final s [] = s.
Proof. reflexivity. Qed.

Lemma rq_final_snoc (s a : state) (p : list state) : final s (p ++ [a]) = a.
Proof. now rewrite rq_final_app. Qed.

#[local] Arguments final : simpl never.

Section Facts.
Variable cfg : config.
Variable outcome : nat -> bool.

Lemma rq_launch_size (s : state) :
  consistent cfg s →
  size (activePromises (launch s)) = S (size (activePromises s)).
Proof.
  intros [_ Hids]. cbn. rewrite size_union.
  - now rewrite size_singleton.
  - apply disjoint_singleton_l. intros Hin. apply Hids in Hin. lia.
Qed.

Lemma rq_may_launch_true (s : state) :
  may_launch cfg s = true →
  below (size (activePromises s)) (MAX_CONCURRENT_REQUESTS cfg) = true
  ∧ below (successCount s) (loopCount cfg) = true.
Proof. unfold may_launch. rewrite andb_true_iff. tauto. Qed.

Lemma rq_may_launch_false (s : state) :
  may_launch cfg s = false →
  below (size (activePromises s)) (MAX_CONCURRENT_REQUESTS cfg) = false
  ∨ below (successCount s) (loopCount cfg) = false.
Proof. unfold may_launch. rewrite andb_false_iff. tauto. Qed.

Lemma rq_launch_consistent (s : state) :
  consistent cfg s → may_launch cfg s = true → consistent cfg (launch s).
Proof.
  intros Hs Hmay. pose proof (rq_launch_size s Hs) as Hsize.
  destruct (rq_may_launch_true s Hmay) as [Hroom _].
  destruct Hs as [Hf Hids]. split.
  - rewrite Hsize. clear - Hroom. limits; lia.
  - cbn. intros i [Hi|Hi]%elem_of_union.
    + apply elem_of_singleton in Hi. lia.
    + apply Hids in Hi. lia.
Qed.

(** What the loop of [queueNext] does when it ends. *)
Lemma queueLoop_sound (fuel : nat) :
  ∀ s path, consistent cfg s →
    queueLoop cfg fuel s = Some path →
    Forall (consistent cfg) path
    ∧ consistent cfg (final s path)
    ∧ may_launch cfg (final s path) = false
    ∧ successCount (final s path) = successCount s
    ∧ counted (final s path) = counted s
    ∧ pc (final s path) = pc s
    ∧ attemptNumber s <= attemptNumber (final s path)
    ∧ (may_launch cfg s = true →
       attemptNumber (final s path) ∈ activePromises (final s path)).
Proof.
  induction fuel as [|fuel IH]; intros s path Hs Hrun; cbn [queueLoop] in Hrun;
    destruct (may_launch cfg s) eqn:Hmay; try discriminate Hrun.
  - injection Hrun as <-. rewrite rq_final_nil.
    repeat (split; [auto; fail|]). discriminate.
  - destruct (queueLoop cfg fuel (launch s)) as [rest|] eqn:Hrest;
      [|discriminate Hrun].
    cbn in Hrun. injection Hrun as <-.
    pose proof (rq_launch_consistent s Hs Hmay) as Hs'.
    destruct (IH (launch s) rest Hs' Hrest)
      as (Hall & Hfin & Hstop & Hsc & Hc & Hpc & Hn & Hlast).
    rewrite rq_final_cons.
    split; [now constructor|].
    split; [exact Hfin|]. split; [exact Hstop|]. split; [exact Hsc|].
    split; [exact Hc|]. split; [exact Hpc|]. split; [cbn in Hn; lia|].
    intros _. destruct (may_launch cfg (launch s)) eqn:Hmay'.
    + now apply Hlast.
    + destruct fuel; cbn [queueLoop] in Hrest; rewrite Hmay' in Hrest;
        injection Hrest as <-; rewrite rq_final_nil; cbn;
        apply elem_of_union_l, elem_of_singleton; reflexivity.
  - injection Hrun as <-. rewrite rq_final_nil.
    repeat (split; [auto; fail|]). discriminate.
Qed.

Lemma queueNext_sound (s : state) (path : list state) :
  consistent cfg s →
  queueNext cfg s = Some path →
  Forall (consistent cfg) path
  ∧ consistent cfg (final s path)
  ∧ may_launch cfg (final s path) = false
  ∧ successCount (final s path) = successCount s
  ∧ counted (final s path) = counted s
  ∧ pc (final s path) = pc s
  ∧ attemptNumber s <= attemptNumber (final s path)
  ∧ (may_launch cfg s = true →
     attemptNumber (final s path) ∈ activePromises (final s path)).
Proof. intros Hs. now apply queueLoop_sound. Qed.

(** With an infinite concurrency the loop never ends, once it is
    entered. *)
Lemma queueLoop_diverges (fuel : nat) :
  MAX_CONCURRENT_REQUESTS cfg = Unbounded →
  ∀ s, may_launch cfg s = true → queueLoop cfg fuel s = None.
Proof.
  intros Hc. induction fuel as [|fuel IH]; intros s Hmay; cbn [queueLoop];
    rewrite Hmay; [reflexivity|].
  rewrite IH; [reflexivity|].
  unfold may_launch in *. rewrite Hc in *. cbn in *. exact Hmay.
Qed.

Lemma goto_consistent (c : control) (s : state) :
  consistent cfg s → consistent cfg (goto c s).
Proof. intros Hs. exact Hs. Qed.

Lemma loop_head_sound (s : state) (path : list state) :
  consistent cfg s →
  loop_head cfg s = Some path →
  Forall (consistent cfg) path ∧ consistent cfg (final s path).
Proof.
  intros Hs. unfold loop_head.
  destruct (below (successCount s) (loopCount cfg)).
  2:{ intros [= <-].
      split; [constructor; [exact Hs|constructor]|exact Hs]. }
  assert (∀ p,
            (if size (activePromises s) =? 0 then queueNext cfg s else Some [])
            = Some p
            → Forall (consistent cfg) p ∧ consistent cfg (final s p))
    as Hfill.
  { intros p. destruct (size (activePromises s) =? 0).
    - intros Hq. destruct (queueNext_sound s p Hs Hq) as (Hall & Hfin & _).
      auto.
    - intros [= <-]. rewrite rq_final_nil. auto. }
  destruct (if size (activePromises s) =? 0 then queueNext cfg s else Some [])
    as [p|]; [|discriminate].
  destruct (Hfill p eq_refl) as [Hall Hfin].
  cbn [mbind option_bind].
  destruct (size (activePromises (final s p)) =? 0);
    intros [= <-]; rewrite rq_final_snoc;
    (split; [apply Forall_app; split;
               [exact Hall|constructor; [exact Hfin|constructor]]
            |exact Hfin]).
Qed.

Lemma rq_delete_consistent (i : nat) (s : state) :
  consistent cfg s → consistent cfg (delete i s).
Proof.
  intros [Hf Hids].
  assert (Hle : size (activePromises s ∖ {[ i ]}) <= size (activePromises s))
    by (apply subseteq_size, subseteq_difference_l; reflexivity).
  split; cbn.
  - clear - Hf Hle. limits; lia.
  - intros j Hj. apply Hids. now apply elem_of_difference in Hj as [Hj _].
Qed.

Lemma rq_step_spec (s : state) (e : event) (path : list state) :
  consistent cfg s →
  step cfg outcome s e = Some path →
  Forall (consistent cfg) path ∧ consistent cfg (final s path).
Proof.
  intros Hs Hstep. destruct e as [i|i|]; cbn in Hstep.
  - destruct (decide _); [|discriminate Hstep]. injection Hstep as <-.
    split; [constructor; [exact Hs|constructor]|exact Hs].
  - destruct (decide _); [|discriminate Hstep]. injection Hstep as <-.
    pose proof (rq_delete_consistent i s Hs) as Hs'.
    split; [constructor; [exact Hs'|constructor]|exact Hs'].
  - destruct (pc s) as [|raced| |]; try discriminate Hstep.
    + destruct (decide _); [discriminate Hstep|].
      destruct (queueNext cfg (goto Running s)) as [p|] eqn:Hq;
        [|discriminate Hstep].
      cbn [mbind option_bind] in Hstep.
      destruct (queueNext_sound (goto Running s) p Hs Hq)
        as (Hall & Hfin & _).
      destruct (loop_head cfg (final (goto Running s) p)) as [rest|] eqn:Hl;
        [|discriminate Hstep].
      cbn [mbind option_bind] in Hstep.
      destruct (loop_head_sound _ rest Hfin Hl) as (Hall' & Hfin').
      injection Hstep as <-.
      rewrite rq_final_cons, rq_final_app.
      split; [|exact Hfin'].
      constructor; [exact Hs|]. apply Forall_app. split; assumption.
    + destruct (decide _); [|discriminate Hstep]. injection Hstep as <-.
      split; [constructor; [exact Hs|constructor]|exact Hs].
Qed.

Lemma rq_run_spec (tr : list event) :
  ∀ s path,
    consistent cfg s →
    run cfg outcome s tr = Some path →
    Forall (consistent cfg) path ∧ consistent cfg (final s path).
Proof.
  induction tr as [|e tr IH]; intros s path Hs Hrun; cbn [run] in Hrun.
  - injection Hrun as <-. rewrite rq_final_nil. auto.
  - destruct (step cfg outcome s e) as [p|] eqn:Hstep; [|discriminate Hrun].
    cbn [mbind option_bind] in Hrun.
    destruct (run cfg outcome (final s p) tr) as [rest|] eqn:Hrest;
      [|discriminate Hrun].
    cbn [mbind option_bind] in Hrun. injection Hrun as <-.
    destruct (rq_step_spec s e p Hs Hstep) as [Hall Hs'].
    destruct (IH _ _ Hs' Hrest) as [Hall' Hs''].
    rewrite rq_final_app. split; [apply Forall_app; split; assumption|].
    exact Hs''.
Qed.

Lemma rq_idle_consistent : consistent cfg idle.
Proof.
  split; cbn.
  - rewrite size_empty. limits; lia.
  - intros i Hi. now apply not_elem_of_empty in Hi.
Qed.

(** A run unfolds into its first fill, the way to the first [await] and
    the callbacks of its schedule. *)
Lemma rq_exec_inv (tr : list event) (h : list state) :
  exec cfg outcome tr = Some h →
  ∃ path head rest,
    queueNext cfg idle = Some path
    ∧ loop_head cfg (final idle path) = Some head
    ∧ run cfg outcome (final (final idle path) head) tr = Some rest
    ∧ h = idle :: path ++ head ++ rest
    ∧ final idle h = final (final (final idle path) head) rest.
Proof.
  unfold exec. intros Hexec.
  destruct (queueNext cfg idle) as [path|] eqn:Hq; [|discriminate Hexec].
  cbn [mbind option_bind] in Hexec.
  destruct (loop_head cfg (final idle path)) as [head|] eqn:Hl;
    [|discriminate Hexec].
  cbn [mbind option_bind] in Hexec.
  destruct (run cfg outcome (final idle (path ++ head)) tr) as [rest|] eqn:Hrest;
    [|discriminate Hexec].
  cbn [mbind option_bind] in Hexec. injection Hexec as <-.
  rewrite rq_final_app in Hrest.
  exists path, head, rest. rewrite rq_final_cons, !rq_final_app.
  repeat split; assumption || reflexivity.
Qed.

Lemma rq_exec_consistent (tr : list event) (h : list state) :
  exec cfg outcome tr = Some h → Forall (consistent cfg) h.
Proof.
  intros Hexec.
  destruct (rq_exec_inv tr h Hexec)
    as (path & head & rest & Hq & Hl & Hrest & -> & _).
  destruct (queueNext_sound idle path rq_idle_consistent Hq)
    as (Hall & Hfin & _).
  destruct (loop_head_sound _ head Hfin Hl) as (Hall' & Hfin').
  destruct (rq_run_spec tr _ _ Hfin' Hrest) as [Hall'' _].
  constructor; [apply rq_idle_consistent|].
  repeat (apply Forall_app; split); assumption.
Qed.

(** *** With a finite concurrency the loops end *)

Section Slots.
Variable slots : nat.
Hypothesis Hslots : roof (MAX_CONCURRENT_REQUESTS cfg) = Some slots.

Lemma rq_room (n : nat) :
  below n (MAX_CONCURRENT_REQUESTS cfg) = (n <? slots).
Proof.
  apply eq_true_iff_eq. rewrite below_spec, Hslots. symmetry.
  apply Nat.ltb_lt.
Qed.

Lemma queueLoop_total (fuel : nat) :
  ∀ s, consistent cfg s → slots - size (activePromises s) <= fuel →
    is_Some (queueLoop cfg fuel s).
Proof.
  induction fuel as [|fuel IH]; intros s Hs Hfuel; cbn [queueLoop];
    destruct (may_launch cfg s) eqn:Hmay; eauto.
  - destruct (rq_may_launch_true s Hmay) as [Hroom _].
    rewrite rq_room in Hroom. apply Nat.ltb_lt in Hroom. lia.
  - destruct (IH (launch s)) as [rest ->]; eauto.
    + now apply rq_launch_consistent.
    + rewrite (rq_launch_size s Hs). lia.
Qed.

Lemma queueNext_total (s : state) :
  consistent cfg s → is_Some (queueNext cfg s).
Proof.
  intros Hs. unfold queueNext, free_slots. rewrite Hslots.
  now apply queueLoop_total.
Qed.

Lemma loop_head_total (s : state) :
  consistent cfg s → is_Some (loop_head cfg s).
Proof.
  intros Hs. unfold loop_head.
  destruct (below (successCount s) (loopCount cfg)); [|eauto].
  destruct (size (activePromises s) =? 0).
  - destruct (queueNext_total s Hs) as [p ->]. cbn [mbind option_bind].
    destruct (size (activePromises (final s p)) =? 0); eauto.
  - cbn [mbind option_bind].
    destruct (size (activePromises (final s [])) =? 0); eauto.
Qed.

End Slots.

End Facts.

(** X7. The race-based queue keeps the number of active promises below
    [MAX_CONCURRENT_REQUESTS + 1] in every state a run passes through: at
    most [MAX_CONCURRENT_REQUESTS] promises when that is a whole number,
    and one more than its whole part when it is not. *)
Lemma race_queue_concurrency_bound (cfg : config) (outcome : nat -> bool)
    (tr : list event) (h : list state) :
  exec cfg outcome tr = Some h →
  Forall (fun s => upto (size (activePromises s))
                     (MAX_CONCURRENT_REQUESTS cfg)) h
  ∧ ∀ slots, MAX_CONCURRENT_REQUESTS cfg = whole slots →
      Forall (fun s => size (activePromises s) <= slots) h.
Proof.
  intros Hexec.
  assert (Hall : Forall (fun s => upto (size (activePromises s))
                                    (MAX_CONCURRENT_REQUESTS cfg)) h).
  { eapply Forall_impl with (P := consistent cfg); [|now intros s [Hb _]].
    exact (rq_exec_consistent cfg outcome tr h Hexec). }
  split; [exact Hall|].
  intros slots Hslots. eapply Forall_impl; [exact Hall|].
  intros s Hs. cbn beta in Hs. rewrite Hslots in Hs.
  now apply (proj1 (upto_whole _ _)) in Hs.
Qed.

(** *** When every attempt fails *)

Section AllFail.
Variable cfg : config.
Hypothesis Htarget : below 0 (loopCount cfg) = true.
Hypothesis Hroom : below 0 (MAX_CONCURRENT_REQUESTS cfg) = true.

Lemma queueNext_fills (s : state) (path : list state) :
  consistent cfg s → successCount s = 0 →
  queueNext cfg s = Some path →
  consistent cfg (final s path)
  ∧ successCount (final s path) = 0
  ∧ size (activePromises (final s path)) ≠ 0
  ∧ below (size (activePromises (final s path)))
      (MAX_CONCURRENT_REQUESTS cfg) = false.
Proof.
  intros Hs Hsc Hq.
  destruct (queueNext_sound cfg s path Hs Hq)
    as (_ & Hfin & Hstop & Hsc' & _).
  assert (Hfull : below (size (activePromises (final s path)))
                    (MAX_CONCURRENT_REQUESTS cfg) = false).
  { destruct (rq_may_launch_false cfg _ Hstop) as [H|H]; [exact H|].
    rewrite Hsc', Hsc in H. congruence. }
  split; [exact Hfin|]. split; [congruence|]. split; [|exact Hfull].
  intros H0. rewrite H0 in Hfull. congruence.
Qed.

Lemma loop_head_races (s : state) (path : list state) :
  consistent cfg s → successCount s = 0 →
  loop_head cfg s = Some path → waiting cfg (final s path).
Proof.
  intros Hs Hsc. unfold loop_head. rewrite Hsc, Htarget.
  destruct (size (activePromises s) =? 0) eqn:Hz.
  - destruct (queueNext cfg s) as [p|] eqn:Hq; [|discriminate].
    cbn [mbind option_bind].
    destruct (queueNext_fills s p Hs Hsc Hq) as (Hfin & Hsc' & Hfull & _).
    apply Nat.eqb_neq in Hfull. rewrite Hfull.
    intros [= <-]. rewrite rq_final_snoc.
    split; [exact Hfin|]. split; [exact Hsc'|]. cbn. eauto.
  - cbn [mbind option_bind]. rewrite rq_final_nil, Hz.
    intros [= <-]. cbn [app]. rewrite rq_final_cons, rq_final_nil.
    split; [exact Hs|]. split; [exact Hsc|]. cbn. eauto.
Qed.

Lemma waiting_step (s : state) (e : event) (path : list state) :
  waiting cfg s → step cfg fails s e = Some path → waiting cfg (final s path).
Proof.
  intros (Hs & Hsc & raced & Hpc) Hstep.
  destruct e as [i|i|]; cbn in Hstep.
  - destruct (decide _); [|discriminate Hstep]. injection Hstep as <-.
    split; [exact Hs|]. split; [exact Hsc|]. cbn. eauto.
  - destruct (decide _); [|discriminate Hstep]. injection Hstep as <-.
    split; [now apply rq_delete_consistent|]. split; [exact Hsc|]. cbn. eauto.
  - rewrite Hpc in Hstep.
    destruct (decide _); [discriminate Hstep|].
    destruct (queueNext cfg (goto Running s)) as [p|] eqn:Hq;
      [|discriminate Hstep].
    cbn [mbind option_bind] in Hstep.
    destruct (loop_head cfg (final (goto Running s) p)) as [rest|] eqn:Hl;
      [|discriminate Hstep].
    cbn [mbind option_bind] in Hstep. injection Hstep as <-.
    destruct (queueNext_sound cfg (goto Running s) p Hs Hq)
      as (_ & Hfin & _ & Hsc' & _).
    rewrite rq_final_cons, rq_final_app.
    apply (loop_head_races _ rest Hfin); [|exact Hl].
    rewrite Hsc'. exact Hsc.
Qed.

Lemma waiting_run (tr : list event) :
  ∀ s path,
    waiting cfg s → run cfg fails s tr = Some path → waiting cfg (final s path).
Proof.
  induction tr as [|e tr IH]; intros s path Hw Hrun; cbn [run] in Hrun.
  - injection Hrun as <-. now rewrite rq_final_nil.
  - destruct (step cfg fails s e) as [p|] eqn:Hstep; [|discriminate Hrun].
    cbn [mbind option_bind] in Hrun.
    destruct (run cfg fails (final s p) tr) as [rest|] eqn:Hrest;
      [|discriminate Hrun].
    cbn [mbind option_bind] in Hrun. injection Hrun as <-.
    rewrite rq_final_app. apply (IH _ _ (waiting_step s e p Hw Hstep) Hrest).
Qed.

(** X8. Without an attempt budget the all-failures run never ends: under every
    schedule the main function is still suspended at the race, with nothing
    counted. *)
Lemma all_failures_never_finish (tr : list event) (h : list state) :
  exec cfg fails tr = Some h →
  successCount (final idle h) = 0 ∧ ∃ raced, pc (final idle h) = Racing raced.
Proof.
  intros Hexec.
  destruct (rq_exec_inv cfg fails tr h Hexec)
    as (path & head & rest & Hq & Hl & Hrest & _ & ->).
  destruct (queueNext_sound cfg idle path (rq_idle_consistent cfg) Hq)
    as (_ & Hfin & _ & Hsc & _).
  pose proof (loop_head_races (final idle path) head Hfin Hsc Hl) as Hw.
  destruct (waiting_run tr _ _ Hw Hrest) as (_ & H0 & Hr). auto.
Qed.

Lemma rq_run_app (outcome : nat -> bool) (tr tr' : list event) :
  ∀ s path rest,
    run cfg outcome s tr = Some path →
    run cfg outcome (final s path) tr' = Some rest →
    run cfg outcome s (tr ++ tr') = Some (path ++ rest).
Proof.
  induction tr as [|e tr IH]; intros s path rest Hrun Hrest; cbn [run app] in *.
  - injection Hrun as <-. exact Hrest.
  - destruct (step cfg outcome s e) as [p|]; [|discriminate Hrun].
    cbn [mbind option_bind] in *.
    destruct (run cfg outcome (final s p) tr) as [q|] eqn:Hq;
      [|discriminate Hrun].
    cbn [mbind option_bind] in Hrun. injection Hrun as <-.
    rewrite rq_final_app in Hrest.
    rewrite (IH _ _ _ Hq Hrest). cbn [mbind option_bind].
    now rewrite app_assoc.
Qed.

Lemma rq_exec_app (outcome : nat -> bool) (tr tr' : list event)
    (h rest : list state) :
  exec cfg outcome tr = Some h →
  run cfg outcome (final idle h) tr' = Some rest →
  exec cfg outcome (tr ++ tr') = Some (h ++ rest).
Proof.
  unfold exec. intros Hexec Hrest.
  destruct (queueNext cfg idle) as [path|]; [|discriminate Hexec].
  cbn [mbind option_bind] in *.
  destruct (loop_head cfg (final idle path)) as [head|]; [|discriminate Hexec].
  cbn [mbind option_bind] in *.
  destruct (run cfg outcome (final idle (path ++ head)) tr) as [p|] eqn:Hp;
    [|discriminate Hexec].
  cbn [mbind option_bind] in Hexec. injection Hexec as <-.
  rewrite rq_final_cons, app_assoc, rq_final_app in Hrest.
  rewrite (rq_run_app outcome tr tr' _ p rest Hp Hrest).
  cbn [mbind option_bind]. rewrite <- app_comm_cons, <- !app_assoc.
  reflexivity.
Qed.

Section Slots.
Variable slots : nat.
Hypothesis Hslots : roof (MAX_CONCURRENT_REQUESTS cfg) = Some slots.

(** The first fill takes every slot. *)
Lemma start_racing_full :
  ∃ h, exec cfg fails [] = Some h ∧ racing_full cfg (final idle h).
Proof.
  unfold exec.
  destruct (queueNext_total cfg slots Hslots idle (rq_idle_consistent cfg))
    as [path Hq].
  rewrite Hq. cbn [mbind option_bind].
  destruct (queueNext_sound cfg idle path (rq_idle_consistent cfg) Hq)
    as (_ & [Hle Hids] & Hstop & Hsc & Hc & _ & _ & Hlast).
  destruct (queueNext_fills idle path (rq_idle_consistent cfg) eq_refl Hq)
    as (_ & _ & Hnz & Hfull).
  assert (Hsize : size (activePromises (final idle path)) = slots).
  { rewrite (rq_room cfg slots Hslots) in Hfull. apply Nat.ltb_ge in Hfull.
    unfold upto in Hle. rewrite Hslots in Hle. lia. }
  unfold loop_head. rewrite Hsc. cbn [successCount idle]. rewrite Htarget.
  apply Nat.eqb_neq in Hnz.
  rewrite Hnz. cbn [mbind option_bind]. rewrite rq_final_nil, Hnz.
  cbn [run app mbind option_bind].
  eexists. split; [reflexivity|].
  rewrite rq_final_cons, rq_final_snoc.
  split; [exact Hsc|]. split; [exact Hc|]. split; [reflexivity|].
  split; [|split; [cbn; now rewrite Hsize|exact Hids]].
  apply Hlast. unfold may_launch. apply andb_true_iff.
  split; [|exact Htarget].
  change (activePromises idle) with (∅ : gset nat). rewrite size_empty.
  exact Hroom.
Qed.

(** One more round: the latest attempt fails and completes, the main
    function wakes up and fills the free slot with a new attempt. *)
Lemma one_more_round (s : state) :
  racing_full cfg s →
  ∃ path,
    run cfg fails s
      [Settle (attemptNumber s); Finalize (attemptNumber s); Resume]
    = Some path
    ∧ racing_full cfg (final s path)
    ∧ attemptNumber (final s path) = S (attemptNumber s).
Proof.
  intros (Hsc & Hc & Hpc & Hin & Hsize & Hids).
  rewrite Hslots in Hsize. injection Hsize as Hsize.
  set (n := attemptNumber s) in *.
  set (s1 := count_success fails n s).
  set (s2 := delete n s1).
  set (s3 := launch (goto Running s2)).
  set (s4 := goto (Racing (activePromises s3)) s3).
  assert (Hsz2 : S (size (activePromises s2)) = slots).
  { rewrite Hsize. cbn.
    rewrite size_difference by (now apply singleton_subseteq_l).
    rewrite size_singleton.
    assert (size (activePromises s) ≠ 0); [|lia].
    intros H0. apply size_empty_inv, leibniz_equiv in H0.
    rewrite H0 in Hin. now apply not_elem_of_empty in Hin. }
  assert (Hfresh : S n ∉ activePromises s2).
  { cbn. intros [Hi _]%elem_of_difference. apply Hids in Hi. lia. }
  assert (Hsz3 : size (activePromises s3) = slots).
  { cbn -[s2]. rewrite size_union by (now apply disjoint_singleton_l).
    rewrite size_singleton. lia. }
  exists [s1; s2; goto Running s2; s3; s4].
  split; [|split; [|reflexivity]].
  - cbn [run step].
    rewrite decide_True.
    2:{ split; [exact Hin|]. rewrite Hc. apply not_elem_of_empty. }
    cbn [mbind option_bind]. rewrite rq_final_cons, rq_final_nil.
    fold s1. rewrite decide_True.
    2:{ cbn. apply elem_of_union_l, elem_of_singleton. reflexivity. }
    cbn [mbind option_bind]. rewrite rq_final_cons, rq_final_nil.
    fold s2. change (pc s2) with (pc s). rewrite Hpc.
    rewrite decide_False.
    2:{ intros Hsub. apply Hsub in Hin. cbn in Hin.
        apply elem_of_difference in Hin as [_ Hin].
        apply Hin, elem_of_singleton. reflexivity. }
    assert (Hq : queueNext cfg (goto Running s2) = Some [s3]).
    { unfold queueNext, free_slots. rewrite Hslots.
      replace (slots - size (activePromises (goto Running s2))) with 1
        by (change (activePromises (goto Running s2)) with (activePromises s2);
            lia).
      cbn [queueLoop].
      assert (Hmay : may_launch cfg (goto Running s2) = true).
      { unfold may_launch. apply andb_true_iff. split.
        - change (activePromises (goto Running s2)) with (activePromises s2).
          rewrite (rq_room cfg slots Hslots). apply Nat.ltb_lt. lia.
        - change (successCount (goto Running s2)) with (successCount s).
          rewrite Hsc. exact Htarget. }
      rewrite Hmay. fold s3.
      assert (Hstop : may_launch cfg s3 = false).
      { unfold may_launch. apply andb_false_iff. left.
        rewrite (rq_room cfg slots Hslots). apply Nat.ltb_ge. lia. }
      rewrite Hstop. reflexivity. }
    rewrite Hq. cbn [mbind option_bind]. rewrite rq_final_cons, rq_final_nil.
    assert (Hl : loop_head cfg s3 = Some [s4]).
    { unfold loop_head.
      change (successCount s3) with (successCount s). rewrite Hsc, Htarget.
      assert (Hnz : (size (activePromises s3) =? 0) = false)
        by (apply Nat.eqb_neq; lia).
      rewrite Hnz. cbn [mbind option_bind]. rewrite rq_final_nil, Hnz.
      reflexivity. }
    rewrite Hl. cbn [mbind option_bind]. reflexivity.
  - change (final s [s1; s2; goto Running s2; s3; s4]) with s4.
    split; [cbn; exact Hsc|]. split; [|split; [reflexivity|]].
    + cbn. rewrite Hc. apply leibniz_equiv. intros i. split.
      * intros [Hi Hni]%elem_of_difference.
        apply elem_of_union in Hi as [Hi|Hi]; [contradiction|].
        now apply not_elem_of_empty in Hi.
      * intros Hi. now apply not_elem_of_empty in Hi.
    + split; [|split].
      * cbn. apply elem_of_union_l, elem_of_singleton. reflexivity.
      * change (activePromises s4) with (activePromises s3).
        now rewrite Hsz3.
      * cbn. intros i [Hi|Hi]%elem_of_union.
        -- apply elem_of_singleton in Hi. subst i. fold n. lia.
        -- apply elem_of_difference in Hi as [Hi _]. apply Hids in Hi.
           fold n in Hi |- *. lia.
Qed.

Lemma racing_full_reachable (k : nat) :
  ∃ tr h, exec cfg fails tr = Some h
          ∧ racing_full cfg (final idle h)
          ∧ k <= attemptNumber (final idle h).
Proof.
  induction k as [|k IH].
  - destruct start_racing_full as (h & Hexec & Hfull).
    exists [], h. split; [exact Hexec|]. split; [exact Hfull|lia].
  - destruct IH as (tr & h & Hexec & Hfull & Hk).
    destruct (one_more_round _ Hfull) as (path & Hrun & Hfull' & Hn).
    eexists _, (h ++ path).
    split; [exact (rq_exec_app fails tr _ h path Hexec Hrun)|].
    rewrite rq_final_app. split; [exact Hfull'|lia].
Qed.

(** X9. When every attempt fails, the race-based queue launches more
    attempts than any given number: it has no attempt budget. *)
Lemma all_failures_unbounded (k : nat) :
  ∃ tr h, exec cfg fails tr = Some h ∧ k <= attemptNumber (final idle h).
Proof.
  destruct (racing_full_reachable k) as (tr & h & Hexec & _ & Hk). eauto.
Qed.

End Slots.

End AllFail.

End RaceQueueFacts.

Module TurboCounts.
Import Numbers NumbersFacts Turbo TurboFacts Tally.
Local Open Scope nat_scope.
Local Open Scope list_scope.
#[local] Arguments final : simpl never.

(** *** Invariants of a run

    A property that holds at the start and that each launch, each callback
    and the resolution keep, holds in every state of every run. *)
Section Invariants.
Variable cfg : config.
Variable outcome : nat -> bool.
Variable P : state -> Prop.

Hypothesis P_launch :
  ∀ s, consistent cfg s → P s → may_launch cfg s = true → P (launch s).
Hypothesis P_resolve :
  ∀ s, consistent cfg s → P s → finished cfg s = true → P (resolve s).
Hypothesis P_count :
  ∀ s i, consistent cfg s → P s → i ∈ inFlight s → i ∉ counted s →
         P (count_success outcome i s).
Hypothesis P_delete :
  ∀ s i, consistent cfg s → P s → i ∈ counted s → P (delete i s).

Lemma resolve_consistent (s : state) :
  consistent cfg s → finished cfg s = true → consistent cfg (resolve s).
Proof.
  intros (Hb & Hsub & Hids & Hres) Hfin.
  split; [exact Hb|]. split; [exact Hsub|]. split; [exact Hids|].
  intros _. destruct (finished_true cfg s Hfin) as [H | [H _]]; auto.
Qed.

Lemma launchLoop_invariant (fuel : nat) :
  ∀ s path, kept cfg P s →
    launchLoop cfg fuel s = Some path →
    Forall (kept cfg P) path ∧ kept cfg P (final s path).
Proof.
  induction fuel as [|fuel IH]; intros s path [Hs HP] Hrun;
    cbn [launchLoop] in Hrun; destruct (may_launch cfg s) eqn:Hm.
  - discriminate Hrun.
  - injection Hrun as <-. rewrite final_nil. split; [constructor|now split].
  - destruct (launchLoop cfg fuel (launch s)) as [rest|] eqn:Hrest;
      [|discriminate Hrun].
    cbn in Hrun. injection Hrun as <-.
    assert (H' : kept cfg P (launch s)).
    { split; [now apply launch_consistent|now apply P_launch]. }
    destruct (IH _ _ H' Hrest) as [Hall Hfin].
    rewrite final_cons. split; [now constructor|exact Hfin].
  - injection Hrun as <-. rewrite final_nil. split; [constructor|now split].
Qed.

Lemma launchNext_invariant (s : state) (path : list state) :
  kept cfg P s → launchNext cfg s = Some path →
  Forall (kept cfg P) path ∧ kept cfg P (final s path).
Proof.
  intros [Hs HP]. unfold launchNext. destruct (finished cfg s) eqn:Hfin.
  - intros [= <-]. rewrite final_cons, final_nil.
    assert (kept cfg P (resolve s)).
    { split; [now apply resolve_consistent|now apply P_resolve]. }
    split; [constructor; [assumption|constructor]|assumption].
  - apply launchLoop_invariant. now split.
Qed.

Lemma step_invariant (s : state) (e : event) (path : list state) :
  kept cfg P s → step cfg outcome s e = Some path →
  Forall (kept cfg P) path ∧ kept cfg P (final s path).
Proof.
  intros [Hs HP] Hstep. destruct e as [i|i]; cbn in Hstep.
  - destruct (decide _) as [[Hi Hni]|]; [|discriminate Hstep].
    injection Hstep as <-. rewrite final_cons, final_nil.
    assert (kept cfg P (count_success outcome i s)).
    { split; [now apply count_success_consistent|now apply P_count]. }
    split; [constructor; [assumption|constructor]|assumption].
  - destruct (decide _) as [Hi|]; [|discriminate Hstep].
    destruct (launchNext cfg (delete i s)) as [rest|] eqn:Hrest;
      [|discriminate Hstep].
    cbn in Hstep. injection Hstep as <-.
    assert (H' : kept cfg P (delete i s)).
    { split; [now apply delete_consistent|now apply P_delete]. }
    destruct (launchNext_invariant _ _ H' Hrest) as [Hall Hfin].
    rewrite final_cons. split; [now constructor|exact Hfin].
Qed.

Lemma run_invariant (tr : list event) :
  ∀ s path, kept cfg P s →
    run cfg outcome s tr = Some path →
    Forall (kept cfg P) path ∧ kept cfg P (final s path).
Proof.
  induction tr as [|e tr IH]; intros s path Hs Hrun; cbn in Hrun.
  - injection Hrun as <-. rewrite final_nil. split; [constructor|assumption].
  - destruct (step cfg outcome s e) as [p|] eqn:Hstep; [|discriminate Hrun].
    cbn in Hrun.
    destruct (run cfg outcome (final s p) tr) as [rest|] eqn:Hrest;
      [|discriminate Hrun].
    cbn in Hrun. injection Hrun as <-.
    destruct (step_invariant s e p Hs Hstep) as [Hall Hs'].
    destruct (IH _ _ Hs' Hrest) as [Hall' Hs''].
    rewrite final_app. split; [now apply Forall_app|exact Hs''].
Qed.

Lemma exec_invariant (tr : list event) (h : list state) :
  P idle →
  exec cfg outcome tr = Some h →
  Forall P h ∧ P (final idle h).
Proof.
  intros HP Hexec. unfold exec in Hexec.
  assert (H0 : kept cfg P idle) by (split; [apply idle_consistent|exact HP]).
  destruct (launchNext cfg idle) as [path|] eqn:Hfill; [|discriminate Hexec].
  cbn in Hexec.
  destruct (run cfg outcome (final idle path) tr) as [rest|] eqn:Hrest;
    [|discriminate Hexec].
  cbn in Hexec. injection Hexec as <-.
  destruct (launchNext_invariant _ _ H0 Hfill) as [Hall Hs].
  destruct (run_invariant tr _ _ Hs Hrest) as [Hall' Hs'].
  rewrite final_cons, final_app. split; [|exact (proj2 Hs')].
  apply (Forall_impl (kept cfg P)); [|intros s Hi; exact (proj2 Hi)].
  constructor; [exact H0|now apply Forall_app].
Qed.

End Invariants.

(** *** Counting *)

Lemma successes_app (outcome : nat -> bool) (tr tr' : list event) :
  successes outcome (tr ++ tr') = successes outcome tr + successes outcome tr'.
Proof. unfold successes. now rewrite List.filter_app, length_app. Qed.

Section Counting.
Variable cfg : config.
Variable outcome : nat -> bool.

Lemma launchLoop_keeps_count (fuel : nat) :
  ∀ s path, launchLoop cfg fuel s = Some path →
    successCount (final s path) = successCount s.
Proof.
  induction fuel as [|fuel IH]; intros s path Hrun; cbn [launchLoop] in Hrun;
    destruct (may_launch cfg s).
  - discriminate Hrun.
  - injection Hrun as <-. now rewrite final_nil.
  - destruct (launchLoop cfg fuel (launch s)) as [rest|] eqn:Hrest;
      [|discriminate Hrun].
    cbn in Hrun. injection Hrun as <-.
    rewrite final_cons. now rewrite (IH _ _ Hrest).
  - injection Hrun as <-. now rewrite final_nil.
Qed.

Lemma launchNext_keeps_count (s : state) (path : list state) :
  launchNext cfg s = Some path → successCount (final s path) = successCount s.
Proof.
  unfold launchNext. destruct (finished cfg s).
  - intros [= <-]. now rewrite final_cons, final_nil.
  - apply launchLoop_keeps_count.
Qed.

Lemma step_counts (s : state) (e : event) (path : list state) :
  step cfg outcome s e = Some path →
  successCount (final s path) = successCount s + successes outcome [e].
Proof.
  destruct e as [i|i]; cbn; intros Hstep.
  - destruct (decide _); [|discriminate Hstep]. injection Hstep as <-.
    rewrite final_cons, final_nil. unfold successes. cbn.
    destruct (outcome i); cbn; lia.
  - destruct (decide _); [|discriminate Hstep].
    destruct (launchNext cfg (delete i s)) as [rest|] eqn:Hrest;
      [|discriminate Hstep].
    cbn in Hstep. injection Hstep as <-. rewrite final_cons.
    rewrite (launchNext_keeps_count _ _ Hrest). unfold successes. cbn. lia.
Qed.

Lemma run_counts (tr : list event) :
  ∀ s path, run cfg outcome s tr = Some path →
    successCount (final s path) = successCount s + successes outcome tr.
Proof.
  induction tr as [|e tr IH]; intros s path Hrun; cbn in Hrun.
  - injection Hrun as <-. rewrite final_nil. unfold successes. cbn. lia.
  - destruct (step cfg outcome s e) as [p|] eqn:Hstep; [|discriminate Hrun].
    cbn in Hrun.
    destruct (run cfg outcome (final s p) tr) as [rest|] eqn:Hrest;
      [|discriminate Hrun].
    cbn in Hrun. injection Hrun as <-.
    rewrite final_app, (IH _ _ Hrest), (step_counts _ _ _ Hstep).
    change (e :: tr) with ([e] ++ tr). rewrite successes_app. lia.
Qed.

Lemma exec_counts (tr : list event) (h : list state) :
  exec cfg outcome tr = Some h →
  successCount (final idle h) = successes outcome tr.
Proof.
  unfold exec. intros Hexec.
  destruct (launchNext cfg idle) as [path|] eqn:Hfill; [|discriminate Hexec].
  cbn in Hexec.
  destruct (run cfg outcome (final idle path) tr) as [rest|] eqn:Hrest;
    [|discriminate Hexec].
  cbn in Hexec. injection Hexec as <-.
  rewrite final_cons, final_app, (run_counts _ _ _ Hrest).
  now rewrite (launchNext_keeps_count _ _ Hfill).
Qed.

End Counting.

(** The sizes of the set of uncounted attempts. *)
Lemma uncounted_launch (cfg : config) (s : state) :
  consistent cfg s → size (uncounted (launch s)) = S (size (uncounted s)).
Proof.
  intros Hs. pose proof (launch_fresh cfg s Hs) as Hfresh.
  destruct Hs as (_ & Hsub & _).
  unfold uncounted. cbn.
  replace (({[S (attemptNumber s)]} ∪ inFlight s) ∖ counted s)
    with ({[S (attemptNumber s)]} ∪ inFlight s ∖ counted s).
  - rewrite size_union, size_singleton; [reflexivity|].
    apply disjoint_singleton_l. intros H. apply elem_of_difference in H.
    tauto.
  - apply leibniz_equiv. intros x.
    rewrite elem_of_union, !elem_of_difference, elem_of_union, elem_of_singleton.
    split; [|tauto]. intros [->|H]; [|tauto].
    split; [now left|]. intros Hc. apply Hfresh, Hsub, Hc.
Qed.

Lemma uncounted_count (outcome : nat -> bool) (i : nat) (s : state) :
  i ∈ inFlight s → i ∉ counted s →
  S (size (uncounted (count_success outcome i s))) = size (uncounted s).
Proof.
  intros Hi Hni. unfold uncounted. cbn.
  replace (inFlight s ∖ ({[i]} ∪ counted s))
    with ((inFlight s ∖ counted s) ∖ {[i]}).
  - apply size_delete. apply elem_of_difference. now split.
  - apply leibniz_equiv. intros x.
    rewrite !elem_of_difference, elem_of_union, elem_of_singleton. tauto.
Qed.

Lemma uncounted_delete (i : nat) (s : state) :
  i ∈ counted s → uncounted (delete i s) = uncounted s.
Proof.
  intros Hi. unfold uncounted. cbn. apply leibniz_equiv. intros x.
  rewrite !elem_of_difference, elem_of_singleton.
  split; [tauto|]. intros [Hx Hnc]. split; [|tauto].
  split; [exact Hx|]. intros ->. contradiction.
Qed.

Lemma uncounted_le (s : state) : size (uncounted s) <= size (inFlight s).
Proof. apply subseteq_size. unfold uncounted. apply subseteq_difference_l. reflexivity. Qed.


(** X1. In every run, the counter of successes equals the number
    of [then] callbacks that received [true], and no attempt is lost:
    successes plus attempts still waiting for their result never exceed
    the attempts launched. *)
Theorem successes_are_counted_once (cfg : config) (outcome : nat -> bool)
    (tr : list event) (h : list state) :
  exec cfg outcome tr = Some h →
  successCount (final idle h) = successes outcome tr
  ∧ Forall (fun s => successCount s + size (uncounted s) <= attemptNumber s) h.
Proof.
  intros Hexec. split; [now apply (exec_counts cfg)|].
  refine (proj1 (exec_invariant cfg outcome
            (fun s => successCount s + size (uncounted s) <= attemptNumber s)
            _ _ _ _ tr h _ Hexec)).
  - intros s Hs HP _. rewrite (uncounted_launch cfg s Hs). cbn. lia.
  - intros s _ HP _. exact HP.
  - intros s i _ HP Hi Hni.
    pose proof (uncounted_count outcome i s Hi Hni) as Hsz.
    cbn [successCount attemptNumber count_success].
    destruct (outcome i); lia.
  - intros s i _ HP Hi. rewrite (uncounted_delete i s Hi). exact HP.
  - cbn. unfold uncounted. cbn. rewrite difference_diag_L, size_empty. lia.
Qed.

Lemma successes_are_counted_once_witness :
  ∃ h, exec scenario script
         [Settle 2; Finalize 2; Settle 3; Settle 1; Finalize 3] = Some h
       ∧ successCount (final idle h) = 1.
Proof.
  eexists. split; [vm_compute; reflexivity|].
  match goal with |- successCount (final idle ?h) = _ =>
    exact (proj1 (successes_are_counted_once scenario script
             [Settle 2; Finalize 2; Settle 3; Settle 1; Finalize 3] h
             eq_refl))
  end.
Defined.

(** X2. The run can count more successes than the target, but fewer than
    the target and the concurrency, each rounded up to a whole number, taken
    together: with a target below [target + 1] and a concurrency below
    [slots + 1], never more than [target + slots - 1]. *)
Theorem success_overshoot_is_bounded (cfg : config) (outcome : nat -> bool)
    (tr : list event) (h : list state) (target slots : nat) :
  roof (loopCount cfg) = Some target →
  roof (MAX_CONCURRENT_REQUESTS cfg) = Some slots →
  exec cfg outcome tr = Some h →
  Forall (fun s => successCount s <= target + slots - 1) h.
Proof.
  intros Htarget Hslots Hexec.
  assert (H : Forall (fun s => successCount s + size (uncounted s)
                      <= target + slots - 1) h).
  { refine (proj1 (exec_invariant cfg outcome _ _ _ _ _ tr h _ Hexec)).
    - intros s Hs HP Hm.
      destruct (may_launch_true cfg s Hm) as (Hroom & _ & Hsc).
      rewrite (uncounted_launch cfg s Hs).
      pose proof (uncounted_le s). cbn.
      apply below_spec in Hroom, Hsc. rewrite Hslots in Hroom.
      rewrite Htarget in Hsc. lia.
    - intros s _ HP _. exact HP.
    - intros s i _ HP Hi Hni.
      pose proof (uncounted_count outcome i s Hi Hni) as Hsz.
      cbn [successCount attemptNumber count_success].
      destruct (outcome i); lia.
    - intros s i _ HP Hi. rewrite (uncounted_delete i s Hi). exact HP.
    - cbn. unfold uncounted. cbn. rewrite difference_diag_L, size_empty. lia. }
  eapply Forall_impl; [exact H|]. cbn. intros s Hs. lia.
Qed.

(** With [batchSize] 2.5 and a target of 1 the bound is 3, and it is
    reached: the three attempts of the first fill succeed. *)
Lemma success_overshoot_is_bounded_witness :
  ∃ h, exec fractional (fun _ => true) [Settle 1; Settle 2; Settle 3] = Some h
       ∧ successCount (final idle h) = 3
       ∧ Forall (fun s => successCount s <= 1 + 3 - 1) h.
Proof.
  eexists. split; [vm_compute; reflexivity|]. split; [vm_compute; reflexivity|].
  match goal with |- Forall _ ?h =>
    exact (success_overshoot_is_bounded fractional (fun _ => true)
             [Settle 1; Settle 2; Settle 3] h 1 3 eq_refl eq_refl eq_refl)
  end.
Defined.

(** X3. From a state in which the target is reached, whatever
    callbacks run afterwards, no further attempt is launched. *)
Theorem no_launch_after_target (cfg : config) (outcome : nat -> bool)
    (tr : list event) :
  ∀ s path,
    reaches (successCount s) (loopCount cfg) = true →
    run cfg outcome s tr = Some path →
    Forall (fun s' => attemptNumber s' = attemptNumber s) path.
Proof.
  induction tr as [|e tr IH]; intros s path Hsc Hrun; cbn in Hrun.
  - injection Hrun as <-. constructor.
  - destruct (step cfg outcome s e) as [p|] eqn:Hstep; [|discriminate Hrun].
    cbn in Hrun.
    destruct (run cfg outcome (final s p) tr) as [rest|] eqn:Hrest;
      [|discriminate Hrun].
    cbn in Hrun. injection Hrun as <-.
    assert (Hp : Forall (fun s' => attemptNumber s' = attemptNumber s) p
                 ∧ attemptNumber (final s p) = attemptNumber s
                 ∧ reaches (successCount (final s p)) (loopCount cfg) = true).
    { destruct e as [i|i]; cbn in Hstep.
      - destruct (decide _); [|discriminate Hstep]. injection Hstep as <-.
        rewrite final_cons, final_nil. cbn.
        split; [constructor; [reflexivity|constructor]|].
        split; [reflexivity|]. destruct (outcome i); [|exact Hsc].
        clear - Hsc. limits; lia.
      - destruct (decide _); [|discriminate Hstep].
        unfold launchNext, finished in Hstep.
        cbn [successCount delete] in Hstep.
        rewrite Hsc in Hstep. cbn in Hstep.
        injection Hstep as <-.
        rewrite !final_cons, final_nil. cbn.
        split; [|split; [reflexivity|exact Hsc]].
        constructor; [reflexivity|constructor; [reflexivity|constructor]]. }
    destruct Hp as (Hall & Hn & Hsc').
    apply Forall_app. split; [exact Hall|].
    rewrite <- Hn. now apply IH.
Qed.

Lemma no_launch_after_target_witness :
  let s := {| successCount := 1; attemptNumber := 2; inFlight := {[ 1; 2 ]};
              counted := {[ 1 ]}; resolved := false |} in
  ∃ path,
    run pair (fun _ => true) s [Finalize 1; Settle 2; Finalize 2] = Some path
    ∧ Forall (fun s' => attemptNumber s' = 2) path.
Proof.
  intros s. eexists. split; [vm_compute; reflexivity|].
  match goal with |- Forall _ ?p =>
    apply (no_launch_after_target pair (fun _ => true)
             [Finalize 1; Settle 2; Finalize 2] s p)
  end.
  - reflexivity.
  - vm_compute. reflexivity.
Defined.

(** X4. When every attempt fails, a run with a finite budget that has come
    to rest has used its whole budget: every whole number below
    [maxAttempts] has been used for a launch, which makes [maxAttempts]
    rounded up launches, no success, after exactly two callbacks for each
    attempt. *)
Theorem all_failures_use_the_budget (cfg : config) (tr : list event)
    (h : list state) (budget : nat) :
  below 0 (loopCount cfg) = true →
  below 0 (MAX_CONCURRENT_REQUESTS cfg) = true →
  roof (maxAttempts cfg) = Some budget →
  exec cfg (fun _ => false) tr = Some h →
  quiescent (final idle h) →
  successCount (final idle h) = 0
  ∧ attemptNumber (final idle h) = budget
  ∧ length tr = 2 * budget.
Proof.
  intros Htarget Hmax Hbudget Hexec Hq.
  destruct (exec_sound cfg _ tr h Hexec) as (_ & Hs & Hwait).
  pose proof (exec_potential cfg _ budget Hbudget tr h Hexec) as Hpot.
  assert (Hsc : successCount (final idle h) = 0).
  { rewrite (exec_counts cfg _ tr h Hexec). unfold successes.
    clear. induction tr as [|[i|i] tr IH]; cbn; auto. }
  destruct (quiescent_Done cfg _ Hs (Hwait Hmax) Hq) as (_ & _ & Hend).
  destruct Hs as ((Hn & _) & Hsub & _).
  assert (Hn' : attemptNumber (final idle h) = budget).
  { rewrite Hsc in Hend. clear - Hend Hn Htarget Hbudget.
    apply below_spec in Htarget. rewrite !reaches_spec in Hend.
    unfold upto in Hn. rewrite Hbudget in *.
    destruct (roof (loopCount cfg)); [lia|]. destruct Hend as [[]|Hend]; lia. }
  split; [exact Hsc|]. split; [exact Hn'|].
  unfold potential in Hpot. rewrite Hbudget in Hpot.
  red in Hq. rewrite Hq in Hpot, Hsub.
  assert (Hc : counted (final idle h) = ∅).
  { apply leibniz_equiv. apply elem_of_equiv_empty. intros x Hx.
    apply Hsub in Hx. now apply not_elem_of_empty in Hx. }
  rewrite Hc, size_empty, Hn' in Hpot. lia.
Qed.

(** With [batchSize] 2.5 and a target of 1 the budget is 3.5, and four
    attempts are launched. *)
Lemma all_failures_use_the_budget_witness :
  ∃ h, exec fractional (fun _ => false)
         [Settle 1; Settle 2; Settle 3; Finalize 1; Finalize 2; Finalize 3;
          Settle 4; Finalize 4]
       = Some h
       ∧ successCount (final idle h) = 0
       ∧ attemptNumber (final idle h) = 4.
Proof.
  eexists. split; [vm_compute; reflexivity|].
  match goal with |- successCount (final idle ?h) = _ ∧ _ =>
    pose proof (all_failures_use_the_budget fractional
                  [Settle 1; Settle 2; Settle 3; Finalize 1; Finalize 2;
                   Finalize 3; Settle 4; Finalize 4] h 4 eq_refl eq_refl
                  eq_refl eq_refl ltac:(vm_compute; reflexivity)) as H
  end.
  exact (conj (proj1 H) (proj1 (proj2 H))).
Defined.

Lemma configure_room
    (count concurrencyInput batchInput configBatchSize : number) :
  below 0 (MAX_CONCURRENT_REQUESTS
             (configure count concurrencyInput batchInput configBatchSize))
  = true.
Proof.
  cbn. repeat apply positive_or_positive. reflexivity.
Qed.




(** With neither a finite budget nor a finite concurrency, the loop of the
    first [launchNext] never ends. *)
Lemma unbounded_run_diverges (cfg : config) (outcome : nat -> bool) :
  below 0 (loopCount cfg) = true →
  maxAttempts cfg = Unbounded →
  MAX_CONCURRENT_REQUESTS cfg = Unbounded →
  (∀ fuel, launchLoop cfg fuel idle = None)
  ∧ ∀ tr, exec cfg outcome tr = None.
Proof.
  intros Htarget Hb Hc.
  assert (Hmay : may_launch cfg idle = true).
  { unfold may_launch. rewrite Hb, Hc. exact Htarget. }
  split; [intros fuel; now apply launchLoop_diverges|].
  intros tr. unfold exec, launchNext, finished.
  cbn [successCount attemptNumber idle].
  rewrite (proj2 (reaches_spec_false 0 _)), Hb;
    [|now apply below_spec].
  cbn [reaches orb andb].
  now rewrite (launchLoop_diverges cfg _ Hc Hb idle Hmay).
Qed.

(** X6. Whatever is typed at the prompts, whatever [config.batchSize] holds
    and whatever the attempts resolve to: when the budget is finite, the
    run can be started and every schedule of callbacks can be continued to
    the terminal state; when the budget is infinite because the target is,
    the run can be started and is never resolved; and when the budget and
    the concurrency are both infinite, the loop of the first [launchNext]
    never ends. *)
Theorem configured_run_completes
    (count concurrencyInput batchInput configBatchSize : number)
    (outcome : nat -> bool) :
  let cfg := configure count concurrencyInput batchInput configBatchSize in
  (is_Some (roof (maxAttempts cfg)) →
   is_Some (exec cfg outcome [])
   ∧ ∀ tr h, exec cfg outcome tr = Some h →
       ∃ tr' h', exec cfg outcome (tr ++ tr') = Some h'
                 ∧ Done cfg (final idle h'))
  ∧ (maxAttempts cfg = Unbounded →
     is_Some (roof (MAX_CONCURRENT_REQUESTS cfg)) →
     is_Some (exec cfg outcome [])
     ∧ ∀ tr h, exec cfg outcome tr = Some h →
         Forall (fun s => resolved s = false) h)
  ∧ (maxAttempts cfg = Unbounded →
     MAX_CONCURRENT_REQUESTS cfg = Unbounded →
     (∀ fuel, launchLoop cfg fuel idle = None)
     ∧ ∀ tr, exec cfg outcome tr = None).
Proof.
  intros cfg.
  pose proof (configure_room count concurrencyInput batchInput
                configBatchSize) as Hroom.
  pose proof (positive_or_positive count (whole 1) eq_refl) as Htarget.
  fold cfg in Hroom. change (below 0 (loopCount cfg) = true) in Htarget.
  split; [|split].
  - intros [budget Hbudget].
    split; [apply exec_nil, (budget_bounded cfg budget Hbudget)|].
    intros tr h Hexec.
    apply (exec_completes cfg outcome budget Hbudget
             (potential cfg (final idle h)) Hroom tr h Hexec).
    lia.
  - intros Hb Hc. split; [apply exec_nil; now right|].
    intros tr h Hexec.
    assert (Hinf : loopCount cfg = Unbounded).
    { destruct Hc as [c Hc]. revert Hb Hc. unfold cfg, configure.
      cbn [maxAttempts loopCount MAX_CONCURRENT_REQUESTS].
      destruct (positive_or count (whole 1)); [|reflexivity].
      destruct (positive_or concurrencyInput _); cbn; [|discriminate].
      destruct (Qle_bool _ _); discriminate. }
    refine (proj1 (exec_invariant cfg outcome (fun s => resolved s = false)
                     _ _ _ _ tr h _ Hexec)); try (intros; assumption).
    + intros s _ _ Hfin. exfalso. revert Hfin. unfold finished.
      rewrite Hinf, Hb. discriminate.
    + reflexivity.
  - intros Hb Hc. now apply unbounded_run_diverges.
Qed.

(** [batchSize] 1e999 parses to [Infinity]: with the concurrency and
    batch answers left empty, no state after the idle one is reached. *)
Example infinite_batch_size (outcome : nat -> bool) (tr : list event) :
  exec (configure (Finite 1) NaN NaN Infinity) outcome tr = None.
Proof.
  now apply unbounded_run_diverges.
Qed.

End TurboCounts.

Module RaceQueueEnding.
Import Numbers NumbersFacts RaceQueue RaceQueueFacts RaceSetup.
Local Open Scope nat_scope.
Local Open Scope list_scope.
#[local] Arguments final : simpl never.

Section Ending.
Variable cfg : config.
Variable outcome : nat -> bool.
Hypothesis Hroom : below 0 (MAX_CONCURRENT_REQUESTS cfg) = true.

Lemma loop_head_settled (s : state) (path : list state) :
  consistent cfg s →
  loop_head cfg s = Some path →
  settled cfg (final s path).
Proof.
  intros Hs. unfold loop_head.
  destruct (below (successCount s) (loopCount cfg)) eqn:Hlt.
  2:{ intros [= <-]. rewrite rq_final_cons, rq_final_nil.
      rewrite below_reaches, negb_false_iff in Hlt.
      split; [exact Hs|]. split; [intros _; exact Hlt|discriminate]. }
  destruct (size (activePromises s) =? 0) eqn:Hz.
  - destruct (queueNext cfg s) as [p|] eqn:Hq; [|discriminate].
    destruct (queueNext_sound cfg s p Hs Hq)
      as (_ & Hfin & Hstop & Hsc & _).
    cbn [mbind option_bind].
    assert (Hnz : (size (activePromises (final s p)) =? 0) = false).
    { apply Nat.eqb_neq. intros H0.
      destruct (rq_may_launch_false cfg _ Hstop) as [H|H].
      - rewrite H0 in H. congruence.
      - rewrite Hsc in H. congruence. }
    rewrite Hnz. intros [= <-]. rewrite rq_final_snoc.
    split; [exact Hfin|]. cbn. split; [intros [H|H]; discriminate H|discriminate].
  - cbn [mbind option_bind]. rewrite rq_final_nil, Hz.
    intros [= <-]. cbn [app]. rewrite rq_final_cons, rq_final_nil.
    split; [exact Hs|]. cbn. split; [intros [H|H]; discriminate H|discriminate].
Qed.

Lemma step_settled (s : state) (e : event) (path : list state) :
  settled cfg s → step cfg outcome s e = Some path → settled cfg (final s path).
Proof.
  intros (Hs & Hleft & Hdone) Hstep. destruct e as [i|i|]; cbn in Hstep.
  - destruct (decide _); [|discriminate Hstep]. injection Hstep as <-.
    rewrite rq_final_cons, rq_final_nil.
    split; [exact Hs|]. cbn. split; [|exact Hdone].
    intros H. specialize (Hleft H). destruct (outcome i); [|exact Hleft].
    clear - Hleft. limits; lia.
  - destruct (decide _); [|discriminate Hstep]. injection Hstep as <-.
    rewrite rq_final_cons, rq_final_nil.
    split; [now apply rq_delete_consistent|]. cbn. split; [exact Hleft|].
    intros H. rewrite (Hdone H). apply leibniz_equiv. intros x.
    rewrite elem_of_difference. split; [tauto|].
    intros Hx. now apply not_elem_of_empty in Hx.
  - destruct (pc s) as [|raced| |] eqn:Hpc; try discriminate Hstep.
    + destruct (decide _); [discriminate Hstep|].
      destruct (queueNext cfg (goto Running s)) as [p|] eqn:Hq;
        [|discriminate Hstep].
      cbn [mbind option_bind] in Hstep.
      destruct (queueNext_sound cfg (goto Running s) p Hs Hq)
        as (_ & Hfin & _).
      destruct (loop_head cfg (final (goto Running s) p)) as [rest|] eqn:Hl;
        [|discriminate Hstep].
      cbn [mbind option_bind] in Hstep. injection Hstep as <-.
      rewrite rq_final_cons, rq_final_app.
      exact (loop_head_settled _ _ Hfin Hl).
    + destruct (decide _) as [He|]; [|discriminate Hstep].
      injection Hstep as <-. rewrite rq_final_cons, rq_final_nil.
      split; [exact Hs|]. cbn. split; [|intros _; exact He].
      intros _. apply Hleft. now left.
Qed.

Lemma run_settled (tr : list event) :
  ∀ s path,
    settled cfg s → run cfg outcome s tr = Some path → settled cfg (final s path).
Proof.
  induction tr as [|e tr IH]; intros s path Hs Hrun; cbn [run] in Hrun.
  - injection Hrun as <-. now rewrite rq_final_nil.
  - destruct (step cfg outcome s e) as [p|] eqn:Hstep; [|discriminate Hrun].
    cbn [mbind option_bind] in Hrun.
    destruct (run cfg outcome (final s p) tr) as [rest|] eqn:Hrest;
      [|discriminate Hrun].
    cbn [mbind option_bind] in Hrun. injection Hrun as <-.
    rewrite rq_final_app. exact (IH _ _ (step_settled s e p Hs Hstep) Hrest).
Qed.

Lemma exec_settled (tr : list event) (h : list state) :
  exec cfg outcome tr = Some h → settled cfg (final idle h).
Proof.
  intros Hexec.
  destruct (rq_exec_inv cfg outcome tr h Hexec)
    as (path & head & rest & Hq & Hl & Hrest & _ & ->).
  destruct (queueNext_sound cfg idle path (rq_idle_consistent cfg) Hq)
    as (_ & Hfin & _).
  exact (run_settled tr _ _ (loop_head_settled _ _ Hfin Hl) Hrest).
Qed.

End Ending.

(** X10. With room for at least one attempt the race-based main function
    returns only when the target is reached and no promise is left
    active; the shortfall warning it would print otherwise is never
    printed. *)
Theorem race_queue_returns_only_on_target (cfg : config)
    (outcome : nat -> bool) (tr : list event) (h : list state) :
  below 0 (MAX_CONCURRENT_REQUESTS cfg) = true →
  exec cfg outcome tr = Some h →
  pc (final idle h) = Finished →
  reaches (successCount (final idle h)) (loopCount cfg) = true
  ∧ activePromises (final idle h) = ∅
  ∧ ¬ warns_of_shortfall cfg (final idle h).
Proof.
  intros Hroom Hexec Hpc.
  destruct (exec_settled cfg outcome Hroom tr h Hexec) as (_ & Hleft & Hdone).
  assert (Hsc : reaches (successCount (final idle h)) (loopCount cfg) = true)
    by (apply Hleft; now right).
  split; [exact Hsc|]. split; [now apply Hdone|].
  intros [_ Hlt]. rewrite below_reaches, Hsc in Hlt. discriminate Hlt.
Qed.

Lemma race_queue_returns_only_on_target_witness :
  ∃ h, exec two_by_two (fun _ => true)
         [Settle 1; Settle 2; Finalize 1; Resume; Finalize 2; Resume] = Some h
       ∧ pc (final idle h) = Finished
       ∧ successCount (final idle h) = 2
       ∧ activePromises (final idle h) = ∅.
Proof.
  eexists. split; [vm_compute; reflexivity|]. split; [vm_compute; reflexivity|].
  split; [vm_compute; reflexivity|].
  match goal with |- activePromises (final idle ?h) = _ =>
    exact (proj1 (proj2 (race_queue_returns_only_on_target two_by_two
             (fun _ => true)
             [Settle 1; Settle 2; Finalize 1; Resume; Finalize 2; Resume] h
             eq_refl eq_refl ltac:(vm_compute; reflexivity))))
  end.
Defined.

(** Whatever is typed at the prompt and whatever [config.maxConcurrent]
    holds, the race-based bot starts with a positive target and a positive
    concurrency; with nothing configured it runs ten attempts at a time. *)
Lemma race_configure_is_sound (count maxConcurrent : number) :
  below 0 (loopCount (configure count maxConcurrent)) = true
  ∧ below 0 (MAX_CONCURRENT_REQUESTS (configure count maxConcurrent)) = true
  ∧ MAX_CONCURRENT_REQUESTS (configure count NaN) = whole 10.
Proof.
  cbn.
  split; [now apply positive_or_positive|].
  split; [now apply positive_or_positive|reflexivity].
Qed.

(** With [maxConcurrent] 2.5 three promises are active after the first
    fill. *)
Lemma race_queue_concurrency_bound_witness :
  ∃ h, exec two_and_a_half fails [Settle 2; Finalize 2; Resume] = Some h
       ∧ Forall (fun s => upto (size (activePromises s)) (Bounded (5 # 2))) h
       ∧ size (activePromises (final idle h)) = 3.
Proof.
  eexists. split; [vm_compute; reflexivity|].
  split; [|vm_compute; reflexivity].
  match goal with |- Forall _ ?h =>
    exact (proj1 (race_queue_concurrency_bound two_and_a_half fails
                    [Settle 2; Finalize 2; Resume] h eq_refl))
  end.
Defined.

Lemma all_failures_never_finish_witness :
  ∃ h, exec two_by_two fails [Settle 2; Finalize 2; Resume; Settle 1] = Some h
       ∧ successCount (final idle h) = 0
       ∧ ∃ raced, pc (final idle h) = Racing raced.
Proof.
  eexists. split; [vm_compute; reflexivity|].
  match goal with |- successCount (final idle ?h) = _ ∧ _ =>
    exact (all_failures_never_finish two_by_two eq_refl eq_refl
             [Settle 2; Finalize 2; Resume; Settle 1] h eq_refl)
  end.
Defined.

Lemma all_failures_unbounded_witness :
  ∃ tr h, exec two_by_two fails tr = Some h
          ∧ 1000 <= attemptNumber (final idle h).
Proof.
  exact (all_failures_unbounded two_by_two eq_refl eq_refl 2 eq_refl 1000).
Defined.

End RaceQueueEnding.

Module ExecutorEffects.
Import Text TargetHex Executor ExecutorFacts Matching Ledger.
Local Open Scope nat_scope.
Local Open Scope list_scope.

Lemma slept_app (tr tr' : list effect) :
  slept (tr ++ tr') = (slept tr + slept tr')%N.
Proof.
  induction tr as [|e tr IH]; [reflexivity|].
  cbn [app slept fold_right]. fold (slept (tr ++ tr')). fold (slept tr).
  rewrite IH. destruct e; lia.
Qed.

Section Pace.
Variable w : world.
Variable policy : poll_policy.

Lemma functionGetLink_pace (email domain : string) (tr : list effect) :
  ∃ delta,
    functionGetLink w email domain tr
    = Some (Normal (probe_result w (S (probe_calls tr)) email domain),
            tr ++ delta)
    ∧ probe_calls delta = 1 ∧ slept delta = 0%N.
Proof.
  unfold functionGetLink, probe_result. run_monad.
  rewrite probe_calls_app. cbn [probe_calls List.filter is_GetLink List.length].
  replace (probe_calls tr + 1) with (S (probe_calls tr)) by lia.
  destruct (inbox_span w (S (probe_calls tr)) email domain) as [src|err].
  - exists [GetLink email domain]. repeat split; reflexivity.
  - exists [GetLink email domain; Console (LogFetchCodeError (error_message err))].
    rewrite <- app_assoc. repeat split; reflexivity.
Qed.

Lemma pollLoop_found_pace (fuel : nat) (email domain code : string)
    (attempts : nat) (tr : list effect) :
  probe_result w (S (probe_calls tr)) email domain = Some code →
  code ≠ "" →
  ∃ delta,
    pollLoop w policy fuel email domain attempts tr
    = Some (Normal (Some code, attempts), tr ++ delta)
    ∧ probe_calls delta = 1 ∧ slept delta = 0%N.
Proof.
  intros Hres Hcode.
  destruct (functionGetLink_pace email domain tr) as (delta & Hrun & Hn & Hq).
  rewrite Hres in Hrun.
  assert (Hnc : no_code (Some code) = false).
  { cbn. now apply String.eqb_neq. }
  exists delta. split; [|now split].
  destruct fuel; cbn [pollLoop]; unfold mbind at 1, M_bind;
    rewrite Hrun; rewrite Hnc; reflexivity.
Qed.

Lemma pollLoop_empty_pace (fuel : nat) (email domain : string) (attempts : nat)
    (tr : list effect) :
  no_code (probe_result w (S (probe_calls tr)) email domain) = true →
  ∃ delta,
    probe_calls delta = 1 ∧ slept delta = pause_after policy (S attempts)
    ∧ pollLoop w policy fuel email domain attempts tr
      = if S attempts <? maxPollAttempts policy
        then match fuel with
             | O => None
             | S fuel' => pollLoop w policy fuel' email domain (S attempts)
                            (tr ++ delta)
             end
        else Some (Normal (probe_result w (S (probe_calls tr)) email domain,
                           S attempts), tr ++ delta).
Proof.
  intros Hnc.
  destruct (functionGetLink_pace email domain tr) as (delta & Hrun & Hn & Hq).
  set (pause := if waitAfterLast policy || (S attempts <? maxPollAttempts policy)
                then [Sleep (pollIntervalMs policy)] else []).
  exists (delta ++ Console (LogNoCodeYet (S attempts) (maxPollAttempts policy))
                :: pause).
  assert (Hpq : slept pause = pause_after policy (S attempts)
                ∧ probe_calls pause = 0).
  { unfold pause, pause_after. destruct (_ || _); split; try reflexivity.
    cbn. lia. }
  destruct Hpq as [Hpq Hpn].
  split.
  { rewrite probe_calls_app, Hn.
    change (Console ?l :: pause) with ([Console l] ++ pause).
    rewrite probe_calls_app, Hpn. reflexivity. }
  split.
  { rewrite slept_app, Hq.
    change (Console ?l :: pause) with ([Console l] ++ pause).
    rewrite slept_app, Hpq. cbn. lia. }
  assert (Hstep : ∀ (k : option string * nat → M (option string * nat)),
    (verificationCode ← functionGetLink w email domain;
     attempts' ←
       (if no_code verificationCode then
          let attempts' := S attempts in
          console (LogNoCodeYet attempts' (maxPollAttempts policy));;
          (if waitAfterLast policy || (attempts' <? maxPollAttempts policy)
           then emit (Sleep (pollIntervalMs policy)) else mret tt);;
          mret attempts'
        else mret attempts);
     k (verificationCode, attempts')) tr
    = k (probe_result w (S (probe_calls tr)) email domain, S attempts)
        (tr ++ delta ++ Console (LogNoCodeYet (S attempts) (maxPollAttempts policy))
            :: pause)).
  { intros k. unfold mbind at 1, M_bind. rewrite Hrun, Hnc.
    unfold pause. run_monad.
    destruct (waitAfterLast policy || (S attempts <? maxPollAttempts policy));
      rewrite <- ?app_assoc; reflexivity. }
  destruct fuel; cbn [pollLoop].
  - rewrite (Hstep (fun '(verificationCode, attempts') =>
      if no_code verificationCode && (attempts' <? maxPollAttempts policy)
      then out_of_fuel else mret (verificationCode, attempts'))).
    rewrite Hnc. cbn [andb]. destruct (S attempts <? _); reflexivity.
  - rewrite (Hstep (fun '(verificationCode, attempts') =>
      if no_code verificationCode && (attempts' <? maxPollAttempts policy)
      then pollLoop w policy fuel email domain attempts'
      else mret (verificationCode, attempts'))).
    rewrite Hnc. cbn [andb]. destruct (S attempts <? _); reflexivity.
Qed.

Lemma pause_after_inside (attempts' : nat) :
  attempts' < maxPollAttempts policy →
  pause_after policy attempts' = pollIntervalMs policy.
Proof.
  intros Hlt. unfold pause_after.
  rewrite (proj2 (Nat.ltb_lt _ _) Hlt), orb_true_r. reflexivity.
Qed.

Lemma pollLoop_success_pace (email domain code : string) (j : nat) :
  ∀ fuel attempts tr,
    (∀ k, probe_calls tr < k <= probe_calls tr + j →
          no_code (probe_result w k email domain) = true) →
    probe_result w (probe_calls tr + j + 1) email domain = Some code →
    code ≠ "" →
    attempts + j < maxPollAttempts policy → j <= fuel →
    ∃ delta,
      pollLoop w policy fuel email domain attempts tr
      = Some (Normal (Some code, attempts + j), tr ++ delta)
      ∧ probe_calls delta = j + 1
      ∧ slept delta = (N.of_nat j * pollIntervalMs policy)%N.
Proof.
  induction j as [|j IH]; intros fuel attempts tr Hempty Hcode Hne Hlt Hfuel.
  - replace (probe_calls tr + 0 + 1) with (S (probe_calls tr)) in Hcode by lia.
    destruct (pollLoop_found_pace fuel email domain code attempts tr Hcode Hne)
      as (delta & Hrun & Hn & Hq).
    exists delta. rewrite Nat.add_0_r. split; [exact Hrun|].
    split; [exact Hn|]. rewrite Hq. lia.
  - destruct (pollLoop_empty_pace fuel email domain attempts tr)
      as (delta & Hn & Hq & Hrun).
    { apply Hempty. lia. }
    destruct fuel as [|fuel]; [lia|].
    assert (Hcont : (S attempts <? maxPollAttempts policy) = true)
      by (apply Nat.ltb_lt; lia).
    rewrite Hcont in Hrun.
    rewrite pause_after_inside in Hq by lia.
    destruct (IH fuel (S attempts) (tr ++ delta)) as (delta' & Hrun' & Hn' & Hq').
    + intros k Hk. rewrite probe_calls_app, Hn in Hk. apply Hempty. lia.
    + rewrite probe_calls_app, Hn.
      replace (probe_calls tr + 1 + j + 1) with (probe_calls tr + S j + 1) by lia.
      exact Hcode.
    + exact Hne.
    + lia.
    + lia.
    + exists (delta ++ delta'). rewrite Hrun, Hrun', app_assoc.
      replace (S attempts + j) with (attempts + S j) by lia.
      split; [reflexivity|]. split.
      * rewrite probe_calls_app. lia.
      * rewrite slept_app, Hq, Hq'. lia.
Qed.

Lemma pollLoop_timeout_pace (email domain : string) (r : nat) :
  ∀ fuel attempts tr,
    (∀ k, probe_calls tr < k <= probe_calls tr + S r →
          no_code (probe_result w k email domain) = true) →
    attempts + S r = maxPollAttempts policy → r <= fuel →
    ∃ code delta,
      pollLoop w policy fuel email domain attempts tr
      = Some (Normal (code, maxPollAttempts policy), tr ++ delta)
      ∧ no_code code = true ∧ probe_calls delta = S r
      ∧ slept delta
        = (N.of_nat (if waitAfterLast policy then S r else r)
           * pollIntervalMs policy)%N.
Proof.
  induction r as [|r IH]; intros fuel attempts tr Hempty Hmax Hfuel.
  - destruct (pollLoop_empty_pace fuel email domain attempts tr)
      as (delta & Hn & Hq & Hrun).
    { apply Hempty. lia. }
    assert (Hstop : (S attempts <? maxPollAttempts policy) = false)
      by (apply Nat.ltb_ge; lia).
    rewrite Hstop in Hrun.
    exists (probe_result w (S (probe_calls tr)) email domain), delta.
    replace (maxPollAttempts policy) with (S attempts) at 1 by lia.
    split; [exact Hrun|]. split; [apply Hempty; lia|]. split; [exact Hn|].
    rewrite Hq. unfold pause_after. rewrite Hstop, orb_false_r.
    destruct (waitAfterLast policy); lia.
  - destruct (pollLoop_empty_pace fuel email domain attempts tr)
      as (delta & Hn & Hq & Hrun).
    { apply Hempty. lia. }
    destruct fuel as [|fuel]; [lia|].
    assert (Hcont : (S attempts <? maxPollAttempts policy) = true)
      by (apply Nat.ltb_lt; lia).
    rewrite Hcont in Hrun.
    rewrite pause_after_inside in Hq by lia.
    destruct (IH fuel (S attempts) (tr ++ delta))
      as (code & delta' & Hrun' & Hnc & Hn' & Hq').
    + intros k Hk. rewrite probe_calls_app, Hn in Hk. apply Hempty. lia.
    + lia.
    + lia.
    + exists code, (delta ++ delta'). rewrite Hrun, Hrun', app_assoc.
      split; [reflexivity|]. split; [exact Hnc|]. split.
      * rewrite probe_calls_app. lia.
      * rewrite slept_app, Hq, Hq'. destruct (waitAfterLast policy); lia.
Qed.

(** The loop makes at least one lookup and at most as many as are left. *)
Lemma pollLoop_bounded (email domain : string) (fuel : nat) :
  ∀ attempts tr,
    maxPollAttempts policy - attempts <= S fuel →
    ∃ code attempts' delta,
      pollLoop w policy fuel email domain attempts tr
      = Some (Normal (code, attempts'), tr ++ delta)
      ∧ quiet delta
      ∧ 1 <= probe_calls delta <= Nat.max 1 (maxPollAttempts policy - attempts).
Proof.
  induction fuel as [|fuel IH]; intros attempts tr Hfuel.
  - destruct (no_code (probe_result w (S (probe_calls tr)) email domain)) eqn:E.
    + destruct (pollLoop_empty w policy 0 email domain attempts tr E)
        as (delta & Hn & Hq & Hrun).
      assert (Hstop : (S attempts <? maxPollAttempts policy) = false)
        by (apply Nat.ltb_ge; lia).
      rewrite Hstop in Hrun.
      do 3 eexists. split; [exact Hrun|]. split; [exact Hq|lia].
    + destruct (probe_result w (S (probe_calls tr)) email domain)
        as [code|] eqn:Hres; [|discriminate].
      apply String.eqb_neq in E.
      destruct (pollLoop_found w policy 0 email domain code attempts tr Hres E)
        as (delta & Hrun & Hn & Hq).
      do 3 eexists. split; [exact Hrun|]. split; [exact Hq|lia].
  - destruct (no_code (probe_result w (S (probe_calls tr)) email domain)) eqn:E.
    + destruct (pollLoop_empty w policy (S fuel) email domain attempts tr E)
        as (delta & Hn & Hq & Hrun).
      destruct (S attempts <? maxPollAttempts policy) eqn:Hcont.
      * apply Nat.ltb_lt in Hcont.
        destruct (IH (S attempts) (tr ++ delta))
          as (code & attempts' & delta' & Hrun' & Hq' & Hn'); [lia|].
        exists code, attempts', (delta ++ delta').
        rewrite Hrun, Hrun', app_assoc.
        split; [reflexivity|]. split; [now apply quiet_app|].
        rewrite probe_calls_app. lia.
      * do 3 eexists. split; [exact Hrun|]. split; [exact Hq|lia].
    + destruct (probe_result w (S (probe_calls tr)) email domain)
        as [code|] eqn:Hres; [|discriminate].
      apply String.eqb_neq in E.
      destruct (pollLoop_found w policy (S fuel) email domain code attempts tr
                  Hres E) as (delta & Hrun & Hn & Hq).
      do 3 eexists. split; [exact Hrun|]. split; [exact Hq|lia].
Qed.

Lemma poll_bounded (email domain : string) (tr : list effect) :
  ∃ code attempts delta,
    poll w policy email domain tr = Some (Normal (code, attempts), tr ++ delta)
    ∧ quiet delta
    ∧ 1 <= probe_calls delta <= Nat.max 1 (maxPollAttempts policy).
Proof.
  destruct (pollLoop_bounded email domain (maxPollAttempts policy) 0 tr)
    as (code & attempts & delta & Hrun & Hq & Hn); [lia|].
  exists code, attempts, delta. split; [exact Hrun|]. split; [exact Hq|].
  rewrite Nat.sub_0_r in Hn. exact Hn.
Qed.

(** The verify request: at most one request, and one whenever it is
    answered with a success message. *)
Lemma verify_sendRequest_tally (e p c : string) (tr : list effect) :
  ∃ v delta,
    verify_sendRequest w e p c tr = Some (Normal v, tr ++ delta)
    ∧ probe_calls delta = 0 ∧ file_writes delta = 0
    ∧ verify_calls delta <= 1
    ∧ (is_success v = true → verify_calls delta = 1).
Proof.
  unfold verify_sendRequest, read_response. run_monad.
  assert (Hno : ∀ msg, is_success (error_result msg) = true → False)
    by (intros msg H; discriminate H).
  destruct (faker_birthdate w) as [date|err].
  2:{ do 2 eexists. split; [reflexivity|]. cbn.
      repeat split; try lia; try (intros H; discriminate H). }
  destruct (fetch_verify_login w e c p date) as [r|err];
    [destruct (resp_ok r); cbn [negb];
     [destruct (resp_text r) as [text|err];
      [destruct (String.eqb (trim text) "");
       [|destruct (JSON_parse w text)]|]|]|];
    rewrite <- ?app_assoc; do 2 eexists; (split; [reflexivity|]); cbn;
    repeat split; try lia; try reflexivity;
    try (intros H; discriminate H).
Qed.

Lemma verify_sendRequest_succeeds (e p c : string) (tr : list effect) :
  verify_succeeds w e p c →
  ∃ v,
    verify_sendRequest w e p c tr = Some (Normal v, tr ++ [VerifyLogin e p c])
    ∧ is_success v = true.
Proof.
  unfold verify_sendRequest, read_response. run_monad.
  intros (date & r & text & data & Hd & Hf & Hok & Ht & Hb & Hp & Hs).
  apply String.eqb_neq in Hb.
  rewrite Hd, Hf, Hok. cbn [negb]. rewrite Ht, Hb, Hp.
  exists data. split; [reflexivity|exact Hs].
Qed.

(** Saving never throws, whether or not the write goes through. *)
Lemma saveToFile_tally (filename data : string) (tr : list effect) :
  ∃ delta,
    saveToFile w filename data tr = Some (Normal tt, tr ++ delta)
    ∧ probe_calls delta = 0 ∧ verify_calls delta = 0 ∧ file_writes delta = 1
    ∧ In (WriteFile filename data) delta.
Proof.
  unfold saveToFile. run_monad.
  destruct (fs_writeFile w filename data) as [[]|err];
    rewrite <- ?app_assoc; eexists; (split; [reflexivity|]);
    repeat split; try reflexivity; now left.
Qed.

End Pace.

Ltac tally :=
  rewrite ?probe_calls_app, ?verify_calls_app, ?file_writes_app;
  cbn [probe_calls verify_calls file_writes List.filter List.length
       is_GetLink is_VerifyLogin is_WriteFile];
  try lia.

(** X11. Whatever the collaborators do, one attempt looks the inbox up at
    most [max 1 maxPollAttempts] times, sends at most one verify request
    and writes [accounts.txt] exactly when it resolves to [true], in which
    case the verify request was sent and the inbox was looked up. *)
Theorem attempt_effects_are_bounded (w : world) (policy : poll_policy)
    (index total : nat) (availableDomains : list string)
    (password : option string) :
  ∃ succeeded tr,
    attempt w policy index total availableDomains password
    = Some (Normal succeeded, tr)
    ∧ probe_calls tr <= Nat.max 1 (maxPollAttempts policy)
    ∧ verify_calls tr <= 1
    ∧ file_writes tr = (if succeeded then 1 else 0)
    ∧ (succeeded = true → verify_calls tr = 1 ∧ 1 <= probe_calls tr).
Proof.
  unfold attempt, createAccount, encryptPassword. run_monad.
  assert (Hf : ∀ P : Prop, false = true → P) by (intros P H; discriminate H).
  destruct (faker_username w) as [raw|err].
  2:{ do 2 eexists. split; [reflexivity|]. cbn. repeat split; auto; lia. }
  destruct password as [p|].
  2:{ do 2 eexists. split; [reflexivity|]. cbn. repeat split; auto; lia. }
  match goal with |- context [regist_sendRequest w ?e ?q ?t] =>
    destruct (regist_sendRequest_total w e q t)
      as (v & d1 & -> & Hp1 & Hv1 & Hw1) end.
  destruct (is_success v); cbn [negb].
  2:{ destruct (has_error v); do 2 eexists; (split; [reflexivity|]);
        repeat split; auto; tally. }
  match goal with |- context [poll w policy ?e ?d ?t] =>
    destruct (poll_bounded w policy e d t)
      as (code & attempts & d2 & -> & [Hv2 Hw2] & Hp2) end.
  destruct code as [code|].
  2:{ do 2 eexists. split; [reflexivity|]. repeat split; auto; tally. }
  destruct (String.eqb code "").
  { do 2 eexists. split; [reflexivity|]. repeat split; auto; tally. }
  match goal with |- context [verify_sendRequest w ?e ?q ?c ?t] =>
    destruct (verify_sendRequest_tally w e q c t)
      as (v' & d3 & -> & Hp3 & Hw3 & Hv3 & Hok3) end.
  destruct (is_success v').
  - specialize (Hok3 eq_refl).
    match goal with |- context [saveToFile w ?f ?d ?t] =>
      destruct (saveToFile_tally w f d t) as (d4 & -> & Hp4 & Hv4 & Hw4 & _) end.
    do 2 eexists. split; [reflexivity|]. repeat split; auto; tally.
  - destruct (has_error v'); do 2 eexists; (split; [reflexivity|]);
      repeat split; auto; tally.
Qed.


(** X12. The batch bot's per-account task never throws either, whatever the
    collaborators do: it ends normally after at most twelve lookups, one
    verify request and one write. *)
Theorem accountTask_never_throws (w : world) (i loopCount : nat)
    (availableDomains : list string) (password : option string) :
  ∃ tr,
    accountTask w i loopCount availableDomains password [] = Some (Normal tt, tr)
    ∧ probe_calls tr <= 12 ∧ verify_calls tr <= 1 ∧ file_writes tr <= 1.
Proof.
  unfold accountTask, encryptPassword. run_monad.
  destruct (faker_username w) as [raw|err].
  2:{ eexists. split; [reflexivity|]. cbn. repeat split; lia. }
  destruct password as [p|].
  2:{ eexists. split; [reflexivity|]. cbn. repeat split; lia. }
  match goal with |- context [regist_sendRequest w ?e ?q ?t] =>
    destruct (regist_sendRequest_total w e q t)
      as (v & d1 & -> & Hp1 & Hv1 & Hw1) end.
  destruct (is_success v).
  2:{ destruct (has_error v); eexists; (split; [reflexivity|]);
        repeat split; tally. }
  match goal with |- context [poll w queue_policy ?e ?d ?t] =>
    destruct (poll_bounded w queue_policy e d t)
      as (code & attempts & d2 & -> & [Hv2 Hw2] & Hp2) end.
  change (Nat.max 1 (maxPollAttempts queue_policy)) with 12 in Hp2.
  destruct code as [code|].
  2:{ eexists. split; [reflexivity|]. repeat split; tally. }
  destruct (String.eqb code "").
  { eexists. split; [reflexivity|]. repeat split; tally. }
  match goal with |- context [verify_sendRequest w ?e ?q ?c ?t] =>
    destruct (verify_sendRequest_tally w e q c t)
      as (v' & d3 & -> & Hp3 & Hw3 & Hv3 & Hok3) end.
  destruct (is_success v').
  - match goal with |- context [saveToFile w ?f ?d ?t] =>
      destruct (saveToFile_tally w f d t) as (d4 & -> & Hp4 & Hv4 & Hw4 & _) end.
    eexists. split; [reflexivity|]. repeat split; tally.
  - destruct (has_error v'); eexists; (split; [reflexivity|]);
      repeat split; tally.
Qed.

(** X13. The pauses of the poll loop.  A code found at lookup [N] has cost
    [N - 1] pauses; a loop that never sees a code has paused after every
    lookup when the policy also waits after the last one, and after all
    but the last otherwise. *)
Theorem poll_pacing (w : world) (policy : poll_policy)
    (email domain : string) :
  1 <= maxPollAttempts policy →
  (∀ N code,
     1 <= N <= maxPollAttempts policy →
     (∀ k, 1 <= k < N → no_code (probe_result w k email domain) = true) →
     probe_result w N email domain = Some code → code ≠ "" →
     ∃ tr, poll w policy email domain []
           = Some (Normal (Some code, N - 1), tr)
           ∧ slept tr = (N.of_nat (N - 1) * pollIntervalMs policy)%N)
  ∧ ((∀ k, 1 <= k <= maxPollAttempts policy →
           no_code (probe_result w k email domain) = true) →
     ∃ code tr, poll w policy email domain []
                = Some (Normal (code, maxPollAttempts policy), tr)
                ∧ slept tr
                  = (N.of_nat (timeout_pauses policy) * pollIntervalMs policy)%N).
Proof.
  intros Hmax. split.
  - intros N code HN Hempty Hcode Hne.
    destruct (pollLoop_success_pace w policy email domain code (N - 1)
                (maxPollAttempts policy) 0 [])
      as (delta & Hrun & _ & Hs).
    + intros k Hk. apply Hempty. cbn in Hk. lia.
    + cbn. replace (N - 1 + 1) with N by lia. exact Hcode.
    + exact Hne.
    + lia.
    + lia.
    + exists delta. split; [exact Hrun|exact Hs].
  - intros Hempty.
    destruct (pollLoop_timeout_pace w policy email domain
                (maxPollAttempts policy - 1) (maxPollAttempts policy) 0 [])
      as (code & delta & Hrun & _ & _ & Hs).
    + intros k Hk. apply Hempty. cbn in Hk. lia.
    + lia.
    + lia.
    + exists code, delta. split; [exact Hrun|]. rewrite Hs.
      unfold timeout_pauses.
      replace (S (maxPollAttempts policy - 1)) with (maxPollAttempts policy)
        by lia.
      reflexivity.
Qed.

Lemma poll_pacing_witness :
  ∃ tr, poll (sample_world third_time_inbox) queue_policy "jane" "mail.com" []
        = Some (Normal (Some "123456", 3 - 1), tr)
        ∧ slept tr = (N.of_nat (3 - 1) * 6000)%N.
Proof.
  apply (proj1 (poll_pacing (sample_world third_time_inbox) queue_policy
                  "jane" "mail.com" ltac:(cbn; lia))).
  - cbn. lia.
  - intros k Hk. assert (k = 1 ∨ k = 2) as [-> | ->] by lia; reflexivity.
  - reflexivity.
  - discriminate.
Defined.

(** A code that never arrives costs the queue bot 72 seconds of pauses and
    the turbo bot 6 seconds. *)
Example timeout_costs :
  (λ '(_, tr), slept tr)
    <$> poll (sample_world silent_inbox) queue_policy "jane" "mail.com" []
  = Some 72000%N
  ∧ (λ '(_, tr), slept tr)
      <$> poll (sample_world silent_inbox) turbo_policy "jane" "mail.com" []
    = Some 6000%N.
Proof. split; vm_compute; reflexivity. Qed.

(** X14. The successful attempt.  When the register request succeeds, the
    code shows up at lookup [N] within the limit and the verify request
    succeeds, the attempt resolves to [true] after exactly [N] lookups and
    one verify request, and it has asked for the line
    [email:password] to be appended to [accounts.txt]; this does not depend
    on the write going through. *)
Theorem attempt_succeeds (w : world) (policy : poll_policy)
    (index total : nat) (availableDomains : list string) (raw p code : string)
    (N : nat) :
  faker_username w = Normal raw →
  register_succeeds w (encryptString (address w availableDomains raw))
    (encryptString p) →
  1 <= N <= maxPollAttempts policy →
  (∀ k, 1 <= k < N →
        no_code (probe_result w k (beforeAt (address w availableDomains raw))
                   (secondPiece (address w availableDomains raw))) = true) →
  probe_result w N (beforeAt (address w availableDomains raw))
    (secondPiece (address w availableDomains raw)) = Some code →
  code ≠ "" →
  verify_succeeds w (encryptString (address w availableDomains raw))
    (encryptString p) (encryptString code) →
  ∃ tr,
    attempt w policy index total availableDomains (Some p)
    = Some (Normal true, tr)
    ∧ probe_calls tr = N ∧ verify_calls tr = 1 ∧ file_writes tr = 1
    ∧ In (WriteFile "accounts.txt"
            (account_line (address w availableDomains raw) p)) tr.
Proof.
  intros Hraw Hreg HN Hempty Hcode Hne Hver.
  unfold attempt, createAccount, encryptPassword, address, account_line in *.
  run_monad. rewrite Hraw.
  match goal with |- context [regist_sendRequest w ?e ?q ?t] =>
    destruct (regist_sendRequest_succeeds w e q t Hreg) as (v & -> & ->) end.
  cbn [negb].
  match goal with |- context [poll w policy ?e ?d ?t] =>
    destruct (pollLoop_success w policy e d code (N - 1)
                (maxPollAttempts policy) 0 t)
      as (d2 & Hrun & Hp2 & Hv2 & Hw2) end.
  { intros k Hk. apply Hempty. cbn in Hk. lia. }
  { cbn. replace (N - 1 + 1) with N by lia. exact Hcode. }
  { exact Hne. }
  { lia. }
  { lia. }
  unfold poll. rewrite Hrun.
  rewrite (proj2 (String.eqb_neq _ _) Hne).
  match goal with |- context [verify_sendRequest w ?e ?q ?c ?t] =>
    destruct (verify_sendRequest_succeeds w e q c t Hver) as (v' & -> & ->) end.
  match goal with |- context [saveToFile w ?f ?d ?t] =>
    destruct (saveToFile_tally w f d t) as (d4 & -> & Hp4 & Hv4 & Hw4 & Hin) end.
  eexists. split; [reflexivity|].
  split; [tally|]. split; [tally|]. split; [tally|].
  apply in_or_app. left. apply in_or_app. right. exact Hin.
Qed.

(** The attempt succeeds on a disk that cannot be written. *)
Lemma attempt_succeeds_witness :
  ∃ tr,
    attempt full_disk_world turbo_policy 1 1 ["mail.com"] (Some "secret")
    = Some (Normal true, tr)
    ∧ probe_calls tr = 3 ∧ verify_calls tr = 1 ∧ file_writes tr = 1
    ∧ In (WriteFile "accounts.txt"
            (account_line (address full_disk_world ["mail.com"] "Jane.Doe")
               "secret")) tr.
Proof.
  apply (attempt_succeeds full_disk_world turbo_policy 1 1 ["mail.com"]
           "Jane.Doe" "secret" "123456" 3 eq_refl).
  - exists {| resp_ok := true; resp_status := 200; resp_text := Normal "ok" |},
      "ok", (JObj [("message", JStr "success")]).
    repeat split; try reflexivity. vm_compute. discriminate.
  - cbn. lia.
  - intros k Hk. assert (k = 1 ∨ k = 2) as [-> | ->] by lia; reflexivity.
  - reflexivity.
  - discriminate.
  - exists "1990-01-01",
      {| resp_ok := true; resp_status := 200; resp_text := Normal "ok" |},
      "ok", (JObj [("message", JStr "success")]).
    repeat split; try reflexivity. vm_compute. discriminate.
Defined.

(** *** The address and its pieces *)

Lemma keepLowerAlnum_chars (s : string) :
  Forall (fun c => is_lower_alnum c = true) (chars (keepLowerAlnum s)).
Proof.
  induction s as [|c s IH]; cbn [keepLowerAlnum]; [constructor|].
  destruct ((_ && _) || (_ && _))%N eqn:E; [|exact IH].
  constructor; [exact E|exact IH].
Qed.

Lemma substring0_chars (P : ascii → Prop) (n : nat) :
  ∀ s, Forall P (chars s) → Forall P (chars (substring0 n s)).
Proof.
  induction n as [|n IH]; intros [|c s] H; cbn; try constructor.
  - now inversion H.
  - apply IH. now inversion H.
Qed.

Lemma substring0_length (n : nat) :
  ∀ s, String.length (substring0 n s) <= n.
Proof.
  induction n as [|n IH]; intros [|c s]; cbn; try lia.
  specialize (IH s). lia.
Qed.

Lemma lower_alnum_not_at (c : ascii) :
  is_lower_alnum c = true → Ascii.eqb c "@" = false.
Proof.
  intros H. apply Ascii.eqb_neq. intros ->. discriminate H.
Qed.

Lemma beforeAt_join (name rest : string) :
  Forall (fun c => is_lower_alnum c = true) (chars name) →
  beforeAt (name ++ String "@" rest) = name
  ∧ afterAt (name ++ String "@" rest) = Some rest.
Proof.
  induction name as [|c name IH]; intros H.
  - split; reflexivity.
  - inversion H as [|? ? Hc Hrest]; subst.
    destruct (IH Hrest) as [IH1 IH2].
    change ((String c name ++ String "@" rest)%string)
      with (String c (name ++ String "@" rest)%string).
    cbn [beforeAt afterAt]. rewrite (lower_alnum_not_at c Hc), IH1, IH2.
    split; reflexivity.
Qed.

Lemma beforeAt_whole (s : string) : includes s "@" = false → beforeAt s = s.
Proof.
  induction s as [|c s IH]; [reflexivity|].
  cbn [includes String.prefix]. intros H.
  apply orb_false_iff in H as [Hp Hi].
  cbn [beforeAt]. destruct (Ascii.eqb c "@") eqn:E.
  - apply Ascii.eqb_eq in E. subst c.
    destruct (ascii_dec "@" "@") as [_|Hn]; [|now destruct Hn].
    destruct s; discriminate Hp.
  - now rewrite IH.
Qed.


(** X15. The address an attempt registers splits back into its pieces: what
    stands before the ["@"] is the generated name, at most eight
    characters, all of them lower-case letters or digits, and, for a domain
    without an ["@"], the second piece is the domain.  So the inbox is
    looked up under exactly the name and domain that were registered. *)
Theorem address_splits_back (w : world) (availableDomains : list string)
    (raw : string) :
  includes
    (nth (random_index w (List.length availableDomains)) availableDomains
       "undefined") "@" = false →
  String.length (beforeAt (address w availableDomains raw)) <= 8
  ∧ Forall (fun c => is_lower_alnum c = true)
      (chars (beforeAt (address w availableDomains raw)))
  ∧ secondPiece (address w availableDomains raw)
    = nth (random_index w (List.length availableDomains)) availableDomains
        "undefined"
  ∧ address w availableDomains raw
    = (beforeAt (address w availableDomains raw) ++ "@"
       ++ secondPiece (address w availableDomains raw))%string.
Proof.
  intros Hdom. unfold address, secondPiece.
  set (name := substring0 8 (keepLowerAlnum (toLowerCase raw))).
  set (domain := nth _ _ _) in *.
  assert (Hname : Forall (fun c => is_lower_alnum c = true) (chars name)).
  { apply substring0_chars, keepLowerAlnum_chars. }
  change ("@" ++ domain)%string with (String "@" domain).
  destruct (beforeAt_join name domain Hname) as [-> ->].
  rewrite (beforeAt_whole domain Hdom).
  split; [apply substring0_length|]. split; [exact Hname|].
  split; reflexivity.
Qed.

Lemma address_splits_back_witness :
  secondPiece (address (sample_world silent_inbox) ["mail.com"] "Jane.Doe")
  = "mail.com".
Proof.
  exact (proj1 (proj2 (proj2 (address_splits_back (sample_world silent_inbox)
                                ["mail.com"] "Jane.Doe" eq_refl)))).
Defined.


(** X16. The register request never throws and sends exactly one request;
    everything else it does is printing.  Its result counts as a success
    exactly when the reply has a success status and a body that is not
    blank and parses to an object whose message is ["success"]. *)
Theorem register_outcome_is_classified (w : world) (e p : string)
    (tr : list effect) :
  ∃ v delta,
    regist_sendRequest w e p tr = Some (Normal v, tr ++ SendCode e p :: delta)
    ∧ (∀ x, In x delta → ∃ line, x = Console line)
    ∧ (is_success v = true ↔ register_succeeds w e p).
Proof.
  unfold regist_sendRequest, read_response, register_succeeds. run_monad.
  assert (Hprint : ∀ line x, In x [Console line] → ∃ l, x = Console l).
  { intros line x [<-|[]]. eauto. }
  assert (Hnone : ∀ x : effect, In x [] → ∃ l, x = Console l)
    by (intros x []).
  destruct (fetch_send_code w e p) as [r|err] eqn:Hf.
  2:{ do 2 eexists. rewrite <- app_assoc. split; [reflexivity|].
      split; [apply Hprint|]. split; [discriminate|].
      intros (r & text & data & H & _). discriminate H. }
  destruct (resp_ok r) eqn:Hok; cbn [negb].
  2:{ do 2 eexists. rewrite <- app_assoc. split; [reflexivity|].
      split; [apply Hprint|]. split; [discriminate|].
      intros (r' & text & data & [= <-] & H & _). congruence. }
  destruct (resp_text r) as [text|err] eqn:Ht.
  2:{ do 2 eexists. rewrite <- app_assoc. split; [reflexivity|].
      split; [apply Hprint|]. split; [discriminate|].
      intros (r' & text & data & [= <-] & _ & H & _). congruence. }
  destruct (String.eqb (trim text) "") eqn:Hb.
  { do 2 eexists. rewrite <- app_assoc. split; [reflexivity|].
    split; [apply Hprint|]. split; [discriminate|].
    intros (r' & text' & data & [= <-] & _ & H & Hne & _).
    apply String.eqb_eq in Hb. congruence. }
  apply String.eqb_neq in Hb.
  destruct (JSON_parse w text) as [data|] eqn:Hp.
  - exists data, []. split; [reflexivity|]. split; [exact Hnone|]. split.
    + intros Hs. exists r, text, data. auto 7.
    + intros (r' & text' & data' & [= <-] & _ & H & _ & Hp' & Hs).
      congruence.
  - do 2 eexists. rewrite <- app_assoc. split; [reflexivity|].
    split; [apply Hprint|]. split; [discriminate|].
    intros (r' & text' & data' & [= <-] & _ & H & _ & Hp' & _). congruence.
Qed.

End ExecutorEffects.

Module MatchingFacts.
Import Text Colleges Matching.
Local Open Scope list_scope.

(** *** Characters *)

Ltac by_cases_on c :=
  destruct c as [[] [] [] [] [] [] [] []]; try reflexivity; try discriminate.

Lemma alnum_lower (c : ascii) : is_alnum (lower c) = is_alnum c.
Proof. by_cases_on c. Qed.

Lemma space_lower (c : ascii) : is_space (lower c) = is_space c.
Proof. by_cases_on c. Qed.

Lemma lower_lower (c : ascii) : lower (lower c) = lower c.
Proof. by_cases_on c. Qed.

Lemma open_lower (c : ascii) : Ascii.eqb (lower c) "(" = Ascii.eqb c "(".
Proof. by_cases_on c. Qed.

Lemma close_lower (c : ascii) : Ascii.eqb (lower c) ")" = Ascii.eqb c ")".
Proof. by_cases_on c. Qed.

Lemma alnum_not_space (c : ascii) : is_alnum c = true → is_space c = false.
Proof. by_cases_on c. Qed.

Lemma alnum_lower_alnum (c : ascii) :
  is_alnum c = true → is_lower_alnum (lower c) = true.
Proof. by_cases_on c. Qed.

Lemma lower_alnum_alnum (c : ascii) : is_lower_alnum c = true → is_alnum c = true.
Proof. by_cases_on c. Qed.

Lemma lower_alnum_fixed (c : ascii) : is_lower_alnum c = true → lower c = c.
Proof. by_cases_on c. Qed.

Lemma alnum_not_open (c : ascii) : is_alnum c = true → Ascii.eqb c "(" = false.
Proof. by_cases_on c. Qed.

(** *** The search *)

Lemma scanColleges_find (target : string) (colleges : list college) :
  ∀ partialMatch,
    scanColleges target partialMatch colleges
    = match List.find (is_exact target) colleges with
      | Some c => Some c
      | None =>
          match partialMatch with
          | Some p => Some p
          | None => List.find (is_partial target) colleges
          end
      end.
Proof.
  induction colleges as [|c cs IH]; intros pm; cbn [scanColleges List.find].
  - now destruct pm.
  - unfold is_exact at 1.
    destruct (String.eqb (normalizeName (college_name c)) target); [reflexivity|].
    rewrite IH. destruct (List.find (is_exact target) cs); [reflexivity|].
    destruct pm; [reflexivity|].
    unfold is_partial at 2.
    destruct (includes _ _ || includes _ _); reflexivity.
Qed.

Lemma includes_empty (s : string) : includes s "" = true.
Proof. destruct s; reflexivity. Qed.

Lemma prefix_refl (s : string) : String.prefix s s = true.
Proof.
  induction s as [|c s IH]; [reflexivity|]. cbn.
  destruct (ascii_dec c c) as [_|Hn]; [exact IH|now destruct Hn].
Qed.

Lemma includes_refl (s : string) : includes s s = true.
Proof. destruct s; cbn [includes]; rewrite prefix_refl; reflexivity. Qed.

Lemma exact_is_partial (target : string) (c : college) :
  is_exact target c = true → is_partial target c = true.
Proof.
  unfold is_exact, is_partial. intros H. apply String.eqb_eq in H.
  rewrite H, includes_refl. reflexivity.
Qed.

(** X17. [findCollegeByName] returns the first college of the map whose
    normalized name equals the normalized school name; when there is none,
    the first college one of whose normalized name and the target contains
    the other; and nothing when there is neither or when the school name
    normalizes to the empty string. *)
Theorem findCollegeByName_first_exact_else_first_partial
    (collegesMap : colleges_map) (schoolName : option string) :
  findCollegeByName collegesMap schoolName
  = if String.eqb (normalizeName schoolName) "" then None
    else
      match List.find (is_exact (normalizeName schoolName))
              (map_values collegesMap) with
      | Some c => Some c
      | None =>
          List.find (is_partial (normalizeName schoolName))
            (map_values collegesMap)
      end.
Proof.
  unfold findCollegeByName.
  destruct (String.eqb (normalizeName schoolName) ""); [reflexivity|].
  apply scanColleges_find.
Qed.

(** X18. What [findCollegeByName] returns is a college of the map that
    matches the school name exactly or partially, and it returns nothing
    only when the school name normalizes to the empty string or no college
    of the map matches even partially. *)
Theorem findCollegeByName_sound_and_complete
    (collegesMap : colleges_map) (schoolName : option string) :
  (∀ c, findCollegeByName collegesMap schoolName = Some c →
        In c (map_values collegesMap)
        ∧ normalizeName schoolName ≠ ""
        ∧ is_partial (normalizeName schoolName) c = true)
  ∧ (findCollegeByName collegesMap schoolName = None ↔
     normalizeName schoolName = ""
     ∨ ∀ c, In c (map_values collegesMap) →
            is_partial (normalizeName schoolName) c = false).
Proof.
  unfold findCollegeByName.
  destruct (String.eqb (normalizeName schoolName) "") eqn:Ht.
  { apply String.eqb_eq in Ht. split; [discriminate|]. split; auto. }
  apply String.eqb_neq in Ht. rewrite scanColleges_find.
  set (t := normalizeName schoolName) in *.
  destruct (List.find (is_exact t) (map_values collegesMap)) as [e|] eqn:He.
  - apply List.find_some in He as [Hin Hex]. split.
    + intros c [= <-]. split; [exact Hin|]. split; [exact Ht|].
      now apply exact_is_partial.
    + split; [discriminate|]. intros [H|H]; [contradiction|].
      specialize (H e Hin). rewrite (exact_is_partial t e Hex) in H.
      discriminate H.
  - destruct (List.find (is_partial t) (map_values collegesMap)) as [p|] eqn:Hp.
    + apply List.find_some in Hp as [Hin Hpar]. split.
      * intros c [= <-]. auto.
      * split; [discriminate|]. intros [H|H]; [contradiction|].
        specialize (H p Hin). rewrite Hpar in H. discriminate H.
    + split; [discriminate|]. split; [|reflexivity]. intros _. right.
      intros c Hin. pose proof (List.find_none _ _ Hp c Hin) as H. exact H.
Qed.

(** X19. A college whose name is missing, or normalizes to the empty string,
    matches every school name partially: with such an entry in the map the
    search never comes back empty-handed for a school name that does not
    itself normalize to the empty string. *)
Theorem nameless_college_matches_everything
    (collegesMap : colleges_map) (schoolName : option string) (c : college) :
  In c (map_values collegesMap) →
  normalizeName (college_name c) = "" →
  normalizeName schoolName ≠ "" →
  ∃ found, findCollegeByName collegesMap schoolName = Some found.
Proof.
  intros Hin Hc Ht.
  destruct (findCollegeByName collegesMap schoolName) as [found|] eqn:Hf;
    [eauto|].
  exfalso. unfold findCollegeByName in Hf.
  rewrite (proj2 (String.eqb_neq _ _) Ht), scanColleges_find in Hf.
  destruct (List.find (is_exact _) _); [discriminate Hf|].
  pose proof (List.find_none _ _ Hf c Hin) as H.
  unfold is_partial in H. rewrite Hc, includes_empty, orb_true_r in H.
  discriminate H.
Qed.

Lemma nameless_college_matches_everything_witness :
  ∃ found, findCollegeByName nameless_colleges (Some "Yale University")
           = Some found.
Proof.
  apply (nameless_college_matches_everything nameless_colleges
           (Some "Yale University")
           {| college_id := 7; college_name := None |}).
  - vm_compute. left. reflexivity.
  - reflexivity.
  - vm_compute. discriminate.
Defined.

(** The nameless entry is what a school that is not in the file gets. *)
Example yale_gets_the_nameless_college :
  college_id <$> findCollegeByName nameless_colleges (Some "Yale University")
  = Some 7%Z.
Proof. vm_compute. reflexivity. Qed.

(** *** The shape of a normalized name *)

Lemma shaped_weaken (ok : ascii → bool) (strict : bool) (s : string) :
  shaped ok strict true s = true → shaped ok strict false s = true.
Proof.
  destruct s as [|c s]; cbn.
  - now rewrite andb_false_r.
  - destruct (ok c); [auto|]. rewrite andb_false_r. discriminate.
Qed.

Lemma collapse_shaped (s : string) :
  ∀ b, shaped is_alnum false b (collapseSeparators b s) = true.
Proof.
  induction s as [|c s IH]; intros b; cbn [collapseSeparators].
  - reflexivity.
  - destruct (is_alnum c) eqn:Hc.
    + cbn [shaped]. rewrite Hc. apply IH.
    + destruct b; [apply IH|]. cbn [shaped]. rewrite IH. reflexivity.
Qed.

Lemma trimStart_shaped (b : bool) (s : string) :
  shaped is_alnum false b s = true →
  shaped is_alnum false true (trimStart s) = true.
Proof.
  destruct s as [|c s]; [reflexivity|]. cbn [shaped trimStart].
  destruct (is_alnum c) eqn:Hc.
  - rewrite (alnum_not_space c Hc). cbn [shaped]. now rewrite Hc.
  - intros H. apply andb_true_iff in H as [H Hs].
    apply andb_true_iff in H as [Hsp _].
    apply Ascii.eqb_eq in Hsp. subst c. cbn [is_space]. 
    change (is_space " ") with true. cbv iota.
    destruct s as [|d s]; [reflexivity|]. cbn [shaped trimStart] in *.
    destruct (is_alnum d) eqn:Hd.
    + rewrite (alnum_not_space d Hd). cbn [shaped]. now rewrite Hd.
    + rewrite andb_false_r in Hs. discriminate Hs.
Qed.

Lemma trimEnd_shaped (s : string) :
  ∀ b, shaped is_alnum false b s = true →
       trimEnd s = "" ∨ shaped is_alnum true b (trimEnd s) = true.
Proof.
  induction s as [|c s IH]; intros b H; [now left|].
  cbn [shaped] in H. cbn [trimEnd].
  destruct (is_alnum c) eqn:Hc.
  - right. destruct (IH false H) as [-> | Hs].
    + rewrite (alnum_not_space c Hc). cbn. now rewrite Hc.
    + destruct (trimEnd s) as [|d r] eqn:Hr.
      * rewrite (alnum_not_space c Hc). cbn. now rewrite Hc.
      * cbn [shaped]. rewrite Hc. exact Hs.
  - apply andb_true_iff in H as [H Hs].
    apply andb_true_iff in H as [Hsp Hb].
    apply Ascii.eqb_eq in Hsp. subst c.
    destruct (IH true Hs) as [-> | Hs']; [now left|].
    destruct (trimEnd s) as [|d r] eqn:Hr; [now left|].
    right. cbn [shaped]. rewrite Hc, Hb. exact Hs'.
Qed.

Lemma toLowerCase_shaped (strict : bool) (s : string) :
  ∀ b, shaped is_alnum strict b s = true →
       shaped is_lower_alnum strict b (toLowerCase s) = true.
Proof.
  induction s as [|c s IH]; intros b H; [exact H|].
  cbn [shaped toLowerCase] in *.
  destruct (is_alnum c) eqn:Hc.
  - rewrite (alnum_lower_alnum c Hc). now apply IH.
  - apply andb_true_iff in H as [H Hs].
    apply andb_true_iff in H as [Hsp Hb].
    apply Ascii.eqb_eq in Hsp. subst c. cbn. rewrite Hb. now apply IH.
Qed.

Lemma normalizeName_shaped (name : string) :
  tidy (toLowerCase
          (trim (collapseSeparators false
                   (dropParentheticals (String.length name) name)))) = true.
Proof.
  unfold tidy, trim.
  set (s := collapseSeparators false _).
  pose proof (trimStart_shaped false s (collapse_shaped _ false)) as H1.
  destruct (trimEnd_shaped _ true H1) as [-> | H2]; [reflexivity|].
  rewrite (toLowerCase_shaped true _ true H2). apply orb_true_r.
Qed.

(** *** Normalizing twice *)

Lemma dropParentheticals_shaped (ok : ascii → bool) (strict : bool) :
  (∀ c, ok c = true → Ascii.eqb c "(" = false) →
  ∀ fuel s b, shaped ok strict b s = true → dropParentheticals fuel s = s.
Proof.
  intros Hok. induction fuel as [|fuel IH]; intros s b H; [reflexivity|].
  destruct s as [|c s]; [reflexivity|]. cbn [dropParentheticals shaped] in *.
  destruct (ok c) eqn:Hc.
  - rewrite (Hok c Hc). now rewrite (IH s false H).
  - apply andb_true_iff in H as [H Hs].
    apply andb_true_iff in H as [Hsp _].
    apply Ascii.eqb_eq in Hsp. subst c. cbn. now rewrite (IH s true Hs).
Qed.

Lemma collapse_fixed (s : string) :
  ∀ b, shaped is_lower_alnum true b s = true → collapseSeparators b s = s.
Proof.
  induction s as [|c s IH]; intros b H; [reflexivity|].
  cbn [shaped collapseSeparators] in *.
  destruct (is_lower_alnum c) eqn:Hc.
  - rewrite (lower_alnum_alnum c Hc). now rewrite (IH false H).
  - apply andb_true_iff in H as [H Hs].
    apply andb_true_iff in H as [Hsp Hb].
    apply Ascii.eqb_eq in Hsp. subst c. cbn.
    destruct b; [discriminate Hb|]. now rewrite (IH true Hs).
Qed.

Lemma trimStart_fixed (s : string) :
  shaped is_lower_alnum true true s = true → trimStart s = s.
Proof.
  destruct s as [|c s]; [reflexivity|]. cbn [shaped trimStart].
  destruct (is_lower_alnum c) eqn:Hc.
  - now rewrite (alnum_not_space c (lower_alnum_alnum c Hc)).
  - rewrite andb_false_r. discriminate.
Qed.

Lemma trimEnd_fixed (s : string) :
  ∀ b, shaped is_lower_alnum true b s = true → trimEnd s = s.
Proof.
  induction s as [|c s IH]; intros b H; [reflexivity|].
  cbn [shaped trimEnd] in *.
  destruct (is_lower_alnum c) eqn:Hc.
  - rewrite (IH false H).
    destruct s; [|reflexivity].
    now rewrite (alnum_not_space c (lower_alnum_alnum c Hc)).
  - apply andb_true_iff in H as [H Hs].
    apply andb_true_iff in H as [Hsp Hb].
    rewrite (IH true Hs). destruct s; [discriminate Hs|reflexivity].
Qed.

Lemma toLowerCase_fixed (s : string) :
  ∀ b, shaped is_lower_alnum true b s = true → toLowerCase s = s.
Proof.
  induction s as [|c s IH]; intros b H; [reflexivity|].
  cbn [shaped toLowerCase] in *.
  destruct (is_lower_alnum c) eqn:Hc.
  - now rewrite (lower_alnum_fixed c Hc), (IH false H).
  - apply andb_true_iff in H as [H Hs].
    apply andb_true_iff in H as [Hsp Hb].
    apply Ascii.eqb_eq in Hsp. subst c. cbn. now rewrite (IH true Hs).
Qed.

Lemma normalizeName_fixed (s : string) :
  tidy s = true → normalizeName (Some s) = s.
Proof.
  unfold tidy. intros H. apply orb_true_iff in H as [H|H].
  - apply String.eqb_eq in H. now subst s.
  - destruct s as [|c s]; [reflexivity|].
    unfold normalizeName, trim.
    rewrite (dropParentheticals_shaped is_lower_alnum true) with (b := true);
      [|intros d Hd; apply alnum_not_open, lower_alnum_alnum, Hd|exact H].
    rewrite (collapse_fixed _ false (shaped_weaken _ _ _ H)).
    rewrite (trimStart_fixed _ H), (trimEnd_fixed _ true H).
    apply (toLowerCase_fixed _ true H).
Qed.

(** X20. A normalized name is empty or consists of lower-case words of
    letters and digits separated by single spaces, and normalizing it
    again changes nothing. *)
Theorem normalizeName_is_tidy_and_idempotent (name : option string) :
  tidy (normalizeName name) = true
  ∧ normalizeName (Some (normalizeName name)) = normalizeName name.
Proof.
  assert (H : tidy (normalizeName name) = true).
  { destruct name as [[|c s]|]; try reflexivity.
    apply (normalizeName_shaped (String c s)). }
  split; [exact H|]. now apply normalizeName_fixed.
Qed.

(** *** Letter case *)

Lemma toLowerCase_length (s : string) :
  String.length (toLowerCase s) = String.length s.
Proof. induction s as [|c s IH]; cbn; congruence. Qed.

Lemma toLowerCase_idem (s : string) : toLowerCase (toLowerCase s) = toLowerCase s.
Proof. induction s as [|c s IH]; cbn; [|rewrite lower_lower, IH]; reflexivity. Qed.

Lemma after_close_lower (s : string) :
  after_close (toLowerCase s) = toLowerCase <$> after_close s.
Proof.
  induction s as [|c s IH]; [reflexivity|]. cbn [toLowerCase after_close].
  rewrite close_lower. destruct (Ascii.eqb c ")"); [reflexivity|exact IH].
Qed.

Lemma dropParentheticals_lower (fuel : nat) :
  ∀ s, dropParentheticals fuel (toLowerCase s)
       = toLowerCase (dropParentheticals fuel s).
Proof.
  induction fuel as [|fuel IH]; intros s; [reflexivity|].
  destruct s as [|c s]; [reflexivity|].
  cbn [toLowerCase dropParentheticals]. rewrite open_lower.
  destruct (Ascii.eqb c "(") eqn:Hc.
  - rewrite after_close_lower. destruct (after_close s) as [after|]; cbn.
    + now rewrite IH.
    + now rewrite IH.
  - cbn [toLowerCase]. now rewrite IH.
Qed.

Lemma collapse_lower (s : string) :
  ∀ b, collapseSeparators b (toLowerCase s)
       = toLowerCase (collapseSeparators b s).
Proof.
  induction s as [|c s IH]; intros b; [reflexivity|].
  cbn [toLowerCase collapseSeparators]. rewrite alnum_lower.
  destruct (is_alnum c); [cbn [toLowerCase]; now rewrite IH|].
  destruct b; [apply IH|]. cbn [toLowerCase]. now rewrite IH.
Qed.

Lemma trimStart_lower (s : string) :
  trimStart (toLowerCase s) = toLowerCase (trimStart s).
Proof.
  induction s as [|c s IH]; [reflexivity|]. cbn [toLowerCase trimStart].
  rewrite space_lower. destruct (is_space c); [exact IH|reflexivity].
Qed.

Lemma trimEnd_lower (s : string) :
  trimEnd (toLowerCase s) = toLowerCase (trimEnd s).
Proof.
  induction s as [|c s IH]; [reflexivity|]. cbn [toLowerCase trimEnd].
  rewrite IH, space_lower.
  destruct (trimEnd s); cbn [toLowerCase]; [|reflexivity].
  destruct (is_space c); reflexivity.
Qed.

Lemma normalizeName_lower (s : string) :
  normalizeName (Some (toLowerCase s)) = normalizeName (Some s).
Proof.
  destruct s as [|c s]; [reflexivity|].
  change (toLowerCase (String c s)) with (String (lower c) (toLowerCase s)).
  unfold normalizeName.
  change (String (lower c) (toLowerCase s)) with (toLowerCase (String c s)).
  rewrite toLowerCase_length, dropParentheticals_lower, collapse_lower.
  unfold trim. rewrite trimStart_lower, trimEnd_lower.
  apply toLowerCase_idem.
Qed.

(** X21. The search ignores the case of the letters A to Z: two school names
    that differ only in it normalize to the same text and find the same
    college. *)
Theorem matching_ignores_letter_case (collegesMap : colleges_map)
    (s t : string) :
  toLowerCase s = toLowerCase t →
  normalizeName (Some s) = normalizeName (Some t)
  ∧ findCollegeByName collegesMap (Some s)
    = findCollegeByName collegesMap (Some t).
Proof.
  intros H.
  assert (Hn : normalizeName (Some s) = normalizeName (Some t)).
  { rewrite <- (normalizeName_lower s), <- (normalizeName_lower t). now rewrite H. }
  split; [exact Hn|]. unfold findCollegeByName. now rewrite Hn.
Qed.

Lemma matching_ignores_letter_case_witness :
  findCollegeByName texas_colleges (Some "UNIVERSITY of texas")
  = findCollegeByName texas_colleges (Some "University Of Texas").
Proof.
  exact (proj2 (matching_ignores_letter_case texas_colleges
                  "UNIVERSITY of texas" "University Of Texas" eq_refl)).
Defined.


(** *** Loading the colleges file *)

Lemma map_set_keys (m : colleges_map) (k : Z) (v : college) :
  ∀ k', In k' (map fst (map_set m k v)) ↔ k' = k ∨ In k' (map fst m).
Proof.
  induction m as [|[k0 v0] m IH]; intros k'; cbn [map_set].
  - cbn. intuition congruence.
  - destruct (k =? k0)%Z eqn:E.
    + apply Z.eqb_eq in E. subst k0. cbn. intuition congruence.
    + cbn [map fst In]. rewrite IH. intuition congruence.
Qed.

Lemma map_set_NoDup (m : colleges_map) (k : Z) (v : college) :
  List.NoDup (map fst m) → List.NoDup (map fst (map_set m k v)).
Proof.
  induction m as [|[k0 v0] m IH]; intros H; cbn [map_set].
  - cbn. constructor; [intros []|constructor].
  - inversion H as [|? ? Hnot Hrest]; subst.
    destruct (k =? k0)%Z eqn:E.
    + apply Z.eqb_eq in E. subst k0. cbn. now constructor.
    + apply Z.eqb_neq in E. cbn [map fst]. constructor; [|now apply IH].
      rewrite map_set_keys. intros [->|Hin]; [now apply E|contradiction].
Qed.

Lemma map_set_entries (m : colleges_map) (k : Z) (v : college) :
  List.NoDup (map fst m) →
  ∀ k' v', In (k', v') (map_set m k v)
           ↔ (k' = k ∧ v' = v) ∨ (k' ≠ k ∧ In (k', v') m).
Proof.
  induction m as [|[k0 v0] m IH]; intros H k' v'; cbn [map_set].
  - cbn. split.
    + intros [[= <- <-]|[]]. now left.
    + intros [[-> ->]|[_ []]]. now left.
  - inversion H as [|? ? Hnot Hrest]; subst.
    destruct (k =? k0)%Z eqn:E.
    + apply Z.eqb_eq in E. subst k0. cbn [In]. split.
      * intros [[= <- <-]|Hin]; [now left|]. right. split; [|now right].
        intros ->. apply Hnot. change k with (fst (k, v')).
        now apply in_map.
      * intros [[-> ->]|[Hne [[= -> ->]|Hin]]];
          [now left|now destruct Hne|now right].
    + apply Z.eqb_neq in E. cbn [In]. rewrite (IH Hrest). split.
      * intros [[= <- <-]|[[-> ->]|[Hne Hin]]].
        -- right. split; [congruence|now left].
        -- now left.
        -- right. split; [exact Hne|now right].
      * intros [[-> ->]|[Hne [[= <- <-]|Hin]]].
        -- right. now left.
        -- now left.
        -- right. right. now split.
Qed.

Lemma loadColleges_snoc (data : list college) (c : college) :
  loadColleges (data ++ [c]) = map_set (loadColleges data) (college_id c) c.
Proof. unfold loadColleges. now rewrite fold_left_app. Qed.

(** X22. Loading the colleges file keeps one entry per id: the ids of the map
    are pairwise different, and the entry under an id is the last college
    of the file with that id. *)
Theorem loadColleges_last_entry_wins (data : list college) :
  List.NoDup (map fst (loadColleges data))
  ∧ ∀ k c, In (k, c) (loadColleges data)
           ↔ List.find (fun c' => (college_id c' =? k)%Z) (rev data) = Some c.
Proof.
  induction data as [|c0 data [IHn IHe]] using rev_ind.
  - split; [constructor|]. intros k c. cbn. split; [intros []|discriminate].
  - rewrite loadColleges_snoc. split; [now apply map_set_NoDup|].
    intros k c. rewrite (map_set_entries _ _ _ IHn), rev_app_distr.
    cbn [rev app List.find]. destruct (college_id c0 =? k)%Z eqn:E.
    + apply Z.eqb_eq in E. split.
      * intros [[_ ->]|[Hne _]]; [reflexivity|congruence].
      * intros [= ->]. left. auto.
    + apply Z.eqb_neq in E. rewrite <- IHe. split.
      * intros [[-> _]|[_ Hin]]; [congruence|exact Hin].
      * intros Hin. right. split; [congruence|exact Hin].
Qed.

End MatchingFacts.

Module DomainsFacts.
Import Text Executor Domains.
Local Open Scope list_scope.

Lemma existsb_eqb_In (x : string) (s : list string) :
  existsb (String.eqb x) s = true ↔ In x s.
Proof.
  rewrite existsb_exists. split.
  - intros (y & Hin & Heq). apply String.eqb_eq in Heq. now subst y.
  - intros Hin. exists x. split; [exact Hin|apply String.eqb_refl].
Qed.

Lemma set_add_spec (x : string) (s : list string) :
  List.NoDup s →
  List.NoDup (set_add x s) ∧ ∀ d, In d (set_add x s) ↔ d = x ∨ In d s.
Proof.
  intros Hs. unfold set_add. destruct (existsb (String.eqb x) s) eqn:E.
  - apply existsb_eqb_In in E. split; [exact Hs|].
    intros d. split; [auto|]. intros [->|H]; assumption.
  - assert (Hx : ¬ In x s).
    { intros Hin. apply existsb_eqb_In in Hin. congruence. }
    split.
    + apply List.NoDup_app; [exact Hs| |].
      * constructor; [intros []|constructor].
      * intros a Ha [<-|[]]. exact (Hx Ha).
    + intros d. rewrite in_app_iff. cbn. intuition congruence.
Qed.

Lemma collect_spec (texts : list string) :
  ∀ acc, List.NoDup acc →
    let result :=
      fold_left
        (fun domains text =>
           let dom := trim text in
           if keeps dom then set_add dom domains else domains)
        texts acc in
    List.NoDup result
    ∧ ∀ d, In d result
           ↔ In d acc ∨ (keeps d = true ∧ ∃ text, In text texts ∧ trim text = d).
Proof.
  induction texts as [|t texts IH]; intros acc Hacc; cbn [fold_left].
  - split; [exact Hacc|]. intros d. split; [auto|].
    intros [H|(_ & text & [] & _)]. exact H.
  - cbv zeta. destruct (keeps (trim t)) eqn:Hk.
    + destruct (set_add_spec (trim t) acc Hacc) as [Hn Hin].
      destruct (IH _ Hn) as [Hn' Hin']. split; [exact Hn'|].
      intros d. rewrite Hin', Hin. split.
      * intros [[->|H]|(Hd & text & Ht & He)].
        -- right. split; [exact Hk|]. exists t. split; [now left|reflexivity].
        -- now left.
        -- right. split; [exact Hd|]. exists text. split; [now right|exact He].
      * intros [H|(Hd & text & [<-|Ht] & He)].
        -- left. now right.
        -- left. left. now symmetry.
        -- right. split; [exact Hd|]. exists text. now split.
    + destruct (IH _ Hacc) as [Hn' Hin']. split; [exact Hn'|].
      intros d. rewrite Hin'. split.
      * intros [H|(Hd & text & Ht & He)]; [now left|].
        right. split; [exact Hd|]. exists text. split; [now right|exact He].
      * intros [H|(Hd & text & [<-|Ht] & He)]; [now left| |].
        -- rewrite He in Hk. congruence.
        -- right. split; [exact Hd|]. exists text. now split.
Qed.

(** X23. The list of signup domains has no duplicates and holds exactly the
    trimmed, non-empty texts with a dot that the generator page suggests;
    it is empty whenever the page cannot be fetched, is answered with an
    error status or cannot be read.  [getEmailRandom] returns the same
    list. *)
Theorem fetchCapcutDomains_spec (page : completion response)
    (suggestions : string → list string) :
  List.NoDup (fetchCapcutDomains page suggestions)
  ∧ (∀ d, In d (fetchCapcutDomains page suggestions)
          ↔ keeps d = true
            ∧ ∃ response html text,
                page = Normal response ∧ resp_ok response = true
                ∧ resp_text response = Normal html
                ∧ In text (suggestions html) ∧ trim text = d)
  ∧ getEmailRandom page suggestions = fetchCapcutDomains page suggestions.
Proof.
  split; [|split].
  - unfold fetchCapcutDomains.
    destruct page as [r|err]; [|constructor].
    destruct (resp_ok r); cbn [negb]; [|constructor].
    destruct (resp_text r) as [html|err]; [|constructor].
    apply (collect_spec (suggestions html) []). constructor.
  - intros d. unfold fetchCapcutDomains.
    destruct page as [r|err].
    2:{ split; [intros []|]. intros (_ & r & html & text & H & _).
        discriminate H. }
    destruct (resp_ok r) eqn:Hok; cbn [negb].
    2:{ split; [intros []|]. intros (_ & r' & html & text & [= <-] & H & _).
        congruence. }
    destruct (resp_text r) as [html|err] eqn:Ht.
    2:{ split; [intros []|].
        intros (_ & r' & html & text & [= <-] & _ & H & _). congruence. }
    destruct (collect_spec (suggestions html) [] (List.NoDup_nil _)) as [_ Hin].
    cbv zeta in Hin. rewrite Hin. split.
    + intros [[]|(Hd & text & Hi & He)]. split; [exact Hd|].
      exists r, html, text. auto.
    + intros (Hd & r' & html' & text & [= <-] & _ & Ht' & Hi & He).
      rewrite Ht in Ht'. injection Ht' as <-.
      right. split; [exact Hd|]. exists text. now split.
  - unfold getEmailRandom. cbv zeta.
    destruct (fetchCapcutDomains page suggestions); reflexivity.
Qed.

Example sample_domains :
  fetchCapcutDomains sample_page sample_suggestions = ["mail.com"; "box.org"].
Proof. vm_compute. reflexivity. Qed.

End DomainsFacts.

Module PromptFacts.
Import Text Prompt.

Ltac by_branches :=
  repeat match goal with
         | |- context [if listed ?l ?x then _ else _] =>
             destruct (listed l x) eqn:?
         end.

(** X24. In the turbo bot and the race-based bot every answer to the
    country prompt, valid or not, selects a country for which both a proxy
    and a display name are on file. *)
Theorem prompt_country_is_known (countryInput : string) :
  is_Some (lookup (Codes.promptCountry countryInput) Codes.proxies)
  ∧ is_Some (lookup (Codes.promptCountry countryInput) Codes.countryNames).
Proof.
  unfold Codes.promptCountry, Codes.country.
  generalize (toLowerCase (trim countryInput)). intros cleanInput.
  by_branches; split; vm_compute; eauto.
Qed.

(** X25. In the batch bot every answer selects a country with a proxy on
    file, but the display name is missing exactly when the answer selects
    Thailand, which each of [10], [th], [thai] and [thailand] does: the
    key is [th] among the proxies and [thailand] among the names. *)
Theorem batch_prompt_loses_thailand (countryInput : string) :
  is_Some (lookup (Names.promptCountry countryInput) Names.proxies)
  ∧ (lookup (Names.promptCountry countryInput) Names.countryNames = None
     ↔ Names.promptCountry countryInput = "th")
  ∧ (listed ["10"; "th"; "thai"; "thailand"] (toLowerCase (trim countryInput))
     = true →
     Names.promptCountry countryInput = "th").
Proof.
  unfold Names.promptCountry.
  generalize (toLowerCase (trim countryInput)). intros cleanInput.
  split; [|split].
  - unfold Names.country. by_branches; vm_compute; eauto.
  - unfold Names.country. by_branches; vm_compute; split; congruence.
  - intros H. unfold listed in H. cbn [existsb] in H.
    rewrite !orb_true_iff in H.
    destruct H as [H|[H|[H|[H|H]]]]; try discriminate H;
      apply String.eqb_eq in H; subst cleanInput; reflexivity.
Qed.

End PromptFacts.

Module StudentsFacts.
Import Text Executor Students MatchingFacts.
Local Open Scope list_scope.

Lemma or_else_nonempty (x : option string) (fallback : string) :
  fallback ≠ "" → or_else x fallback ≠ "".
Proof.
  intros Hf. unfold or_else. destruct x as [s|]; [|exact Hf].
  destruct (String.eqb s "") eqn:E; [exact Hf|]. now apply String.eqb_neq.
Qed.

Lemma CONFIG_nonempty (e : env) :
  defaultBirthDate (CONFIG e) ≠ "" ∧ defaultStatus (CONFIG e) ≠ ""
  ∧ defaultMajor (CONFIG e) ≠ "".
Proof. repeat split; apply or_else_nonempty; discriminate. Qed.

Lemma toLowerCase_nonempty (s : string) : s ≠ "" → toLowerCase s ≠ "".
Proof. destruct s; [congruence|discriminate]. Qed.

Lemma append_nonempty_r (s t : string) : t ≠ "" → (s ++ t)%string ≠ "".
Proof.
  intros Ht H. destruct s as [|c s]; [now apply Ht|].
  change ((String c s ++ t)%string) with (String c (s ++ t)%string) in H.
  discriminate H.
Qed.

Lemma parseLine_fields (cfg : config) (JSON_parse : string → option jsval)
    (line : string) (s : student) :
  defaultBirthDate cfg ≠ "" →
  parseLine cfg JSON_parse line = Some s →
  firstName s ≠ "" ∧ lastName s ≠ "" ∧ email s ≠ "" ∧ birthDate s ≠ ""
  ∧ toLowerCase (email s) = email s.
Proof.
  intros Hb. unfold parseLine.
  destruct (List.length _ <? 4)%nat; [discriminate|].
  intros [= <-]. cbn [firstName lastName email birthDate].
  split; [apply or_else_nonempty; discriminate|].
  split; [apply or_else_nonempty; discriminate|].
  split; [|split].
  - apply toLowerCase_nonempty, or_else_nonempty.
    apply append_nonempty_r. discriminate.
  - now apply or_else_nonempty.
  - apply toLowerCase_idem.
Qed.

(** No letter of a string in lower case has a lower-case form of its own:
    none is among A to Z, À to Ö or Ø to Þ. *)
Lemma lower_case_has_no_capital (s : string) :
  toLowerCase s = s →
  Forall (fun c => let n := N_of_ascii c in
                   (n < 65 ∨ 90 < n) ∧ (n < 192 ∨ 214 < n ∨ n = 215)
                   ∧ (n < 216 ∨ 222 < n))%N
    (list_ascii_of_string s).
Proof.
  induction s as [|c s IH]; cbn [toLowerCase list_ascii_of_string];
    [constructor|].
  intros [= Hc Hs]. constructor; [|now apply IH].
  clear - Hc. revert Hc.
  destruct c as [[] [] [] [] [] [] [] []]; vm_compute;
    (discriminate || (intros _; repeat split; auto; fail)
     || (intros _; repeat split;
         first [left; reflexivity | right; left; reflexivity
               | right; right; reflexivity | right; reflexivity])).
Qed.

(** X26. Whatever the students file and the environment hold, every student
    that [loadStudents] returns has a first name, a last name, an e-mail
    address and a birth date that are not empty, and an e-mail address in
    lower case, accented capitals included: the address written
    ÉMILE@X.COM is loaded as émile@x.com.  A file that cannot be read gives
    no students. *)
Theorem loadStudents_fills_every_field (e : env)
    (JSON_parse : string → option jsval) (content : completion string) :
  (∀ s, In s (loadStudents (CONFIG e) JSON_parse content) →
        firstName s ≠ "" ∧ lastName s ≠ "" ∧ email s ≠ "" ∧ birthDate s ≠ ""
        ∧ toLowerCase (email s) = email s
        ∧ Forall (fun c => let n := N_of_ascii c in
                           (n < 65 ∨ 90 < n) ∧ (n < 192 ∨ 214 < n ∨ n = 215)
                           ∧ (n < 216 ∨ 222 < n))%N
            (list_ascii_of_string (email s)))
  ∧ map email (loadStudents (CONFIG e) JSON_parse (Normal emile_line))
    = [String (ascii_of_nat 233) "mile@x.com"]
  ∧ (∀ err, loadStudents (CONFIG e) JSON_parse (Throw err) = []).
Proof.
  split; [|split; reflexivity].
  intros s Hin. unfold loadStudents in Hin.
  destruct content as [content|err]; [|destruct Hin].
  apply list_elem_of_In, list_elem_of_omap in Hin as (line & _ & Hline).
  destruct (parseLine_fields (CONFIG e) JSON_parse line s
              (proj1 (CONFIG_nonempty e)) Hline)
    as (Hf & Hl & He & Hb & Hlow).
  repeat (split; [assumption|]). now apply lower_case_has_no_capital.
Qed.

Lemma parseLine_school (cfg : config) (JSON_parse : string → option jsval)
    (line : string) :
  school <$> parseLine cfg JSON_parse line
  = if (4 <=? List.length (split "|" line))%nat
    then Some (trim (nth 0 (split "|" line) ""))
    else None.
Proof.
  unfold parseLine. rewrite length_map.
  destruct (4 <=? List.length (split "|" line))%nat eqn:E.
  - apply Nat.leb_le in E. rewrite (proj2 (Nat.ltb_ge _ _) E).
    cbn [fmap option_fmap option_map school]. f_equal.
    destruct (split "|" line); [cbn in E; lia|reflexivity].
  - apply Nat.leb_gt in E. now rewrite (proj2 (Nat.ltb_lt _ _) E).
Qed.

Lemma filter_cons_eq {A} (f : A → bool) (x : A) (l : list A) :
  List.filter f (x :: l) = if f x then x :: List.filter f l else List.filter f l.
Proof. reflexivity. Qed.

Lemma omap_cons_eq {A B} (f : A → option B) (x : A) (l : list A) :
  omap f (x :: l)
  = match f x with Some y => y :: omap f l | None => omap f l end.
Proof. reflexivity. Qed.

(** X27. [loadStudents] returns one student for each line that is not blank
    and has at least four fields, in the order of the file, under the
    school named in its first field; blank lines and shorter lines are
    skipped. *)
Theorem loadStudents_keeps_lines_of_four_fields (cfg : config)
    (JSON_parse : string → option jsval) (content : string) :
  map school (loadStudents cfg JSON_parse (Normal content))
  = map (fun line => trim (nth 0 (split "|" line) ""))
      (List.filter
         (fun line => nonblank line
                      && (4 <=? List.length (split "|" line))%nat)
         (split "010"%char content)).
Proof.
  unfold loadStudents.
  induction (split "010"%char content) as [|line lines IH]; [reflexivity|].
  rewrite !filter_cons_eq. destruct (nonblank line); cbn [andb]; [|exact IH].
  pose proof (parseLine_school cfg JSON_parse line) as Hs.
  rewrite omap_cons_eq.
  destruct (parseLine cfg JSON_parse line) as [s|];
    destruct (4 <=? List.length (split "|" line))%nat; try discriminate Hs.
  - injection Hs as Hs. cbn [map]. rewrite Hs. f_equal. exact IH.
  - exact IH.
Qed.

Example sample_students_loaded :
  map (fun s => (school s, firstName s, lastName s, email s, birthDate s,
                 metadata s))
    (loadStudents (CONFIG {| DEFAULT_BIRTHDATE := None; DEFAULT_STATUS := None;
                             DEFAULT_MAJOR := Some "" |})
       (fun _ => None) (Normal sample_students))
  = [("MIT", "Ada", "Lovelace", "ada@mit.edu", "1990-12-10",
      JObj [("status", JStr "parttime"); ("major", JStr "physics")]);
     ("Yale", "TEST", "USER", "test.user@example.com", "1991-01-01",
      JObj [("status", JStr "fulltime"); ("major", JStr "accounting")])].
Proof. vm_compute. reflexivity. Qed.

End StudentsFacts.

Module VerificationFacts.
Import Text Colleges Executor Students Verification.
Local Open Scope nat_scope.
Local Open Scope list_scope.

Lemma count_app (p : action → bool) (tr tr' : list action) :
  count p (tr ++ tr') = count p tr + count p tr'.
Proof. unfold count. now rewrite List.filter_app, List.length_app. Qed.

Lemma waited_app (tr tr' : list action) :
  waited (tr ++ tr') = (waited tr + waited tr')%N.
Proof.
  induction tr as [|a tr IH]; [reflexivity|].
  cbn [app waited fold_right]. fold (waited (tr ++ tr')). fold (waited tr).
  rewrite IH. destruct a; lia.
Qed.

(** Each helper makes one request and never throws. *)
Lemma checkStatus_run (svc : service) (tr : list action) :
  ∃ o, checkStatus svc tr = (o, tr ++ [GetVerification]).
Proof.
  unfold checkStatus, request_verification, mbind, V_bind, mret, V_ret.
  destruct (verification svc _); eauto.
Qed.

Lemma submitPersonalInfo_run (svc : service) (s : student) (c : college)
    (tr : list action) :
  ∃ o, submitPersonalInfo svc s c tr = (o, tr ++ [PostPersonalInfo s c]).
Proof.
  unfold submitPersonalInfo, act, mbind, V_bind, mret, V_ret.
  destruct (personal_info svc s c); eauto.
Qed.

Lemma cancelSso_run (svc : service) (tr : list action) :
  ∃ o, cancelSso svc tr = (o, tr ++ [DeleteSso]).
Proof.
  unfold cancelSso, act, mbind, V_bind, mret, V_ret.
  destruct (sso svc); eauto.
Qed.

Lemma getgoogleUrl_run (svc : service) (tr : list action) :
  ∃ r, getgoogleUrl svc tr = (r, tr ++ [GetRedirect])
       ∧ ∀ url, r = Some url → url ≠ "".
Proof.
  unfold getgoogleUrl, act, located, mbind, V_bind, mret, V_ret.
  destruct (redirect svc) as [[url|]|[url|]];
    try destruct (String.eqb url "") eqn:E;
    eexists; (split; [reflexivity|]); intros u [= <-];
    now apply String.eqb_neq.
Qed.

Lemma saveResult_run (svc : service) (url : string) (tr : list action) :
  saveResult svc url tr = (tt, tr ++ [AppendFile (url ++ String "010"%char "")]).
Proof.
  unfold saveResult, act, mbind, V_bind, mret, V_ret.
  destruct (appendFileSync svc _); reflexivity.
Qed.

Ltac run_process :=
  unfold processStudent, getVerificationDetails, request_verification, act;
  unfold mbind, V_bind, mret, V_ret.

Ltac step_process :=
  match goal with
  | |- context [checkStatus ?svc ?tr] =>
      let o := fresh "o" in
      destruct (checkStatus_run svc tr) as [o ->]; destruct o as [[] ?]
  | |- context [submitPersonalInfo ?svc ?s ?c ?tr] =>
      let o := fresh "o" in
      destruct (submitPersonalInfo_run svc s c tr) as [o ->];
      destruct o as [[] ?]
  | |- context [cancelSso ?svc ?tr] =>
      let o := fresh "o" in
      destruct (cancelSso_run svc tr) as [o ->]; destruct o as [[] ?]
  | |- context [getgoogleUrl ?svc ?tr] =>
      let r := fresh "r" in
      let Hr := fresh "Hr" in
      destruct (getgoogleUrl_run svc tr) as (r & -> & Hr); destruct r
  | |- context [saveResult ?svc ?url ?tr] =>
      rewrite (saveResult_run svc url tr)
  | |- context [if at_step ?x ?n then _ else _] =>
      destruct (at_step x n)
  | _ => progress cbn [negb success currentStep fst snd]
  end.

Ltac split_cases := repeat step_process.

(** A student whose school is not in the colleges map costs one request
    for the verification details and nothing else: nothing is submitted
    and nothing is saved. *)
Lemma unknown_school_stops_at_once (svc : service) (s : student)
    (collegesMap : colleges_map) (tr : list action) :
  findCollegeByName collegesMap (Some (school s)) = None →
  processStudent svc s collegesMap tr = (None, tr ++ [GetVerification]).
Proof.
  intros Hnone. run_process. rewrite Hnone. reflexivity.
Qed.

Example yale_is_unknown :
  processStudent sample_service
    {| school := "Yale"; firstName := "Bob"; lastName := "Stone";
       email := "bob@example.com"; birthDate := "1991-01-01";
       metadata := JNull |}
    texas_colleges []
  = (None, [GetVerification]).
Proof. vm_compute. reflexivity. Qed.

Lemma processStudent_run (svc : service) (s : student)
    (collegesMap : colleges_map) (tr : list action) :
  ∃ result delta,
    processStudent svc s collegesMap tr = (result, tr ++ delta)
    ∧ count is_GetVerification delta <= 5
    ∧ count is_PostPersonalInfo delta <= 1
    ∧ count is_DeleteSso delta <= 1
    ∧ count is_GetRedirect delta <= 1
    ∧ count is_PostDocument delta = 0
    ∧ (waited delta <= 5000)%N
    ∧ count is_AppendFile delta = List.length (urls [result]).
Proof.
  run_process.
  destruct (findCollegeByName collegesMap (Some (school s))) as [college|].
  2:{ do 2 eexists. split; [reflexivity|]. cbn. repeat split; lia. }
  split_cases; rewrite <- ?app_assoc; do 2 eexists;
    (split; [reflexivity|]); cbn; repeat split; lia.
Qed.

(** X29. Whatever the service answers, processing one student makes at most
    five requests for the verification, submits the personal information
    at most once, cancels single sign-on at most once, asks for the
    redirect at most once, never uploads a document, waits at most five
    seconds, and appends a line to the output file exactly when it returns
    a URL. *)
Theorem processStudent_is_bounded (svc : service) (s : student)
    (collegesMap : colleges_map) (tr : list action) :
  ∃ delta,
    snd (processStudent svc s collegesMap tr) = tr ++ delta
    ∧ count is_GetVerification delta <= 5
    ∧ count is_PostPersonalInfo delta <= 1
    ∧ count is_DeleteSso delta <= 1
    ∧ count is_GetRedirect delta <= 1
    ∧ count is_PostDocument delta = 0
    ∧ (waited delta <= 5000)%N
    ∧ count is_AppendFile delta
      = match fst (processStudent svc s collegesMap tr) with
        | Some _ => 1
        | None => 0
        end.
Proof.
  destruct (processStudent_run svc s collegesMap tr)
    as (result & delta & -> & Hg & Hp & Hd & Hr & Hu & Hw & Ha).
  exists delta. cbn [fst snd]. rewrite Ha.
  destruct result; cbn; auto 10.
Qed.

Lemma processEach_run (svc : service) (collegesMap : colleges_map)
    (students : list student) :
  ∀ tr,
    ∃ results delta,
      processEach svc collegesMap students tr = (results, tr ++ delta)
      ∧ List.length results = List.length students
      ∧ count is_AppendFile delta = List.length (urls results)
      ∧ count is_GetVerification delta <= 5 * List.length students
      ∧ count is_PostDocument delta = 0
      ∧ (waited delta
         <= 5000 * N.of_nat (List.length students)
            + 2000 * N.of_nat (List.length students - 1))%N.
Proof.
  induction students as [|s rest IH]; intros tr.
  - exists [], []. rewrite app_nil_r. cbn. repeat split; lia.
  - cbn [processEach]. unfold mbind at 1, V_bind.
    destruct (processStudent_run svc s collegesMap tr)
      as (result & d1 & -> & Hg & _ & _ & _ & Hu & Hw & Ha).
    set (pause := match rest with [] => [] | _ :: _ => [Wait 2000] end).
    assert (Hpause :
      (match rest with [] => mret tt | _ :: _ => act (Wait 2000) end)
        (tr ++ d1) = (tt, (tr ++ d1) ++ pause)).
    { unfold pause. destruct rest; [now rewrite app_nil_r|reflexivity]. }
    unfold mbind at 1, V_bind. rewrite Hpause.
    destruct (IH ((tr ++ d1) ++ pause))
      as (results & d2 & Hrun & Hlen & Ha2 & Hg2 & Hu2 & Hw2).
    unfold mbind, V_bind, mret, V_ret. rewrite Hrun.
    exists (result :: results), (d1 ++ pause ++ d2).
    rewrite <- !app_assoc. split; [reflexivity|].
    assert (Hp : count is_AppendFile pause = 0
                 ∧ count is_GetVerification pause = 0
                 ∧ count is_PostDocument pause = 0
                 ∧ waited pause
                   = (2000 * N.of_nat (List.length (s :: rest) - 1)
                      - 2000 * N.of_nat (List.length rest - 1))%N).
    { unfold pause. destruct rest as [|s' rest']; cbn [List.length].
      - repeat split.
      - repeat split. cbn [waited fold_right]. lia. }
    destruct Hp as (Hpa & Hpg & Hpu & Hpw).
    rewrite !count_app, !waited_app, Hpa, Hpg, Hpu, Hpw, Ha, Ha2.
    cbn [List.length]. split; [lia|]. split.
    + unfold urls. destruct result; cbn; lia.
    + split; [lia|]. split; [lia|].
      destruct rest; cbn [List.length] in *; lia.
Qed.

Lemma joined_cons (segment : list action) (rest : list (list action)) :
  rest ≠ [] → joined (segment :: rest) = segment ++ [Wait 2000] ++ joined rest.
Proof. destruct rest; [congruence|reflexivity]. Qed.

Lemma before_succ (segment : list action) (segments : list (list action))
    (i : nat) :
  i < List.length segments →
  before (S i) (segment :: segments)
  = segment ++ [Wait 2000] ++ before i segments.
Proof.
  intros Hi. unfold before. cbn [take].
  destruct i as [|i].
  - cbn. now rewrite app_nil_r.
  - rewrite joined_cons, <- !app_assoc; [reflexivity|].
    destruct segments; [cbn in Hi; lia|discriminate].
Qed.

(** The loop of [main] runs [processStudent] for each student in turn,
    each from the actions done so far, and pauses between two students. *)
Lemma processEach_segments (svc : service) (collegesMap : colleges_map)
    (students : list student) :
  ∀ tr,
    ∃ results segments,
      processEach svc collegesMap students tr = (results, tr ++ joined segments)
      ∧ List.length results = List.length students
      ∧ List.length segments = List.length students
      ∧ ∀ i s, students !! i = Some s →
          ∃ segment result,
            segments !! i = Some segment ∧ results !! i = Some result
            ∧ processStudent svc s collegesMap (tr ++ before i segments)
              = (result, (tr ++ before i segments) ++ segment).
Proof.
  induction students as [|s rest IH]; intros tr.
  - exists [], []. rewrite app_nil_r. repeat split. intros i s Hs.
    destruct i; discriminate Hs.
  - cbn [processEach]. unfold mbind at 1, V_bind.
    destruct (processStudent_run svc s collegesMap tr)
      as (result & d1 & Hone & _).
    rewrite Hone. unfold mbind at 1, V_bind.
    destruct rest as [|s' rest'].
    + exists [result], [d1]. cbn. repeat split.
      intros [|i] s0 Hs; [|destruct i; discriminate Hs].
      injection Hs as <-. exists d1, result.
      unfold before. cbn. rewrite !app_nil_r. auto.
    + change (act (Wait 2000) (tr ++ d1)) with (tt, (tr ++ d1) ++ [Wait 2000]).
      destruct (IH ((tr ++ d1) ++ [Wait 2000]))
        as (results & segments & Hrun & Hlen & Hlen' & Heach).
      unfold mbind, V_bind, mret, V_ret. rewrite Hrun.
      exists (result :: results), (d1 :: segments).
      assert (Hne : segments ≠ [])
        by (destruct segments; [cbn in Hlen'; lia|discriminate]).
      rewrite (joined_cons d1 segments Hne), <- !app_assoc.
      split; [reflexivity|]. cbn [List.length].
      split; [now rewrite Hlen|]. split; [now rewrite Hlen'|].
      intros [|i] s0 Hs.
      * injection Hs as <-. exists d1, result.
        unfold before. cbn. rewrite !app_nil_r. auto.
      * change ((s :: s' :: rest') !! S i) with ((s' :: rest') !! i) in Hs.
        destruct (Heach i s0 Hs) as (segment & res & Hseg & Hres & Hproc).
        exists segment, res. split; [exact Hseg|]. split; [exact Hres|].
        rewrite before_succ by (apply lookup_lt_Some in Hseg; exact Hseg).
        rewrite <- !app_assoc in Hproc. rewrite <- !app_assoc. exact Hproc.
Qed.

(** X28. [main] does nothing without a verification id, without colleges or
    without students.  Otherwise it processes every student once, in the
    order of the list: its actions are those of [processStudent] for the
    first student, a pause of two seconds, those of [processStudent] for
    the second student run from there, and so on, with no pause after the
    last student, and its results are what [processStudent] returned, in
    the same order.  In all, it appends one line to the output file for
    each URL returned (so at most one per student), makes at most five
    requests for the verification per student, never uploads a document,
    and waits at most five seconds per student beside the pauses. *)
Theorem main_processes_each_student_once (svc : service)
    (verificationId : string) (collegesMap : colleges_map)
    (students : list student) (tr : list action) :
  ∃ results segments,
    main svc verificationId collegesMap students tr
    = (results, tr ++ joined segments)
    ∧ (verificationId = "" ∨ collegesMap = [] ∨ students = [] →
       results = [] ∧ segments = [])
    ∧ (verificationId ≠ "" → collegesMap ≠ [] →
       List.length results = List.length students
       ∧ List.length segments = List.length students
       ∧ ∀ i s, students !! i = Some s →
           ∃ segment result,
             segments !! i = Some segment ∧ results !! i = Some result
             ∧ processStudent svc s collegesMap (tr ++ before i segments)
               = (result, (tr ++ before i segments) ++ segment))
    ∧ count is_AppendFile (joined segments) = List.length (urls results)
    ∧ List.length (urls results) <= List.length students
    ∧ count is_GetVerification (joined segments) <= 5 * List.length students
    ∧ count is_PostDocument (joined segments) = 0
    ∧ (waited (joined segments)
       <= 5000 * N.of_nat (List.length students)
          + 2000 * N.of_nat (List.length students - 1))%N.
Proof.
  unfold main.
  destruct (String.eqb verificationId "") eqn:Hid.
  { apply String.eqb_eq in Hid. exists [], []. rewrite app_nil_r.
    split; [reflexivity|]. split; [auto|].
    split; [intros H; now destruct H|]. cbn. repeat split; lia. }
  destruct collegesMap as [|entry collegesMap].
  { exists [], []. rewrite app_nil_r.
    split; [reflexivity|]. split; [auto|].
    split; [intros _ H; now destruct H|]. cbn. repeat split; lia. }
  destruct students as [|s students].
  { exists [], []. rewrite app_nil_r.
    split; [reflexivity|]. split; [auto|].
    split; [|cbn; repeat split; lia].
    intros _ _. repeat split. intros i s Hs. destruct i; discriminate Hs. }
  change (List.length (entry :: collegesMap) =? 0) with false.
  change (List.length (s :: students) =? 0) with false. cbv iota.
  destruct (processEach_segments svc (entry :: collegesMap) (s :: students) tr)
    as (results & segments & Hrun & Hlen & Hlen' & Heach).
  destruct (processEach_run svc (entry :: collegesMap) (s :: students) tr)
    as (results' & delta & Hrun' & _ & Ha & Hg & Hu & Hw).
  rewrite Hrun in Hrun'. injection Hrun' as <- Hdelta.
  apply app_inv_head in Hdelta. subst delta.
  exists results, segments. split; [exact Hrun|].
  apply String.eqb_neq in Hid.
  split; [intros [H|[H|H]]; [contradiction|discriminate H|discriminate H]|].
  split; [intros _ _; auto|]. split; [exact Ha|].
  split; [|auto].
  rewrite <- Hlen. unfold urls. clear.
  induction results as [|[u|] results IH]; cbn; lia.
Qed.

(** Two students of a school that is not in the colleges map: the
    verification is asked for once for each, with one pause in between. *)
Example two_unknown_schools :
  let bob := {| school := "Yale"; firstName := "Bob"; lastName := "Stone";
                email := "bob@example.com"; birthDate := "1991-01-01";
                metadata := JNull |} in
  main sample_service "abc123" texas_colleges [bob; bob] []
  = ([None; None], [GetVerification; Wait 2000; GetVerification]).
Proof. vm_compute. reflexivity. Qed.

(** X30. When [processStudent] returns a URL, the URL is not empty, the
    school was found in the colleges map, and the last two things done
    were the redirect request and the appending of that URL to the output
    file. *)
Theorem processStudent_saves_what_it_returns (svc : service) (s : student)
    (collegesMap : colleges_map) (tr : list action) (url : string) :
  fst (processStudent svc s collegesMap tr) = Some url →
  url ≠ ""
  ∧ is_Some (findCollegeByName collegesMap (Some (school s)))
  ∧ ∃ before,
      snd (processStudent svc s collegesMap tr)
      = before ++ [GetRedirect; AppendFile (url ++ String "010"%char "")].
Proof.
  run_process.
  destruct (findCollegeByName collegesMap (Some (school s))) as [college|];
    [|discriminate].
  split_cases; cbn [fst snd]; intros H; try discriminate H;
    injection H as <-;
    (split; [now apply Hr|]); (split; [eauto|]);
    eexists; rewrite <- (app_assoc _ [GetRedirect] [AppendFile _]);
    reflexivity.
Qed.

Lemma processStudent_saves_what_it_returns_witness :
  ∃ before,
    snd (processStudent sample_service ada texas_colleges [])
    = before ++ [GetRedirect;
                 AppendFile ("https://example.com/offer" ++ String "010"%char "")].
Proof.
  apply (processStudent_saves_what_it_returns sample_service ada
           texas_colleges [] "https://example.com/offer").
  vm_compute. reflexivity.
Defined.

Example sample_run :
  processStudent sample_service ada texas_colleges []
  = (Some "https://example.com/offer",
     [GetVerification; GetVerification;
      PostPersonalInfo ada
        {| college_id := 2; college_name := Some "University of Texas (System)" |};
      Wait 3000; GetVerification; GetVerification; DeleteSso; Wait 2000;
      GetVerification; GetRedirect;
      AppendFile ("https://example.com/offer" ++ String "010"%char "")]).
Proof. vm_compute. reflexivity. Qed.

End VerificationFacts.
